(** * norm_name: batch renaming to "group_model_第N个点"

    A shallow embedding of [norm_name.py] and the properties of its
    name-parsing and normalisation engine: the numeral converter
    ([cn2int], [int2cn]), the sanitizer ([sanitize_component]), the group
    index ([init_group_index], [find_group_for_model]), the pattern
    extractor ([PATTERN]), the name builder ([build_new_name]) and the
    planner ([ensure_unique], [plan_changes]). *)

From Stdlib Require Import List String Ascii ZArith NArith Lia Bool Arith.
From Stdlib Require Import DecimalZ.
Import ListNotations.

Local Open Scope N_scope.

(** ** Text

    A Python [str] is a sequence of Unicode code points. *)

Definition char := N.
Definition str := list char.

Definition str_eqb (a b : str) : bool :=
  if list_eq_dec N.eq_dec a b then true else false.

(** Source literals are written as UTF-8 text and decoded to code points. *)
Fixpoint utf8_decode (bs : list N) : str :=
  match bs with
  | [] => []
  | b :: t =>
      if b <? 128 then b :: utf8_decode t
      else if b <? 224 then
        match t with
        | b1 :: t1 => ((b - 192) * 64 + (b1 - 128)) :: utf8_decode t1
        | _ => []
        end
      else if b <? 240 then
        match t with
        | b1 :: b2 :: t2 =>
            ((b - 224) * 4096 + (b1 - 128) * 64 + (b2 - 128)) :: utf8_decode t2
        | _ => []
        end
      else
        match t with
        | b1 :: b2 :: b3 :: t3 =>
            ((b - 240) * 262144 + (b1 - 128) * 4096 + (b2 - 128) * 64 + (b3 - 128))
              :: utf8_decode t3
        | _ => []
        end
  end.

Definition u8 (s : string) : str :=
  utf8_decode (map N_of_ascii (list_ascii_of_string s)).

(** The single code point of a one-character literal. *)
Definition ch (s : string) : char := hd 0 (u8 s).

Definition mem (c : char) (l : str) : bool := existsb (N.eqb c) l.

(** ** Unicode data

    [str.isspace], [str.strip] and the pattern class [\s] share one set of
    code points, fixed by the interpreter. *)
Definition isspace (c : char) : bool :=
  ((9 <=? c) && (c <=? 13)) || ((28 <=? c) && (c <=? 32))
  || (c =? 133) || (c =? 160) || (c =? 5760)
  || ((8192 <=? c) && (c <=? 8202))
  || (c =? 8232) || (c =? 8233) || (c =? 8239) || (c =? 8287) || (c =? 12288).

(** Case mapping and the digit properties come from the interpreter's
    Unicode database.  The part of it this development computes with is
    written out: ASCII, the white space above, the en and em dash, the
    ideographic zero and the CJK unified ideographs, none of which is cased
    or a digit apart from the ASCII letters and digits.  For every other code
    point the tables are taken as given. *)
Class UnicodeTables := {
  (** [str.lower] of a string with code points outside the fragment *)
  tbl_lower : str -> str;
  (** [str.casefold] of such a string *)
  tbl_casefold : str -> str;
  (** value of a decimal digit (category Nd), if it is one *)
  tbl_decimal : char -> option Z;
  (** digits that are not decimal digits (superscripts, circled digits) *)
  tbl_digit : char -> bool
}.

Definition plain (c : char) : bool :=
  (c <? 128) || isspace c || (c =? 8211) || (c =? 8212) || (c =? 12295)
  || ((19968 <=? c) && (c <=? 40959)).

Definition ascii_lower (c : char) : char :=
  if (65 <=? c) && (c <=? 90) then c + 32 else c.

Definition ascii_digit (c : char) : bool := (48 <=? c) && (c <=? 57).

Section Unicode.
Context {UT : UnicodeTables}.

(** [s.lower()] *)
Definition lower (s : str) : str :=
  if forallb plain s then map ascii_lower s else tbl_lower s.

(** [s.casefold()] *)
Definition casefold (s : str) : str :=
  if forallb plain s then map ascii_lower s else tbl_casefold s.

(** The decimal value of a code point, [None] outside category Nd. *)
Definition decimal (c : char) : option Z :=
  if plain c then (if ascii_digit c then Some (Z.of_N (c - 48)) else None)
  else tbl_decimal c.

(** The digit property behind [str.isdigit]: every decimal digit has it. *)
Definition char_isdigit (c : char) : bool :=
  match decimal c with
  | Some _ => true
  | None => if plain c then false else tbl_digit c
  end.

(** [s.isdigit()]: at least one character, and all of them digits. *)
Definition isdigit (s : str) : bool :=
  match s with [] => false | _ => forallb char_isdigit s end.
End Unicode.

(** [s.lstrip()], [s.rstrip()], [s.strip()] *)
Fixpoint lstrip_with (p : char -> bool) (s : str) : str :=
  match s with
  | c :: t => if p c then lstrip_with p t else s
  | [] => []
  end.

Definition rstrip_with (p : char -> bool) (s : str) : str :=
  rev (lstrip_with p (rev s)).

Definition strip (s : str) : str := rstrip_with isspace (lstrip_with isspace s).

(** [a in b] on strings: [a] occurs in [b] as a contiguous run. *)
Fixpoint prefix_of (a b : str) : bool :=
  match a, b with
  | [], _ => true
  | x :: a', y :: b' => (x =? y) && prefix_of a' b'
  | _ :: _, [] => false
  end.

Fixpoint str_in (a b : str) : bool :=
  prefix_of a b || match b with [] => false | _ :: b' => str_in a b' end.

(** ** Outcomes

    A call returns a value or raises; a loop or recursion that the model
    bounds by fuel can also use up its fuel. *)
Inductive exn := ValueError | KeyError | AttributeError.

Inductive outcome (A : Type) :=
| Ret (a : A)
| Raise (e : exn)
| OutOfFuel.
Arguments Ret {A} a.
Arguments Raise {A} e.
Arguments OutOfFuel {A}.

Definition bind {A B} (m : outcome A) (f : A -> outcome B) : outcome B :=
  match m with Ret a => f a | Raise e => Raise e | OutOfFuel => OutOfFuel end.

Notation "x <- m ;; k" := (bind m (fun x => k))
  (at level 61, m at next level, right associativity).

(** ** Regular expressions

    The patterns of the program, as syntax trees, and the backtracking
    matcher of the [re] module restricted to the constructs they use. *)

(** Character classes. *)
Inductive cls :=
| CAny                    (** [.]: any character but a newline *)
| CSpace                  (** [\s] *)
| CDigit                  (** [\d] *)
| CSet (l : str)          (** [[abc]] *)
| CUnion (a b : cls).     (** [[\sabc]] *)

Inductive quant := Greedy | Lazy.

Inductive re :=
| Eps
| Cls (p : cls)                         (** one character of a class *)
| Seq (a b : re)
| Alt (a b : re)                        (** [a|b], left first *)
| Opt (a : re)                          (** [(?:a)?] *)
| Rep (q : quant) (n : nat) (p : cls)   (** [p{n,}], or [p{n,}?] when lazy *)
| Grp (g : string) (a : re)             (** [(?P<g>a)] *)
| Bol                                   (** [^] *)
| Eol.                                  (** [$] *)

Declare Scope re_scope.
Delimit Scope re_scope with re.
Bind Scope re_scope with re.
Infix ">>" := Seq (at level 41, right associativity) : re_scope.
Infix "|:" := Alt (at level 51, right associativity) : re_scope.

(** A literal run of characters. *)
Definition lit (s : str) : re := fold_right (fun c r => Seq (Cls (CSet [c])) r) Eps s.

(** The state of a match attempt: whether the cursor is still at the start
    of the text, the text that remains, and the groups captured so far. *)
Record mstate := MState {
  at_start : bool;
  rest : str;
  groups : list (string * str)
}.

Definition start (text : str) : mstate := MState true text [].

Definition goto (st : mstate) (t : str) : mstate := MState false t (groups st).

Fixpoint set_group (g : string) (v : str) (gs : list (string * str))
  : list (string * str) :=
  match gs with
  | [] => [(g, v)]
  | (g', v') :: gs' =>
      if String.eqb g g' then (g, v) :: gs' else (g', v') :: set_group g v gs'
  end.

Fixpoint group (g : string) (gs : list (string * str)) : option str :=
  match gs with
  | [] => None
  | (g', v) :: gs' => if String.eqb g g' then Some v else group g gs'
  end.

(** The text consumed between two states of one attempt. *)
Definition taken (st st' : mstate) : str :=
  firstn (List.length (rest st) - List.length (rest st')) (rest st).

Definition capture (g : string) (st st' : mstate) : mstate :=
  MState (at_start st') (rest st') (set_group g (taken st st') (groups st')).

(** [p] exactly [n] times, then [k]. *)
Fixpoint times (p : char -> bool) (n : nat) (k : mstate -> option mstate)
  (cur : mstate) (t : str) : option mstate :=
  match n with
  | O => k cur
  | S n' =>
      match t with
      | c :: t' => if p c then times p n' k (goto cur t') t' else None
      | [] => None
      end
  end.

(** [p*]: as many as possible, giving one back at a time. *)
Fixpoint greedy_from (p : char -> bool) (k : mstate -> option mstate)
  (cur : mstate) (t : str) : option mstate :=
  match t with
  | c :: t' =>
      if p c then
        match greedy_from p k (goto cur t') t' with
        | Some m => Some m
        | None => k cur
        end
      else k cur
  | [] => k cur
  end.

(** [p*?]: as few as possible, taking one more at a time. *)
Fixpoint lazy_from (p : char -> bool) (k : mstate -> option mstate)
  (cur : mstate) (t : str) : option mstate :=
  match k cur with
  | Some m => Some m
  | None =>
      match t with
      | c :: t' => if p c then lazy_from p k (goto cur t') t' else None
      | [] => None
      end
  end.

Section Regex.
Context {UT : UnicodeTables}.

Fixpoint cls_mem (p : cls) (c : char) : bool :=
  match p with
  | CAny => negb (c =? 10)
  | CSpace => isspace c
  | CDigit => match decimal c with Some _ => true | None => false end
  | CSet l => mem c l
  | CUnion a b => cls_mem a c || cls_mem b c
  end.

(** [rmatch r k st]: match [r] at [st], then continue with [k]; the first
    success in backtracking order is the result. *)
Fixpoint rmatch (r : re) (k : mstate -> option mstate) (st : mstate)
  : option mstate :=
  match r with
  | Eps => k st
  | Cls p =>
      match rest st with
      | c :: t => if cls_mem p c then k (goto st t) else None
      | [] => None
      end
  | Seq a b => rmatch a (rmatch b k) st
  | Alt a b =>
      match rmatch a k st with
      | Some m => Some m
      | None => rmatch b k st
      end
  | Opt a =>
      match rmatch a k st with
      | Some m => Some m
      | None => k st
      end
  | Rep q n p =>
      times (cls_mem p) n
        (fun st' =>
           match q with
           | Greedy => greedy_from (cls_mem p) k st' (rest st')
           | Lazy => lazy_from (cls_mem p) k st' (rest st')
           end)
        st (rest st)
  | Grp g a => rmatch a (fun st' => k (capture g st st')) st
  | Bol => if at_start st then k st else None
  | Eol =>
      match rest st with
      | [] => k st
      | [c] => if c =? 10 then k st else None
      | _ => None
      end
  end.

(** [r.search(text)]: the first position at which [r] matches. *)
Fixpoint search_from (r : re) (cur : mstate) (t : str) : option mstate :=
  match rmatch r Some cur with
  | Some m => Some m
  | None =>
      match t with
      | _ :: t' => search_from r (goto cur t') t'
      | [] => None
      end
  end.

Definition re_search (r : re) (text : str) : option mstate :=
  search_from r (start text) text.

(** [r.sub(repl, text)]: every match, left to right and without overlap, is
    replaced by [repl]; after an empty match one character is copied. *)
Fixpoint sub_loop (fuel : nat) (r : re) (repl : str) (cur : mstate) : str :=
  match fuel with
  | O => rest cur
  | S fuel' =>
      let copy :=
        match rest cur with
        | c :: t => c :: sub_loop fuel' r repl (goto cur t)
        | [] => []
        end in
      match rmatch r Some cur with
      | Some m =>
          if (List.length (rest m) <? List.length (rest cur))%nat
          then repl ++ sub_loop fuel' r repl (goto cur (rest m))
          else repl ++ copy
      | None => copy
      end
  end.

Definition re_sub (r : re) (repl : str) (text : str) : str :=
  sub_loop (S (List.length text)) r repl (start text).

(** What one successful match of [r] does to the state: the text it takes
    off the front and the groups it sets. *)
Fixpoint matched (r : re) (st st' : mstate) : Prop :=
  match r with
  | Eps => st' = st
  | Cls p =>
      exists c, rest st = c :: rest st' /\ cls_mem p c = true
                /\ groups st' = groups st
  | Seq a b => exists mid, matched a st mid /\ matched b mid st'
  | Alt a b => matched a st st' \/ matched b st st'
  | Opt a => matched a st st' \/ st' = st
  | Rep _ n p =>
      exists w, (n <= List.length w)%nat /\ forallb (cls_mem p) w = true
                /\ rest st = w ++ rest st' /\ groups st' = groups st
  | Grp g a => exists mid, matched a st mid /\ st' = capture g st mid
  | Bol => st' = st
  | Eol => st' = st
  end.
End Regex.

(** A pattern without capturing groups. *)
Fixpoint no_groups (r : re) : bool :=
  match r with
  | Seq a b | Alt a b => no_groups a && no_groups b
  | Opt a => no_groups a
  | Grp _ _ => false
  | _ => true
  end.

(** ** Dictionaries

    A [dict] keeps its keys in insertion order; assigning to a key that is
    present replaces the value in place. *)
Definition dict (V : Type) := list (str * V).

Fixpoint dict_get {V} (k : str) (d : dict V) : option V :=
  match d with
  | [] => None
  | (k', v) :: d' => if str_eqb k k' then Some v else dict_get k d'
  end.

Fixpoint dict_set {V} (k : str) (v : V) (d : dict V) : dict V :=
  match d with
  | [] => [(k, v)]
  | (k', v') :: d' =>
      if str_eqb k k' then (k', v) :: d' else (k', v') :: dict_set k v d'
  end.

(** Lookup in a table keyed by one character or one integer. *)
Fixpoint char_get {V} (c : char) (d : list (char * V)) : option V :=
  match d with
  | [] => None
  | (c', v) :: d' => if c =? c' then Some v else char_get c d'
  end.

Fixpoint int_get {V} (n : Z) (d : list (Z * V)) : option V :=
  match d with
  | [] => None
  | (n', v) :: d' => if (n =? n')%Z then Some v else int_get n d'
  end.

(** ** The group table *)

Definition PHONE_GROUPS : list (str * list str) :=
  [ (u8 "1-1", [u8 "小米15"; u8 "xiaomi15"]);
    (u8 "1-2", [u8 "一加13"; u8 "oneplus13"]);
    (u8 "1-3", [u8 "oppo find x8"; u8 "oppofindx8pro"; u8 "findx8pro"]);
    (u8 "1-4", [u8 "vivo iqoo13"; u8 "vivoiqoo13"; u8 "iqoo13"]);
    (u8 "1-5", [u8 "三星s24"; u8 "samsungs24"]);
    (u8 "2-1", [u8 "vivo x200 pro"; u8 "vivox200pro"; u8 "x200pro"]);
    (u8 "2-2", [u8 "苹果15"; u8 "iphone15"]);
    (u8 "2-3", [u8 "荣耀magic7"; u8 "honormagic7"; u8 "magic7"]);
    (u8 "2-4", [u8 "红米k80pro"; u8 "redmik80pro"; u8 "k80pro"]);
    (u8 "2-5", [u8 "华为p40proplus"; u8 "huaweip40proplus"; u8 "p40proplus"]);
    (u8 "3-1", [u8 "华为mate60"; u8 "huaweimate60"; u8 "mate60"]);
    (u8 "3-2", [u8 "一加ace3"; u8 "oneplusace3"; u8 "ace3"]);
    (u8 "3-3", [u8 "小米14"; u8 "xiaomi14"]);
    (u8 "3-4", [u8 "荣耀magic6"; u8 "honormagic6"; u8 "magic6"]);
    (u8 "3-5", [u8 "荣耀magicvs3"; u8 "honormagicvs3"; u8 "magicvs3"]);
    (u8 "4-1", [u8 "华为p60"; u8 "huaweip60"; u8 "p60"]);
    (u8 "4-2", [u8 "华为nova13"; u8 "huaweinova13"; u8 "nova13"]);
    (u8 "4-3", [u8 "华为mate50pro"; u8 "huaweimate50pro"; u8 "mate50pro"]);
    (u8 "4-4", [u8 "华为nova14pro"; u8 "huaweinova14pro"; u8 "nova14pro"]);
    (u8 "4-5", [u8 "华为nova14ultra"; u8 "huaweinova14ultra"; u8 "nova14ultra"]);
    (u8 "5-1", [u8 "华为p70pro"; u8 "huaweip70pro"; u8 "p70pro"]);
    (u8 "5-2", [u8 "华为matex5"; u8 "huaweimatex5"; u8 "matex5"]);
    (u8 "5-3", [u8 "vivo s19 pro"; u8 "vivos19pro"; u8 "s19pro"]);
    (u8 "5-4", [u8 "vivo x100 pro"; u8 "vivox100pro"; u8 "x100pro"]);
    (u8 "5-5", [u8 "oppo find x7"; u8 "oppofindx7"; u8 "findx7"]);
    (u8 "5-6", [u8 "oppo find n3"; u8 "oppofindn3"; u8 "findn3"]) ].

(** The module-level dictionaries that [init_group_index] fills. *)
Record index := Index {
  MODEL_TO_GROUP : dict str;
  NORMALIZED_MODEL_TO_GROUP : dict (str * str);
  GROUP_TO_CANONICAL_MODEL : dict str
}.

(** [[\s_\-—–]] *)
Definition connector : cls := CUnion CSpace (CSet (u8 "_-—–")).

Section GroupIndex.
Context {UT : UnicodeTables}.

Definition normalize_model_key (s : str) : str :=
  let s := strip (lower s) in
  re_sub (Rep Greedy 1 connector) [] s.

(** The inner loop of [init_group_index]: the aliases of one group. *)
Fixpoint index_aliases (group : str) (aliases : list str) (G : index) : index :=
  match aliases with
  | [] => G
  | alias :: aliases' =>
      let a := strip alias in
      match a with
      | [] => index_aliases group aliases' G
      | _ =>
          index_aliases group aliases'
            (Index (dict_set a group (MODEL_TO_GROUP G))
                   (dict_set (normalize_model_key a) (group, a)
                             (NORMALIZED_MODEL_TO_GROUP G))
                   (GROUP_TO_CANONICAL_MODEL G))
      end
  end.

(** The outer loop: the groups in the order of the table. *)
Fixpoint index_groups (table : list (str * list str)) (G : index) : index :=
  match table with
  | [] => G
  | (group, aliases) :: table' =>
      let G1 :=
        match aliases with
        | first :: _ =>
            Index (MODEL_TO_GROUP G) (NORMALIZED_MODEL_TO_GROUP G)
                  (dict_set group (strip first) (GROUP_TO_CANONICAL_MODEL G))
        | [] => G
        end in
      index_groups table' (index_aliases group aliases G1)
  end.

(** The three dictionaries are cleared and rebuilt from the table. *)
Definition init_group_index (table : list (str * list str)) (G : index) : index :=
  index_groups table (Index [] [] []).

(** The fuzzy scan of [find_group_for_model]: [best] is the candidate kept so
    far, as (group, alias, length of the normalised alias). *)
Fixpoint scan_aliases (key : str) (entries : dict (str * str))
  (best : option (str * str * nat)) : option (str * str * nat) :=
  match entries with
  | [] => best
  | (alias_key, (grp, alias)) :: entries' =>
      if str_in alias_key key || str_in key alias_key then
        let cand := (grp, alias, List.length alias_key) in
        match best with
        | None => scan_aliases key entries' (Some cand)
        | Some b =>
            if (snd b <? snd cand)%nat
            then scan_aliases key entries' (Some cand)
            else scan_aliases key entries' best
        end
      else scan_aliases key entries' best
  end.

Definition find_group_for_model (G : index) (model_text : str)
  : option str * option str :=
  let key := normalize_model_key model_text in
  match dict_get key (NORMALIZED_MODEL_TO_GROUP G) with
  | Some (group, alias) => (Some group, Some alias)
  | None =>
      match scan_aliases key (NORMALIZED_MODEL_TO_GROUP G) None with
      | Some (grp, alias, _) => (Some grp, Some alias)
      | None => (None, None)
      end
  end.

(** The state of the module once it is loaded. *)
Definition loaded : index := init_group_index PHONE_GROUPS (Index [] [] []).
End GroupIndex.

(** ** The numeral converter *)

Definition NUM_MAP : list (char * Z) :=
  [ (ch "零", 0); (ch "〇", 0);
    (ch "一", 1); (ch "二", 2); (ch "两", 2); (ch "三", 3); (ch "四", 4);
    (ch "五", 5); (ch "六", 6); (ch "七", 7); (ch "八", 8); (ch "九", 9);
    (ch "壹", 1); (ch "贰", 2); (ch "貳", 2); (ch "叁", 3); (ch "肆", 4);
    (ch "伍", 5); (ch "陆", 6); (ch "陸", 6); (ch "柒", 7); (ch "捌", 8);
    (ch "玖", 9) ]%Z.

Definition UNIT_MAP : list (char * Z) :=
  [ (ch "十", 10); (ch "拾", 10); (ch "百", 100); (ch "佰", 100);
    (ch "千", 1000); (ch "仟", 1000) ]%Z.

Definition INT_TO_CN : list (Z * char) :=
  [ (0, ch "零"); (1, ch "一"); (2, ch "二"); (3, ch "三"); (4, ch "四");
    (5, ch "五"); (6, ch "六"); (7, ch "七"); (8, ch "八"); (9, ch "九") ]%Z.

(** The decimal text of an integer: its digits, after a minus sign when it
    is negative. *)
Fixpoint uint_chars (d : Decimal.uint) : str :=
  match d with
  | Decimal.Nil => []
  | Decimal.D0 d' => 48 :: uint_chars d'
  | Decimal.D1 d' => 49 :: uint_chars d'
  | Decimal.D2 d' => 50 :: uint_chars d'
  | Decimal.D3 d' => 51 :: uint_chars d'
  | Decimal.D4 d' => 52 :: uint_chars d'
  | Decimal.D5 d' => 53 :: uint_chars d'
  | Decimal.D6 d' => 54 :: uint_chars d'
  | Decimal.D7 d' => 55 :: uint_chars d'
  | Decimal.D8 d' => 56 :: uint_chars d'
  | Decimal.D9 d' => 57 :: uint_chars d'
  end.

Definition str_of_int (n : Z) : str :=
  match Z.to_int n with
  | Decimal.Pos d => uint_chars d
  | Decimal.Neg d => 45 :: uint_chars d
  end.

(** The interpreter limits the conversions between integers and decimal
    strings: [sys.int_info.default_max_str_digits], which the program leaves
    as it is.  An integer has more digits than that when its absolute value
    reaches [int_str_limit]. *)
Definition int_max_str_digits : N := 4300.

Definition int_str_limit : Z := (10 ^ Z.of_N int_max_str_digits)%Z.

(** [str(n)], and [n] formatted in an f-string: the decimal text, or
    [ValueError] for an integer of more than 4300 digits. *)
Definition builtin_str (n : Z) : outcome str :=
  if (Z.abs n <? int_str_limit)%Z then Ret (str_of_int n) else Raise ValueError.

(** The loop of [cn2int]; [None] is the early [return None]. *)
Fixpoint cn2int_loop (s : str) (total current : Z) : option Z :=
  match s with
  | [] => Some (total + current)%Z
  | c :: s' =>
      match char_get c NUM_MAP with
      | Some v => cn2int_loop s' total v
      | None =>
          match char_get c UNIT_MAP with
          | Some unit =>
              let current := if (current =? 0)%Z then 1%Z else current in
              cn2int_loop s' (total + current * unit)%Z 0%Z
          | None => if isspace c then cn2int_loop s' total current else None
          end
      end
  end.

(** [INT_TO_CN[n]] *)
Definition int_to_cn (n : Z) : outcome char :=
  match int_get n INT_TO_CN with
  | Some c => Ret c
  | None => Raise KeyError
  end.

(** [int2cn], with its recursion bounded by [fuel]. *)
Fixpoint int2cn_fuel (fuel : nat) (n : Z) : outcome str :=
  match fuel with
  | O => OutOfFuel
  | S fuel' =>
      if (n =? 0)%Z then Ret (u8 "零")
      else if ((0 <? n) && (n <? 10))%Z then
        c <- int_to_cn n ;; Ret [c]
      else if ((10 <=? n) && (n <? 100))%Z then
        let tens := (n / 10)%Z in
        let units := (n mod 10)%Z in
        result <- (if (tens =? 1)%Z then Ret (u8 "十")
                   else c <- int_to_cn tens ;; Ret ([c] ++ u8 "十")) ;;
        if (units =? 0)%Z then Ret result
        else c <- int_to_cn units ;; Ret (result ++ [c])
      else if ((100 <=? n) && (n <? 1000))%Z then
        let hundreds := (n / 100)%Z in
        let remainder := (n mod 100)%Z in
        c <- int_to_cn hundreds ;;
        let result := [c] ++ u8 "百" in
        if (remainder =? 0)%Z then Ret result
        else
          let result := if (remainder <? 10)%Z then result ++ u8 "零" else result in
          r <- int2cn_fuel fuel' remainder ;;
          Ret (result ++ r)
      else builtin_str n
  end.

(** The recursion of [int2cn] is at most two calls deep. *)
Definition int2cn (n : Z) : outcome str := int2cn_fuel 2 n.

Section Numerals.
Context {UT : UnicodeTables}.

(** The digits of a string read as a decimal number, from the value [acc]
    of the digits read so far: a digit without a decimal value is an invalid
    literal. *)
Fixpoint int_digits (s : str) (acc : Z) : outcome Z :=
  match s with
  | [] => Ret acc
  | c :: s' =>
      match decimal c with
      | Some d => int_digits s' (10 * acc + d)%Z
      | None => Raise ValueError
      end
  end.

(** [int(s)] on a string for which [s.isdigit()] holds: [ValueError] for a
    string of more than 4300 digits and for an invalid literal; integers
    themselves are unbounded. *)
Definition builtin_int (s : str) : outcome Z :=
  if int_max_str_digits <? N.of_nat (List.length s) then Raise ValueError
  else int_digits s 0%Z.

Definition cn2int (s : str) : outcome (option Z) :=
  let s := strip s in
  match s with
  | [] => Ret None
  | _ =>
      if isdigit s then n <- builtin_int s ;; Ret (Some n)
      else Ret (cn2int_loop s 0%Z 0%Z)
  end.
End Numerals.

(** ** The sanitizer *)

(** The characters that are not allowed in a Windows file name; the double
    quote is code point 34. *)
Definition INVALID_CHARS_RE : re :=
  Cls (CSet (u8 "<>:" ++ [34] ++ u8 "/\|?*")).

(** [^[\s_\-—–]+|[\s_\-—–]+$] *)
Definition trim_ends_re : re :=
  ((Bol >> Rep Greedy 1 connector) |: (Rep Greedy 1 connector >> Eol))%re.

Section Sanitizer.
Context {UT : UnicodeTables}.

Definition sanitize_component (text : str) : str :=
  let text := re_sub INVALID_CHARS_RE (u8 "-") text in
  let text := re_sub (Rep Greedy 1 CSpace) (u8 " ") text in
  let text := re_sub trim_ends_re [] text in
  rstrip_with (fun c => mem c (u8 " .")) text.
End Sanitizer.

(** ** The pattern extractor *)

Definition numeral_glyphs : str :=
  u8 "零〇两一二三四五六七八九壹贰貳叁肆伍陆陸柒捌玖十拾百佰千仟".

(** The six lines of the pattern. *)
Definition PATTERN_prefix : re :=
  (Bol
   >> Opt (Rep Lazy 0 CAny
           >> (Rep Greedy 2 (CSet (u8 "-—")) |: lit (u8 "—") |: lit (u8 "---"))
           >> Rep Greedy 0 CSpace))%re.

Definition PATTERN_model : re := Grp "model" (Rep Lazy 1 CAny).

Definition PATTERN_marker : re :=
  (Rep Greedy 0 CSpace >> lit (u8 "第") >> Rep Greedy 0 CSpace)%re.

Definition PATTERN_num : re :=
  Grp "num" (Grp "2" (Rep Greedy 1 CDigit |: Rep Greedy 1 (CSet numeral_glyphs))).

Definition PATTERN_point : re :=
  (Rep Greedy 0 CSpace >> Opt (lit (u8 "个")) >> Rep Greedy 0 CSpace
   >> lit (u8 "点") >> Opt (lit (u8 "位")))%re.

Definition PATTERN_rest : re :=
  (Opt (Rep Greedy 0 CSpace >> Rep Greedy 0 CAny) >> Eol)%re.

Definition PATTERN : re :=
  (PATTERN_prefix >> PATTERN_model >> PATTERN_marker >> PATTERN_num
   >> PATTERN_point >> PATTERN_rest)%re.

(** ** The name builder *)

Section Builder.
Context {UT : UnicodeTables}.

(** [m.group(g)] followed by a method call: an unset group is [None]. *)
Definition m_group (m : mstate) (g : string) : outcome str :=
  match group g (groups m) with
  | Some v => Ret v
  | None => Raise AttributeError
  end.

Definition build_new_name (G : index) (basename : str) : outcome (option str) :=
  match re_search PATTERN basename with
  | None => Ret None
  | Some m =>
      mg <- m_group m "model" ;;
      let model := sanitize_component (strip mg) in
      match model with
      | [] => Ret None
      | _ =>
          ng <- m_group m "num" ;;
          let num_raw := strip ng in
          n <- cn2int num_raw ;;
          match n with
          | None => Ret None
          | Some n =>
              num_cn <- int2cn n ;;
              let (group_id, _alias) := find_group_for_model G model in
              let found :=
                match group_id with
                | Some ((_ :: _) as g) => Some g
                | _ => None
                end in
              let prefix :=
                match found with Some g => g ++ u8 "_" | None => [] end in
              let final_model :=
                match found with
                | Some g =>
                    match dict_get g (GROUP_TO_CANONICAL_MODEL G) with
                    | Some ((_ :: _) as canonical) =>
                        match sanitize_component canonical with
                        | (_ :: _) as cleaned => cleaned
                        | [] => model
                        end
                    | _ => model
                    end
                | None => model
                end in
              Ret (Some (prefix ++ final_model ++ u8 "_第" ++ num_cn ++ u8 "个点"))
          end
      end
  end.
End Builder.

(** ** Paths and the file system

    A path is the list of its parent's components and its final component;
    the file system is the list of its entries, in the order in which a
    directory listing yields them. *)
Record path := Path {
  parent : list str;
  name : str
}.

Definition path_eqb (p q : path) : bool :=
  (if list_eq_dec (list_eq_dec N.eq_dec) (parent p) (parent q) then true else false)
  && str_eqb (name p) (name q).

(** The index of the last dot of a name, as [str.rfind] gives it. *)
Fixpoint rfind_dot (s : str) (i : nat) (last : option nat) : option nat :=
  match s with
  | [] => last
  | c :: t => rfind_dot t (S i) (if c =? 46 then Some i else last)
  end.

(** The dot that splits a name into stem and suffix: the last one, unless it
    is the first or the last character. *)
Definition split_at (nm : str) : option nat :=
  match rfind_dot nm 0%nat None with
  | Some i => if ((0 <? i) && (i <? List.length nm - 1))%nat then Some i else None
  | None => None
  end.

Definition suffix (p : path) : str :=
  match split_at (name p) with
  | Some i => skipn i (name p)
  | None => []
  end.

Definition stem (p : path) : str :=
  match split_at (name p) with
  | Some i => firstn i (name p)
  | None => name p
  end.

(** [p.with_name(nm)]: a path without a name cannot be renamed, and a name
    that is empty, that is a single dot or that holds a separator is
    refused. *)
Definition valid_name (nm : str) : bool :=
  match nm with
  | [] => false
  | _ => negb (mem 47 nm) && negb (str_eqb nm [46])
  end.

Definition with_name (p : path) (nm : str) : outcome path :=
  match name p with
  | [] => Raise ValueError
  | _ => if valid_name nm then Ret (Path (parent p) nm) else Raise ValueError
  end.

(** What an entry of a directory is to the program: a regular file or a
    link to one, for which [exists()] and [is_file()] hold; a dangling
    symbolic link, which a listing yields although [exists()] and
    [is_file()], which follow links, do not hold; or anything else that
    exists, such as a directory. *)
Inductive kind := RegularFile | DanglingLink | OtherEntry.

Record fsentry := FsEntry {
  e_path : path;
  e_kind : kind
}.

Definition e_exists (e : fsentry) : bool :=
  match e_kind e with DanglingLink => false | _ => true end.

Definition e_is_file (e : fsentry) : bool :=
  match e_kind e with RegularFile => true | _ => false end.

Definition filesystem := list fsentry.

(** [p.exists()] *)
Definition fs_exists (fs : filesystem) (p : path) : bool :=
  existsb (fun e => path_eqb (e_path e) p && e_exists e) fs.

(** [p.is_file()] *)
Definition fs_is_file (fs : filesystem) (p : path) : bool :=
  existsb (fun e => path_eqb (e_path e) p && e_is_file e) fs.

Fixpoint is_prefix (a b : list str) : bool :=
  match a, b with
  | [], _ => true
  | x :: a', y :: b' => str_eqb x y && is_prefix a' b'
  | _ :: _, [] => false
  end.

(** [root.iterdir()] and [root.rglob('*')], where [root] is the list of the
    directory's components. *)
Definition iterdir (fs : filesystem) (root : list str) : list path :=
  map e_path
    (filter (fun e =>
       if list_eq_dec (list_eq_dec N.eq_dec) (parent (e_path e)) root
       then true else false) fs).

Definition rglob (fs : filesystem) (root : list str) : list path :=
  map e_path (filter (fun e => is_prefix root (parent (e_path e))) fs).

(** The candidate that [ensure_unique] tries for counter [i]. *)
Definition candidate (target : path) (i : Z) : outcome path :=
  t <- builtin_str i ;;
  with_name target (stem target ++ u8 " (" ++ t ++ u8 ")" ++ suffix target).

(** The [while True] loop of [ensure_unique], bounded by [fuel]. *)
Fixpoint ensure_unique_loop (fuel : nat) (fs : filesystem) (target : path)
  (i : Z) : outcome path :=
  match fuel with
  | O => OutOfFuel
  | S fuel' =>
      cand <- candidate target i ;;
      if negb (fs_exists fs cand) then Ret cand
      else ensure_unique_loop fuel' fs target (i + 1)%Z
  end.

(** One more candidate than the file system has entries is always enough. *)
Definition ensure_unique (fs : filesystem) (target : path) : outcome path :=
  if negb (fs_exists fs target) then Ret target
  else ensure_unique_loop (S (List.length fs)) fs target 2%Z.

Section Planner.
Context {UT : UnicodeTables}.

(** The loop of [plan_changes] over the listing. *)
Fixpoint plan_loop (fs : filesystem) (files : list path)
  (plans : list (path * path)) : outcome (list (path * path)) :=
  match files with
  | [] => Ret plans
  | p :: files' =>
      if negb (fs_is_file fs p) then plan_loop fs files' plans
      else
        new_base <- build_new_name loaded (stem p) ;;
        match new_base with
        | None | Some [] => plan_loop fs files' plans
        | Some new_base =>
            if str_eqb new_base (stem p) then plan_loop fs files' plans
            else
              target <- with_name p (new_base ++ suffix p) ;;
              new_path <- ensure_unique fs target ;;
              if str_eqb (casefold (name new_path)) (casefold (name p))
              then plan_loop fs files' plans
              else if negb (path_eqb new_path p)
                   then plan_loop fs files' (plans ++ [(p, new_path)])
                   else plan_loop fs files' plans
        end
  end.

Definition plan_changes (fs : filesystem) (root : list str) (recursive : bool)
  : outcome (list (path * path)) :=
  let files := if recursive then rglob fs root else iterdir fs root in
  plan_loop fs files [].
End Planner.

(** ** The specification's reading of the operations

    Definitions that follow the words of the specification, to compare with
    the ones above. *)

(** textToInt: a pending digit and a running total, left to right. *)
Definition is_DIGIT (c : char) : bool :=
  match char_get c NUM_MAP with Some _ => true | None => false end.

Definition is_UNIT (c : char) : bool :=
  match char_get c UNIT_MAP with Some _ => true | None => false end.

Definition digit_value (c : char) : Z :=
  match char_get c NUM_MAP with Some v => v | None => 0%Z end.

Definition unit_value (c : char) : Z :=
  match char_get c UNIT_MAP with Some v => v | None => 0%Z end.

(** One character: the state is (pending digit, running total). *)
Definition spec_step (st : Z * Z) (c : char) : Z * Z :=
  let (pending, total) := st in
  if is_DIGIT c then (digit_value c, total)
  else if is_UNIT c then
    (0, total + (if (pending =? 0)%Z then 1 else pending) * unit_value c)%Z
  else (pending, total).

Definition spec_eval (s : str) : Z :=
  let (pending, total) := fold_left spec_step s (0, 0)%Z in (total + pending)%Z.

(** A character that the conversion does not recognise. *)
Definition unrecognized (c : char) : bool :=
  negb (isspace c) && negb (is_DIGIT c) && negb (is_UNIT c).

(** sanitize, step by step. *)
Definition illegal (c : char) : bool := mem c (u8 "<>:" ++ [34] ++ u8 "/\|?*").

Definition is_connector (c : char) : bool := isspace c || mem c (u8 "_-—–").

Definition replace_illegal (text : str) : str :=
  map (fun c => if illegal c then ch "-" else c) text.

(** Every run of white space becomes one space; [in_run] tells that the
    previous character was white space. *)
Fixpoint collapse_spaces (in_run : bool) (text : str) : str :=
  match text with
  | [] => []
  | c :: t =>
      if isspace c then
        if in_run then collapse_spaces true t else ch " " :: collapse_spaces true t
      else c :: collapse_spaces false t
  end.

Definition strip_ends (text : str) : str :=
  rstrip_with is_connector (lstrip_with is_connector text).

Definition strip_trailing (text : str) : str :=
  rstrip_with (fun c => (c =? ch " ") || (c =? ch ".")) text.

Definition sanitize_spec (text : str) : str :=
  strip_trailing (strip_ends (collapse_spaces false (replace_illegal text))).

(** Normalisation: lowercase, then every white space and connector removed. *)
Definition normalize_spec {UT : UnicodeTables} (s : str) : str :=
  filter (fun c => negb (is_connector c)) (lower s).

(** resolveGroup: an exact match of the normalised key, else the longest
    normalised alias among the entries that contain the key or are contained
    in it, the first one of that length in the order of the table. *)
Definition contains_either (key alias_key : str) : bool :=
  str_in alias_key key || str_in key alias_key.

Definition matching_entries (key : str) (tbl : dict (str * str))
  : dict (str * str) :=
  filter (fun e => contains_either key (fst e)) tbl.

Definition longest (tbl : dict (str * str)) : nat :=
  fold_right (fun e m => Nat.max (List.length (fst e)) m) 0%nat tbl.

Definition first_longest (tbl : dict (str * str)) : option (str * (str * str)) :=
  find (fun e => (List.length (fst e) =? longest tbl)%nat) tbl.

(** The candidate that the scan of a table leaves, from no candidate. *)
Definition scanned (tbl : dict (str * str)) : option (str * str * nat) :=
  match first_longest tbl with
  | Some (k, (g, a)) => Some (g, a, List.length k)
  | None => None
  end.

Definition resolve_spec {UT : UnicodeTables} (G : index) (model_text : str)
  : option str * option str :=
  let key := normalize_spec model_text in
  match dict_get key (NORMALIZED_MODEL_TO_GROUP G) with
  | Some (g, a) => (Some g, Some a)
  | None =>
      match first_longest (matching_entries key (NORMALIZED_MODEL_TO_GROUP G)) with
      | Some (_, (g, a)) => (Some g, Some a)
      | None => (None, None)
      end
  end.

(** The canonical model table: the sanitised first alias of a group. *)
Definition canonical_model {UT : UnicodeTables} (G : index) (g : str) : str :=
  match dict_get g (GROUP_TO_CANONICAL_MODEL G) with
  | Some c => sanitize_component c
  | None => []
  end.

(** A group identifier that is not empty, holds no path separator, and
    whose canonical model is not empty, before and after it is sanitised. *)
Definition group_ok {UT : UnicodeTables} (G : index) (g : str) : bool :=
  match g, dict_get g (GROUP_TO_CANONICAL_MODEL G) with
  | _ :: _, Some ((_ :: _) as c) =>
      match sanitize_component c with
      | [] => false
      | _ :: _ => negb (mem 47 g)
      end
  | _, _ => false
  end.

(** intToNumeral, by ranges; [glyph d] is the lowercase glyph of digit [d]. *)
Definition glyph (d : Z) : str :=
  match int_get d INT_TO_CN with Some c => [c] | None => [] end.

Definition tens_text (n : Z) : str :=
  ((if (n / 10 =? 1)%Z then [] else glyph (n / 10)) ++ u8 "十"
   ++ (if (n mod 10 =? 0)%Z then [] else glyph (n mod 10)))%Z.

Definition numeral_spec (n : Z) : str :=
  if (n =? 0)%Z then u8 "零"
  else if ((1 <=? n) && (n <=? 9))%Z then glyph n
  else if ((10 <=? n) && (n <=? 99))%Z then tens_text n
  else if ((100 <=? n) && (n <=? 999))%Z then
    let r := (n mod 100)%Z in
    glyph (n / 100) ++ u8 "百"
    ++ (if (r =? 0)%Z then []
        else if (r <=? 9)%Z then u8 "零" ++ glyph r
        else tens_text r)
  else str_of_int n.

(** The round trip through both conversions, as a test on one integer. *)
Definition round_trips {UT : UnicodeTables} (n : Z) : bool :=
  match int2cn n with
  | Ret t =>
      match cn2int t with
      | Ret (Some m) => (m =? n)%Z
      | _ => false
      end
  | _ => false
  end.

(** An interpreter whose tables add nothing to the fragment written out
    above: the smallest database, used to run the program on examples. *)
Definition fragment_only : UnicodeTables :=
  {| tbl_lower := fun s => s;
     tbl_casefold := fun s => s;
     tbl_decimal := fun _ => None;
     tbl_digit := fun _ => false |}.

(** A database in which the superscript two (code point 178) is a digit
    without a decimal value, as it is in the interpreter. *)
Definition with_superscript_two : UnicodeTables :=
  {| tbl_lower := fun s => s;
     tbl_casefold := fun s => s;
     tbl_decimal := fun _ => None;
     tbl_digit := fun c => c =? 178 |}.

(** A directory with two photographs of the same point of the same phone,
    one numbered in digits and one in numerals. *)
Definition photo (nm : string) : path := Path [u8 "photos"] (u8 nm).

Definition two_photos : filesystem :=
  [ FsEntry (photo "小米15第1个点.jpg") RegularFile;
    FsEntry (photo "小米15第一个点.jpg") RegularFile ].

(** The plan for that directory: one destination for both. *)
Definition two_photos_plan : list (path * path) :=
  [ (photo "小米15第1个点.jpg", photo "1-1_小米15_第一个点.jpg");
    (photo "小米15第一个点.jpg", photo "1-1_小米15_第一个点.jpg") ].

(** A directory in which the name that a photograph is to get is the name
    of a dangling symbolic link. *)
Definition linked_photos : filesystem :=
  [ FsEntry (photo "小米15第1个点.jpg") RegularFile;
    FsEntry (photo "1-1_小米15_第一个点.jpg") DanglingLink ].


(** An entry of the normalised map that a table accounts for: its key is the
    normalisation of its alias, and the alias is the stripped, non-empty form
    of an alias that the table lists for its group. *)
Definition entry_of_table {UT : UnicodeTables} (table : list (str * list str))
  (e : str * (str * str)) : Prop :=
  fst e = normalize_model_key (snd (snd e))
  /\ snd (snd e) <> []
  /\ exists aliases alias,
       In (fst (snd e), aliases) table /\ In alias aliases
       /\ snd (snd e) = strip alias.

(** [iter_files]: the regular files of a listing. *)
Definition iter_files (fs : filesystem) (root : list str) (recursive : bool)
  : list path :=
  filter (fs_is_file fs) (if recursive then rglob fs root else iterdir fs root).

(** * Properties *)

(** ** Text *)

Lemma str_eqb_eq (a b : str) : str_eqb a b = true <-> a = b.
Proof.
  unfold str_eqb; destruct (list_eq_dec N.eq_dec a b); split; congruence.
Qed.

Lemma str_eqb_refl (a : str) : str_eqb a a = true.
Proof. now apply str_eqb_eq. Qed.

Lemma lstrip_length (p : char -> bool) (s : str) :
  (List.length (lstrip_with p s) <= List.length s)%nat.
Proof.
  induction s as [|c t IH]; simpl; [lia|].
  destruct (p c); simpl; lia.
Qed.

Lemma lstrip_all (p : char -> bool) (s : str) :
  lstrip_with p s = [] <-> forallb p s = true.
Proof.
  induction s as [|c t IH]; simpl; [tauto|].
  destruct (p c); simpl; [exact IH|]. split; discriminate.
Qed.

Lemma lstrip_head (p : char -> bool) (s : str) c t :
  lstrip_with p s = c :: t -> p c = false.
Proof.
  induction s as [|d s IH]; simpl; [discriminate|].
  destruct (p d) eqn:E; [exact IH|]. intros [= <- _]. exact E.
Qed.

Lemma lstrip_idem (p : char -> bool) (s : str) :
  lstrip_with p (lstrip_with p s) = lstrip_with p s.
Proof.
  destruct (lstrip_with p s) as [|c t] eqn:E; [reflexivity|].
  simpl. now rewrite (lstrip_head _ _ _ _ E).
Qed.

Lemma lstrip_app_last (p : char -> bool) (l : str) (c : char) :
  lstrip_with p (l ++ [c]) =
  match lstrip_with p l with
  | [] => if p c then [] else [c]
  | r => r ++ [c]
  end.
Proof.
  induction l as [|d l IH]; simpl; [reflexivity|].
  destruct (p d); [exact IH | reflexivity].
Qed.

(** Stripping on the right, one character at a time from the left. *)
Lemma rstrip_cons (p : char -> bool) (c : char) (t : str) :
  rstrip_with p (c :: t) =
  match rstrip_with p t with
  | [] => if p c then [] else [c]
  | r => c :: r
  end.
Proof.
  unfold rstrip_with. simpl. rewrite lstrip_app_last.
  destruct (lstrip_with p (rev t)) as [|d r].
  - now destruct (p c).
  - rewrite rev_unit. destruct (rev (d :: r)) eqn:E; [|reflexivity].
    apply (f_equal (@List.length _)) in E. rewrite length_rev in E. discriminate.
Qed.

Lemma rstrip_all (p : char -> bool) (s : str) :
  rstrip_with p s = [] <-> forallb p s = true.
Proof.
  unfold rstrip_with. split; intros H.
  - assert (E : lstrip_with p (rev s) = []).
    { destruct (lstrip_with p (rev s)); [reflexivity|].
      apply (f_equal (@List.length _)) in H. rewrite length_rev in H.
      discriminate. }
    apply lstrip_all in E. rewrite forallb_forall in E |- *.
    intros x Hx. apply E. now apply in_rev in Hx.
  - assert (E : lstrip_with p (rev s) = []).
    { apply lstrip_all. rewrite forallb_forall in H |- *.
      intros x Hx. apply H. now apply in_rev. }
    now rewrite E.
Qed.

Lemma rstrip_ext (p q : char -> bool) (s : str) :
  (forall c, p c = q c) -> rstrip_with p s = rstrip_with q s.
Proof.
  intros E. unfold rstrip_with. f_equal.
  induction (rev s) as [|c t IH]; simpl; [reflexivity|].
  rewrite <- E. now destruct (p c).
Qed.

Lemma lstrip_In (p : char -> bool) (s : str) (c : char) :
  In c (lstrip_with p s) -> In c s.
Proof.
  induction s as [|d s IH]; simpl; [tauto|].
  destruct (p d); simpl; tauto.
Qed.




Lemma filter_lstrip_gen (p q : char -> bool) (s : str) :
  (forall c, p c = true -> q c = true) ->
  filter (fun c => negb (q c)) (lstrip_with p s) = filter (fun c => negb (q c)) s.
Proof.
  intros Hpq. induction s as [|c t IH]; [reflexivity|].
  cbn [lstrip_with]. destruct (p c) eqn:E; [|reflexivity].
  cbn [filter]. now rewrite (Hpq c E).
Qed.

Lemma filter_rstrip_gen (p q : char -> bool) (s : str) :
  (forall c, p c = true -> q c = true) ->
  filter (fun c => negb (q c)) (rstrip_with p s) = filter (fun c => negb (q c)) s.
Proof.
  intros Hpq. induction s as [|c t IH]; [reflexivity|].
  rewrite rstrip_cons. cbn [filter]. rewrite <- IH.
  destruct (rstrip_with p t) as [|d r]; [|reflexivity].
  destruct (p c) eqn:E; [|reflexivity].
  cbn [filter]. now rewrite (Hpq c E).
Qed.

Lemma filter_lstrip (p : char -> bool) (s : str) :
  filter (fun c => negb (p c)) (lstrip_with p s) = filter (fun c => negb (p c)) s.
Proof. now apply filter_lstrip_gen. Qed.

Lemma prefix_of_nil_l (b : str) : prefix_of [] b = true.
Proof. now destruct b. Qed.

(** The empty string occurs in every string. *)
Lemma str_in_nil_l (b : str) : str_in [] b = true.
Proof. destruct b; reflexivity. Qed.

(** ** The matcher on the patterns of the program *)

Section RegexFacts.
Context {UT : UnicodeTables}.

Lemma cls_mem_connector (c : char) : cls_mem connector c = is_connector c.
Proof. reflexivity. Qed.

(** A greedy run followed by nothing takes the whole run. *)
Lemma greedy_from_run (p : char -> bool) (t : str) (cur : mstate) :
  rest cur = t ->
  exists m, greedy_from p Some cur t = Some m /\ rest m = lstrip_with p t.
Proof.
  revert cur. induction t as [|c t IH]; intros cur Hc; simpl.
  - now exists cur.
  - destruct (p c).
    + destruct (IH (goto cur t) eq_refl) as (m & -> & Hm). now exists m.
    + now exists cur.
Qed.

(** A greedy run followed by [$] matches when the run reaches the end of the
    text, and only then. *)
Lemma greedy_from_eol (p : char -> bool) (t : str) (cur : mstate) :
  p 10 = true -> rest cur = t ->
  if forallb p t
  then exists m, greedy_from p (rmatch Eol Some) cur t = Some m /\ rest m = []
  else greedy_from p (rmatch Eol Some) cur t = None.
Proof.
  intros Hnl. revert cur.
  induction t as [|c t IH]; intros cur Hc; cbn [greedy_from forallb].
  - exists cur. cbn [rmatch]. now rewrite Hc.
  - destruct (p c) eqn:Hp; cbn [andb].
    + specialize (IH (goto cur t) eq_refl).
      destruct (forallb p t) eqn:Ht.
      * destruct IH as (m & -> & Hm). now exists m.
      * rewrite IH. cbn [rmatch]. rewrite Hc.
        destruct t as [|d t]; [discriminate|reflexivity].
    + cbn [rmatch]. rewrite Hc. destruct t as [|d t]; [|reflexivity].
      destruct (c =? 10) eqn:E; [|reflexivity].
      apply N.eqb_eq in E. congruence.
Qed.

(** [re.sub] of one character class by one character. *)
Lemma sub_loop_class (l : str) (x : char) (fuel : nat) (cur : mstate) :
  (List.length (rest cur) < fuel)%nat ->
  sub_loop fuel (Cls (CSet l)) [x] cur
  = map (fun c => if mem c l then x else c) (rest cur).
Proof.
  revert cur. induction fuel as [|fuel IH]; intros [b t g] H; [simpl in H; lia|].
  destruct t as [|c t]; [reflexivity|].
  simpl in H. cbn -[Nat.ltb]. destruct (mem c l).
  - cbn -[Nat.ltb]. replace (List.length t <? S (List.length t))%nat with true
      by (symmetry; apply Nat.ltb_lt; lia).
    cbn. f_equal. apply (IH (MState false t g)). simpl. lia.
  - f_equal. apply (IH (MState false t g)). simpl. lia.
Qed.

(** What [re.sub] does with the pattern [p+], for two replacements. *)
Lemma rmatch_plus (p : cls) (cur : mstate) :
  match rest cur with
  | c :: t =>
      if cls_mem p c
      then exists m, rmatch (Rep Greedy 1 p) Some cur = Some m
                     /\ rest m = lstrip_with (cls_mem p) t
      else rmatch (Rep Greedy 1 p) Some cur = None
  | [] => rmatch (Rep Greedy 1 p) Some cur = None
  end.
Proof.
  destruct cur as [b [|c t] g]; cbn; [reflexivity|].
  destruct (cls_mem p c); [|reflexivity].
  apply (greedy_from_run (cls_mem p) t (MState false t g) eq_refl).
Qed.

Lemma collapse_run (t : str) :
  collapse_spaces true t = collapse_spaces false (lstrip_with isspace t).
Proof.
  induction t as [|c t IH]; simpl; [reflexivity|].
  destruct (isspace c) eqn:E; [exact IH|]. simpl. now rewrite E.
Qed.

Lemma sub_loop_spaces (fuel : nat) (cur : mstate) :
  (List.length (rest cur) < fuel)%nat ->
  sub_loop fuel (Rep Greedy 1 CSpace) [ch " "] cur
  = collapse_spaces false (rest cur).
Proof.
  revert cur. induction fuel as [|fuel IH]; intros cur H; [lia|].
  pose proof (rmatch_plus CSpace cur) as R.
  cbn [sub_loop]. destruct cur as [b [|c t] g]; cbn [rest] in *.
  - now rewrite R.
  - simpl in H. change (cls_mem CSpace c) with (isspace c) in R.
    cbn [collapse_spaces]. destruct (isspace c).
    + destruct R as (m & -> & Hm). rewrite Hm.
      pose proof (lstrip_length (cls_mem CSpace) t) as L.
      replace (List.length (lstrip_with (cls_mem CSpace) t) <? List.length (c :: t))%nat
        with true by (symmetry; apply Nat.ltb_lt; simpl; exact (le_n_S _ _ L)).
      cbn [app]. f_equal. rewrite collapse_run. apply IH. cbn [goto rest]. lia.
    + rewrite R. f_equal. apply IH. simpl. lia.
Qed.

Lemma sub_loop_delete (p : cls) (fuel : nat) (cur : mstate) :
  (List.length (rest cur) < fuel)%nat ->
  sub_loop fuel (Rep Greedy 1 p) [] cur
  = filter (fun c => negb (cls_mem p c)) (rest cur).
Proof.
  revert cur. induction fuel as [|fuel IH]; intros cur H; [lia|].
  pose proof (rmatch_plus p cur) as R.
  cbn [sub_loop]. destruct cur as [b [|c t] g]; cbn [rest] in *.
  - now rewrite R.
  - simpl in H. cbn [filter]. destruct (cls_mem p c).
    + destruct R as (m & -> & Hm). rewrite Hm.
      pose proof (lstrip_length (cls_mem p) t) as L.
      replace (List.length (lstrip_with (cls_mem p) t) <? List.length (c :: t))%nat
        with true by (symmetry; apply Nat.ltb_lt; simpl; exact (le_n_S _ _ L)).
      cbn [app negb]. rewrite <- (filter_lstrip (cls_mem p) t). apply IH.
      simpl. lia.
    + rewrite R. cbn [negb]. f_equal. apply IH. simpl. lia.
Qed.

Lemma rmatch_trailing (cur : mstate) :
  match rest cur with
  | c :: t =>
      if is_connector c && forallb is_connector t
      then exists m, rmatch (Rep Greedy 1 connector >> Eol) Some cur = Some m
                     /\ rest m = []
      else rmatch (Rep Greedy 1 connector >> Eol) Some cur = None
  | [] => rmatch (Rep Greedy 1 connector >> Eol) Some cur = None
  end.
Proof.
  destruct cur as [b [|c t] g]; [reflexivity|].
  cbn [rest rmatch times]. change (cls_mem connector) with is_connector.
  destruct (is_connector c); [|reflexivity]. cbn [andb goto groups rest].
  apply (greedy_from_eol is_connector t (MState false t g) eq_refl eq_refl).
Qed.

Lemma rmatch_trim_ends (cur : mstate) :
  rmatch trim_ends_re Some cur =
  if at_start cur then
    match rmatch (Rep Greedy 1 connector) Some cur with
    | Some m => Some m
    | None => rmatch (Rep Greedy 1 connector >> Eol) Some cur
    end
  else rmatch (Rep Greedy 1 connector >> Eol) Some cur.
Proof.
  unfold trim_ends_re. cbn [rmatch]. now destruct (at_start cur).
Qed.

Lemma sub_loop_trailing (fuel : nat) (cur : mstate) :
  at_start cur = false ->
  (List.length (rest cur) < fuel)%nat ->
  sub_loop fuel trim_ends_re [] cur = rstrip_with is_connector (rest cur).
Proof.
  revert cur. induction fuel as [|fuel IH]; intros cur Hs H; [lia|].
  pose proof (rmatch_trailing cur) as R.
  cbn [sub_loop]. rewrite rmatch_trim_ends, Hs.
  destruct cur as [b [|c t] g]; cbn [rest] in *.
  - now rewrite R.
  - simpl in H. rewrite rstrip_cons.
    destruct (is_connector c) eqn:Hc; cbn [andb] in R.
    + destruct (forallb is_connector t) eqn:Ht.
      * destruct R as (m & -> & Hm). rewrite Hm. cbn [List.length Nat.ltb Nat.leb app].
        rewrite IH by (cbn; lia || reflexivity).
        apply rstrip_all in Ht. now rewrite Ht.
      * rewrite R. rewrite IH by (cbn; lia || reflexivity). cbn [goto rest].
        destruct (rstrip_with is_connector t) eqn:E; [|reflexivity].
        apply rstrip_all in E. congruence.
    + rewrite R. rewrite IH by (cbn; lia || reflexivity). cbn [goto rest].
      now destruct (rstrip_with is_connector t).
Qed.

Lemma re_sub_trim_ends (text : str) :
  re_sub trim_ends_re [] text = strip_ends text.
Proof.
  unfold re_sub, strip_ends. cbn [sub_loop].
  pose proof (rmatch_plus connector (start text)) as R.
  pose proof (rmatch_trailing (start text)) as T.
  rewrite rmatch_trim_ends. cbn [at_start start].
  destruct text as [|c t]; cbn [rest start] in *.
  - now rewrite R, T.
  - rewrite cls_mem_connector in R. cbn [lstrip_with].
    destruct (is_connector c) eqn:Hc.
    + destruct R as (m & -> & Hm). rewrite Hm.
      pose proof (lstrip_length (cls_mem connector) t) as L.
      replace (List.length (lstrip_with (cls_mem connector) t) <? List.length (c :: t))%nat
        with true by (symmetry; apply Nat.ltb_lt; simpl; exact (le_n_S _ _ L)).
      cbn [app]. apply sub_loop_trailing; [reflexivity|].
      cbn [goto rest List.length]. lia.
    + rewrite R. cbn [andb] in T. rewrite T.
      rewrite sub_loop_trailing by (cbn; lia || reflexivity).
      cbn [goto rest]. rewrite rstrip_cons, Hc.
      now destruct (rstrip_with is_connector t).
Qed.

Lemma re_sub_invalid (text : str) :
  re_sub INVALID_CHARS_RE [ch "-"] text = replace_illegal text.
Proof. unfold re_sub. apply sub_loop_class. simpl. lia. Qed.

Lemma re_sub_spaces (text : str) :
  re_sub (Rep Greedy 1 CSpace) [ch " "] text = collapse_spaces false text.
Proof. unfold re_sub. apply sub_loop_spaces. simpl. lia. Qed.

Lemma re_sub_connectors (text : str) :
  re_sub (Rep Greedy 1 connector) [] text
  = filter (fun c => negb (is_connector c)) text.
Proof. unfold re_sub. apply sub_loop_delete. simpl. lia. Qed.

(** The sanitizer is the four steps of its description. *)
Lemma sanitize_steps (text : str) : sanitize_component text = sanitize_spec text.
Proof.
  unfold sanitize_component, sanitize_spec.
  change (u8 "-") with [ch "-"]. change (u8 " ") with [ch " "].
  rewrite re_sub_invalid, re_sub_spaces, re_sub_trim_ends.
  unfold strip_trailing. apply rstrip_ext. intros c. cbn. now rewrite orb_false_r.
Qed.

(** Normalisation removes every white space and connector of the lowercase
    text; the [strip] before the substitution changes nothing. *)
Lemma normalize_is_filter (s : str) : normalize_model_key s = normalize_spec s.
Proof.
  unfold normalize_model_key, normalize_spec, strip.
  rewrite re_sub_connectors.
  assert (Hq : forall c, isspace c = true -> is_connector c = true).
  { intros c E. unfold is_connector. now rewrite E. }
  rewrite (filter_rstrip_gen isspace is_connector _ Hq).
  apply (filter_lstrip_gen isspace is_connector _ Hq).
Qed.
End RegexFacts.

(** ** The matcher is sound for [matched] *)

Section MatcherSoundness.
Context {UT : UnicodeTables}.

Lemma times_sound (p : char -> bool) (n : nat) (k : mstate -> option mstate)
  (cur m : mstate) (t : str) :
  rest cur = t ->
  times p n k cur t = Some m ->
  exists cur' w,
    k cur' = Some m /\ List.length w = n /\ forallb p w = true
    /\ t = w ++ rest cur' /\ groups cur' = groups cur.
Proof.
  revert cur t. induction n as [|n IH]; intros cur t Hc H; cbn [times] in H.
  - exists cur, []. now rewrite Hc.
  - destruct t as [|c t]; [discriminate|].
    destruct (p c) eqn:Hp; [|discriminate].
    destruct (IH (goto cur t) t eq_refl H) as (cur' & w & Hk & Hl & Hw & Ht & Hg).
    exists cur', (c :: w). cbn [List.length forallb app].
    rewrite Hp, Hw, <- Ht, Hl. now repeat split.
Qed.

Lemma greedy_sound (p : char -> bool) (k : mstate -> option mstate)
  (cur m : mstate) (t : str) :
  rest cur = t ->
  greedy_from p k cur t = Some m ->
  exists cur' w,
    k cur' = Some m /\ forallb p w = true
    /\ t = w ++ rest cur' /\ groups cur' = groups cur.
Proof.
  revert cur. induction t as [|c t IH]; intros cur Hc H; cbn [greedy_from] in H.
  - exists cur, []. now rewrite Hc.
  - destruct (p c) eqn:Hp.
    + destruct (greedy_from p k (goto cur t) t) as [m'|] eqn:E.
      * injection H as ->.
        destruct (IH (goto cur t) eq_refl E) as (cur' & w & Hk & Hw & Ht & Hg).
        exists cur', (c :: w). cbn [forallb app]. rewrite Hp, Hw, <- Ht.
        now repeat split.
      * exists cur, []. now rewrite Hc.
    + exists cur, []. now rewrite Hc.
Qed.

Lemma lazy_sound (p : char -> bool) (k : mstate -> option mstate)
  (cur m : mstate) (t : str) :
  rest cur = t ->
  lazy_from p k cur t = Some m ->
  exists cur' w,
    k cur' = Some m /\ forallb p w = true
    /\ t = w ++ rest cur' /\ groups cur' = groups cur.
Proof.
  revert cur. induction t as [|c t IH]; intros cur Hc H; cbn [lazy_from] in H.
  - destruct (k cur) eqn:E; [|discriminate]. injection H as ->.
    exists cur, []. rewrite Hc. now repeat split.
  - destruct (k cur) eqn:E.
    + injection H as ->. exists cur, []. rewrite Hc. now repeat split.
    + destruct (p c) eqn:Hp; [|discriminate].
      destruct (IH (goto cur t) eq_refl H) as (cur' & w & Hk & Hw & Ht & Hg).
      exists cur', (c :: w). cbn [forallb app]. rewrite Hp, Hw, <- Ht.
      now repeat split.
Qed.

(** Whatever the matcher finds is a match, and the continuation accepted the
    state after it. *)
Lemma rmatch_sound (r : re) (k : mstate -> option mstate) (st m : mstate) :
  rmatch r k st = Some m ->
  exists st', matched r st st' /\ k st' = Some m.
Proof.
  revert k st. induction r as [|p|a IHa b IHb|a IHa b IHb|a IHa|q n p|g a IHa| |];
    intros k st H; cbn [rmatch] in H; cbn [matched].
  - now exists st.
  - destruct (rest st) as [|c t] eqn:E; [discriminate|].
    destruct (cls_mem p c) eqn:Hp; [|discriminate].
    exists (goto st t). split; [|exact H]. exists c. now repeat split.
  - destruct (IHa _ _ H) as (mid & Ha & Hb).
    destruct (IHb _ _ Hb) as (st' & Hb' & Hk).
    exists st'. split; [now exists mid | exact Hk].
  - destruct (rmatch a k st) as [m'|] eqn:E.
    + injection H as ->. destruct (IHa _ _ E) as (st' & Ha & Hk).
      exists st'. now split; [left|].
    + destruct (IHb _ _ H) as (st' & Hb & Hk). exists st'. now split; [right|].
  - destruct (rmatch a k st) as [m'|] eqn:E.
    + injection H as ->. destruct (IHa _ _ E) as (st' & Ha & Hk).
      exists st'. now split; [left|].
    + exists st. now split; [right|].
  - apply (times_sound _ _ _ st m (rest st) eq_refl) in H.
    destruct H as (cur1 & w1 & H & Hl1 & Hw1 & Ht1 & Hg1).
    assert (exists cur' w, k cur' = Some m /\ forallb (cls_mem p) w = true
                           /\ rest cur1 = w ++ rest cur'
                           /\ groups cur' = groups cur1) as
        (cur2 & w2 & Hk & Hw2 & Ht2 & Hg2).
    { destruct q; [now apply greedy_sound in H | now apply lazy_sound in H]. }
    exists cur2. split; [|exact Hk]. exists (w1 ++ w2).
    rewrite length_app, forallb_app, Hw1, Hw2, Ht1, Ht2, <- app_assoc.
    repeat split; [lia | congruence].
  - destruct (IHa _ _ H) as (mid & Ha & Hk).
    exists (capture g st mid). split; [now exists mid | exact Hk].
  - destruct (at_start st); [|discriminate]. now exists st.
  - exists st. split; [reflexivity|].
    destruct (rest st) as [|c [|d t]]; [exact H | | discriminate].
    now destruct (c =? 10).
Qed.

Lemma search_from_sound (r : re) (cur m : mstate) (t : str) :
  search_from r cur t = Some m -> exists st, matched r st m.
Proof.
  revert cur. induction t as [|c t IH]; intros cur H; cbn [search_from] in H.
  - destruct (rmatch r Some cur) as [m'|] eqn:E; [|discriminate].
    injection H as ->. apply rmatch_sound in E.
    destruct E as (st' & Hm & [= ->]). now exists cur.
  - destruct (rmatch r Some cur) as [m'|] eqn:E.
    + injection H as ->. apply rmatch_sound in E.
      destruct E as (st' & Hm & [= ->]). now exists cur.
    + now apply IH in H.
Qed.

Lemma matched_lit (s : str) (st st' : mstate) :
  matched (lit s) st st' -> rest st = s ++ rest st' /\ groups st' = groups st.
Proof.
  revert st. induction s as [|c s IH]; intros st; unfold lit;
    cbn [fold_right matched].
  - intros ->. now split.
  - fold (lit s). intros (mid & (x & Hr & Hx & Hg) & H).
    apply IH in H. destruct H as [H1 H2].
    cbn [cls_mem mem existsb] in Hx. rewrite orb_false_r in Hx.
    apply N.eqb_eq in Hx. subst x.
    rewrite Hr, H1. split; [reflexivity | congruence].
Qed.

(** A match takes a prefix off the text that remains. *)
Lemma matched_consumed (r : re) (st st' : mstate) :
  matched r st st' -> exists w, rest st = w ++ rest st'.
Proof.
  revert st st'.
  induction r as [|p|a IHa b IHb|a IHa b IHb|a IHa|q n p|g a IHa| |];
    intros st st' H; cbn [matched] in H.
  - subst. now exists [].
  - destruct H as (c & Hr & _). exists [c]. exact Hr.
  - destruct H as (mid & Ha & Hb).
    apply IHa in Ha. apply IHb in Hb.
    destruct Ha as (u & Hu). destruct Hb as (v & Hv).
    exists (u ++ v). now rewrite Hu, Hv, app_assoc.
  - destruct H as [H|H]; [now apply IHa | now apply IHb].
  - destruct H as [H| ->]; [now apply IHa | now exists []].
  - destruct H as (w & _ & _ & Hr & _). now exists w.
  - destruct H as (mid & Ha & ->). apply IHa in Ha. exact Ha.
  - subst. now exists [].
  - subst. now exists [].
Qed.

Lemma search_from_prefix (r : re) (cur m : mstate) (t : str) :
  rest cur = t -> search_from r cur t = Some m ->
  exists st d, matched r st m /\ t = d ++ rest st.
Proof.
  revert cur. induction t as [|c t IH]; intros cur Hc H; cbn [search_from] in H.
  - destruct (rmatch r Some cur) as [m'|] eqn:E; [|discriminate].
    injection H as ->. apply rmatch_sound in E.
    destruct E as (st' & Hm & [= ->]). exists cur, []. now rewrite Hc.
  - destruct (rmatch r Some cur) as [m'|] eqn:E.
    + injection H as ->. apply rmatch_sound in E.
      destruct E as (st' & Hm & [= ->]). exists cur, []. now rewrite Hc.
    + apply (IH (goto cur t) eq_refl) in H. destruct H as (st & d & Hm & Hd).
      exists st, (c :: d). split; [exact Hm|]. cbn [app]. now rewrite <- Hd.
Qed.

(** A pattern without groups leaves the groups as they are. *)
Lemma matched_no_groups (r : re) (st st' : mstate) :
  no_groups r = true -> matched r st st' -> groups st' = groups st.
Proof.
  revert st st'. induction r as [|p|a IHa b IHb|a IHa b IHb|a IHa|q n p|g a IHa| |];
    intros st st' N H; cbn [matched no_groups] in *; try discriminate.
  - now subst.
  - now destruct H as (c & _ & _ & Hg).
  - apply andb_prop in N. destruct N as [Na Nb].
    destruct H as (mid & Ha & Hb).
    rewrite (IHb _ _ Nb Hb). now apply IHa.
  - apply andb_prop in N. destruct N as [Na Nb].
    destruct H as [H|H]; [now apply IHa | now apply IHb].
  - destruct H as [H| ->]; [now apply IHa | reflexivity].
  - now destruct H as (w & _ & _ & _ & Hg).
  - now subst.
  - now subst.
Qed.

Lemma taken_app (st st' : mstate) (w : str) :
  rest st = w ++ rest st' -> taken st st' = w.
Proof.
  intros H. unfold taken. rewrite H, length_app.
  replace (List.length w + List.length (rest st') - List.length (rest st'))%nat
    with (List.length w + 0)%nat by lia.
  rewrite firstn_app_2. cbn. apply app_nil_r.
Qed.

Lemma group_set_same (g : string) (v : str) (gs : list (string * str)) :
  group g (set_group g v gs) = Some v.
Proof.
  induction gs as [|[g' v'] gs IH]; cbn [set_group group].
  - now rewrite String.eqb_refl.
  - destruct (String.eqb g g') eqn:E; cbn [group].
    + now rewrite String.eqb_refl.
    + now rewrite E.
Qed.

Lemma group_set_other (g g' : string) (v : str) (gs : list (string * str)) :
  String.eqb g g' = false -> group g (set_group g' v gs) = group g gs.
Proof.
  intros N. induction gs as [|[h v'] gs IH]; cbn [set_group group].
  - now rewrite N.
  - destruct (String.eqb g' h) eqn:E; cbn [group].
    + apply String.eqb_eq in E. subst h. now rewrite N.
    + destruct (String.eqb g h); [reflexivity | exact IH].
Qed.
End MatcherSoundness.

(** ** The numeral converter *)

Lemma int_to_cn_digit (d : Z) :
  (0 <= d <= 9)%Z -> exists c, int_to_cn d = Ret c /\ glyph d = [c].
Proof.
  intros H.
  assert (E : (d = 0 \/ d = 1 \/ d = 2 \/ d = 3 \/ d = 4 \/ d = 5 \/ d = 6
               \/ d = 7 \/ d = 8 \/ d = 9)%Z) by lia.
  repeat (destruct E as [-> | E]; [eexists; split; reflexivity|]).
  subst d. eexists; split; reflexivity.
Qed.

Lemma int2cn_fuel_small (fuel : nat) (n : Z) :
  (0 <= n < 100)%Z -> int2cn_fuel (S fuel) n = Ret (numeral_spec n).
Proof.
  intros H. unfold numeral_spec. cbn [int2cn_fuel].
  destruct (Z.eqb_spec n 0) as [|N0]; [reflexivity|].
  destruct (Z.ltb_spec n 10) as [L|L].
  - replace (0 <? n)%Z with true by (symmetry; apply Z.ltb_lt; lia).
    replace (1 <=? n)%Z with true by (symmetry; apply Z.leb_le; lia).
    replace (n <=? 9)%Z with true by (symmetry; apply Z.leb_le; lia).
    cbn [andb]. destruct (int_to_cn_digit n) as (c & -> & ->); [lia|reflexivity].
  - replace (n <=? 9)%Z with false by (symmetry; apply Z.leb_gt; lia).
    replace (10 <=? n)%Z with true by (symmetry; apply Z.leb_le; lia).
    replace (n <? 100)%Z with true by (symmetry; apply Z.ltb_lt; lia).
    replace (n <=? 99)%Z with true by (symmetry; apply Z.leb_le; lia).
    rewrite !andb_false_r. cbn [andb]. unfold tens_text.
    assert (T : (1 <= n / 10 < 10)%Z).
    { split; [apply Z.div_le_lower_bound | apply Z.div_lt_upper_bound]; lia. }
    pose proof (Z.mod_pos_bound n 10 eq_refl) as U.
    destruct (int_to_cn_digit (n / 10)) as (c & Ec & ->); [lia|].
    destruct (int_to_cn_digit (n mod 10)) as (d & Ed & ->); [lia|].
    rewrite Ec, Ed.
    destruct (n / 10 =? 1)%Z; destruct (n mod 10 =? 0)%Z; cbn [bind];
      now rewrite <- ?app_assoc.
Qed.

(** The limit of the conversions is far above the integers that are
    rendered in glyphs. *)
Lemma int_str_limit_large : (100000000 <= int_str_limit)%Z.
Proof.
  unfold int_str_limit. change 100000000%Z with (10 ^ 8)%Z.
  apply Z.pow_le_mono_r; [reflexivity | discriminate].
Qed.

Lemma builtin_str_within (n : Z) :
  (Z.abs n < int_str_limit)%Z -> builtin_str n = Ret (str_of_int n).
Proof.
  intros H. unfold builtin_str.
  replace (Z.abs n <? int_str_limit)%Z with true; [reflexivity|].
  symmetry. now apply Z.ltb_lt.
Qed.

Lemma builtin_str_beyond (n : Z) :
  (int_str_limit <= Z.abs n)%Z -> builtin_str n = Raise ValueError.
Proof.
  intros H. unfold builtin_str.
  replace (Z.abs n <? int_str_limit)%Z with false; [reflexivity|].
  symmetry. now apply Z.ltb_ge.
Qed.

Lemma builtin_str_ret (n : Z) (t : str) :
  builtin_str n = Ret t -> t = str_of_int n /\ (Z.abs n < int_str_limit)%Z.
Proof.
  unfold builtin_str. destruct (Z.ltb_spec (Z.abs n) int_str_limit) as [L|L];
    [|discriminate].
  intros H. split; [congruence | exact L].
Qed.

(** Two levels of recursion are enough for every integer, and more fuel
    changes nothing: from 0 to 999 the glyphs, otherwise what [str] gives. *)
Lemma int2cn_fuel_spec (fuel : nat) (n : Z) :
  int2cn_fuel (S (S fuel)) n =
  if ((0 <=? n) && (n <? 1000))%Z then Ret (numeral_spec n) else builtin_str n.
Proof.
  destruct (Z.ltb_spec n 0) as [Neg|Pos].
  - replace (0 <=? n)%Z with false by (symmetry; apply Z.leb_gt; lia).
    cbn [andb int2cn_fuel].
    replace (n =? 0)%Z with false by (symmetry; apply Z.eqb_neq; lia).
    replace (0 <? n)%Z with false by (symmetry; apply Z.ltb_ge; lia).
    replace (10 <=? n)%Z with false by (symmetry; apply Z.leb_gt; lia).
    replace (100 <=? n)%Z with false by (symmetry; apply Z.leb_gt; lia).
    reflexivity.
  - replace (0 <=? n)%Z with true by (symmetry; apply Z.leb_le; lia).
    cbn [andb].
    destruct (Z.ltb_spec n 100) as [Small|Big].
    + replace (n <? 1000)%Z with true by (symmetry; apply Z.ltb_lt; lia).
      apply int2cn_fuel_small. lia.
    + unfold numeral_spec. remember (S fuel) as fuel1 eqn:F1.
      cbn [int2cn_fuel]. subst fuel1.
      replace (n =? 0)%Z with false by (symmetry; apply Z.eqb_neq; lia).
      replace (n <? 10)%Z with false by (symmetry; apply Z.ltb_ge; lia).
      replace (n <=? 9)%Z with false by (symmetry; apply Z.leb_gt; lia).
      replace (n <? 100)%Z with false by (symmetry; apply Z.ltb_ge; lia).
      replace (n <=? 99)%Z with false by (symmetry; apply Z.leb_gt; lia).
      replace (100 <=? n)%Z with true by (symmetry; apply Z.leb_le; lia).
      rewrite !andb_false_r. cbn [andb].
      destruct (Z.ltb_spec n 1000) as [K|K].
      * replace (n <=? 999)%Z with true by (symmetry; apply Z.leb_le; lia).
        assert (T : (1 <= n / 100 < 10)%Z).
        { split; [apply Z.div_le_lower_bound | apply Z.div_lt_upper_bound]; lia. }
        pose proof (Z.mod_pos_bound n 100 eq_refl) as U.
        destruct (int_to_cn_digit (n / 100)) as (c & -> & ->); [lia|].
        cbn [bind]. destruct (Z.eqb_spec (n mod 100) 0) as [|R0]; [reflexivity|].
        rewrite int2cn_fuel_small by lia. cbn [bind].
        destruct (Z.ltb_spec (n mod 100) 10) as [R|R].
        -- replace (n mod 100 <=? 9)%Z with true by (symmetry; apply Z.leb_le; lia).
           unfold numeral_spec.
           replace (n mod 100 =? 0)%Z with false by (symmetry; apply Z.eqb_neq; lia).
           replace (1 <=? n mod 100)%Z with true by (symmetry; apply Z.leb_le; lia).
           replace (n mod 100 <=? 9)%Z with true by (symmetry; apply Z.leb_le; lia).
           cbn [andb]. now rewrite <- !app_assoc.
        -- replace (n mod 100 <=? 9)%Z with false by (symmetry; apply Z.leb_gt; lia).
           unfold numeral_spec.
           replace (n mod 100 =? 0)%Z with false by (symmetry; apply Z.eqb_neq; lia).
           replace (n mod 100 <=? 9)%Z with false by (symmetry; apply Z.leb_gt; lia).
           replace (10 <=? n mod 100)%Z with true by (symmetry; apply Z.leb_le; lia).
           replace (n mod 100 <=? 99)%Z with true by (symmetry; apply Z.leb_le; lia).
           rewrite !andb_false_r. cbn [andb]. now rewrite <- !app_assoc.
      * replace (n <=? 999)%Z with false by (symmetry; apply Z.leb_gt; lia).
        replace (n <? 1000)%Z with false by (symmetry; apply Z.ltb_ge; lia).
        reflexivity.
Qed.

(** Outside 0 to 999 the text of the specification is the decimal text. *)
Lemma numeral_spec_fallback (n : Z) :
  (n < 0 \/ 1000 <= n)%Z -> numeral_spec n = str_of_int n.
Proof.
  intros H. unfold numeral_spec.
  replace (n =? 0)%Z with false by (symmetry; apply Z.eqb_neq; lia).
  destruct H as [H|H].
  - replace (1 <=? n)%Z with false by (symmetry; apply Z.leb_gt; lia).
    replace (10 <=? n)%Z with false by (symmetry; apply Z.leb_gt; lia).
    replace (100 <=? n)%Z with false by (symmetry; apply Z.leb_gt; lia).
    reflexivity.
  - replace (n <=? 9)%Z with false by (symmetry; apply Z.leb_gt; lia).
    replace (n <=? 99)%Z with false by (symmetry; apply Z.leb_gt; lia).
    replace (n <=? 999)%Z with false by (symmetry; apply Z.leb_gt; lia).
    now rewrite !andb_false_r.
Qed.

(** [int2cn] returns the text of the specification, unless the integer has
    more digits than [str] converts. *)
Lemma int2cn_spec (n : Z) :
  int2cn n =
  if (Z.abs n <? int_str_limit)%Z then Ret (numeral_spec n) else Raise ValueError.
Proof.
  unfold int2cn. rewrite (int2cn_fuel_spec 0).
  pose proof int_str_limit_large as L.
  destruct (Z.leb_spec 0 n) as [P|P]; cbn [andb].
  - destruct (Z.ltb_spec n 1000) as [K|K].
    + replace (Z.abs n <? int_str_limit)%Z with true; [reflexivity|].
      symmetry. apply Z.ltb_lt. lia.
    + unfold builtin_str. rewrite numeral_spec_fallback by lia. reflexivity.
  - unfold builtin_str. rewrite numeral_spec_fallback by lia. reflexivity.
Qed.

Lemma int2cn_within (n : Z) :
  (Z.abs n < int_str_limit)%Z -> int2cn n = Ret (numeral_spec n).
Proof.
  intros H. rewrite int2cn_spec.
  replace (Z.abs n <? int_str_limit)%Z with true; [reflexivity|].
  symmetry. now apply Z.ltb_lt.
Qed.

Lemma int2cn_ret (n : Z) (t : str) :
  int2cn n = Ret t -> t = numeral_spec n /\ (Z.abs n < int_str_limit)%Z.
Proof.
  rewrite int2cn_spec.
  destruct (Z.ltb_spec (Z.abs n) int_str_limit) as [L|L]; [|discriminate].
  intros H. split; [congruence | exact L].
Qed.

Lemma int2cn_ends (n : Z) : int2cn n <> OutOfFuel.
Proof. rewrite int2cn_spec. destruct (_ <? _)%Z; discriminate. Qed.

Section NumeralFacts.
Context {UT : UnicodeTables}.

(** The loop of [cn2int] either meets a character it does not recognise, or
    computes the left-to-right evaluation. *)
Lemma cn2int_loop_eval (s : str) (total current : Z) :
  cn2int_loop s total current =
  if existsb unrecognized s then None
  else Some (let (p, t) := fold_left spec_step s (current, total) in t + p)%Z.
Proof.
  revert total current. induction s as [|c s IH]; intros total current.
  - reflexivity.
  - cbn [cn2int_loop existsb fold_left].
    unfold unrecognized at 1, spec_step at 2, is_DIGIT, is_UNIT, digit_value,
      unit_value.
    destruct (char_get c NUM_MAP) as [v|].
    + rewrite andb_false_r. cbn [andb orb negb]. apply IH.
    + destruct (char_get c UNIT_MAP) as [u|].
      * rewrite andb_false_r. cbn [orb]. apply IH.
      * destruct (isspace c); cbn [andb orb negb]; [apply IH | reflexivity].
Qed.


Lemma cn2int_digits (s : str) :
  strip s <> [] -> isdigit (strip s) = true ->
  cn2int s = (n <- builtin_int (strip s) ;; Ret (Some n)).
Proof.
  intros Hne Hd. unfold cn2int. destruct (strip s); [congruence|]. now rewrite Hd.
Qed.

Lemma cn2int_numerals (s : str) :
  strip s <> [] -> isdigit (strip s) = false ->
  cn2int s = Ret (cn2int_loop (strip s) 0 0).
Proof.
  intros Hne Hd. unfold cn2int. destruct (strip s); [congruence|]. now rewrite Hd.
Qed.

Lemma cn2int_empty (s : str) : strip s = [] -> cn2int s = Ret None.
Proof. intros E. unfold cn2int. now rewrite E. Qed.

(** A string of digits is handed to [int], which raises on a digit that has
    no decimal value: [cn2int] then neither returns an integer nor [None]. *)
Lemma cn2int_digit_without_value (c : char) :
  isspace c = false -> char_isdigit c = true -> decimal c = None ->
  cn2int [c] = Raise ValueError.
Proof.
  intros Hs Hd Hv. unfold cn2int, strip, rstrip_with. cbn [lstrip_with].
  rewrite Hs. cbn [rev app lstrip_with]. rewrite Hs. cbn [rev app isdigit forallb].
  rewrite Hd. cbn [andb]. unfold builtin_int.
  change (int_max_str_digits <? N.of_nat (List.length [c])) with false.
  cbn [int_digits]. now rewrite Hv.
Qed.

Lemma forallb_range (f : Z -> bool) (k : nat) :
  forallb f (map Z.of_nat (seq 0 k)) = true ->
  forall n, (0 <= n < Z.of_nat k)%Z -> f n = true.
Proof.
  intros H n Hn. rewrite forallb_forall in H. apply H.
  rewrite <- (Z2Nat.id n) by lia. apply in_map, in_seq. lia.
Qed.

Lemma round_trips_below_1000 :
  forallb round_trips (map Z.of_nat (seq 0 1000)) = true.
Proof. vm_compute. reflexivity. Qed.
End NumeralFacts.

(** C2: for every integer [0 <= n < 1000], [int2cn] renders [n] as a numeral
    text and [cn2int] parses that text back to [n]. *)
Theorem int2cn_cn2int_round_trip {UT : UnicodeTables} (n : Z) :
  (0 <= n < 1000)%Z ->
  exists t, int2cn n = Ret t /\ cn2int t = Ret (Some n).
Proof.
  intros H.
  pose proof (forallb_range round_trips 1000 round_trips_below_1000 n H) as R.
  unfold round_trips in R.
  destruct (int2cn n) as [t| |]; try discriminate.
  exists t. split; [reflexivity|].
  destruct (cn2int t) as [[m|]| |]; try discriminate.
  apply Z.eqb_eq in R. now subst m.
Qed.

Lemma int2cn_cn2int_round_trip_witness :
  (0 <= 105 < 1000)%Z /\
  exists t, int2cn 105 = Ret t /\ cn2int (UT := fragment_only) t = Ret (Some 105%Z).
Proof.
  split; [lia|]. apply (int2cn_cn2int_round_trip (UT := fragment_only) 105). lia.
Defined.

(** C5: when the trimmed input is not a string of digits and [cn2int] accepts
    it, the result is the left-to-right evaluation with a pending digit and a
    running total ([spec_eval]), and it accepts every such input made of
    white space, DIGIT and UNIT characters; [cn2int] gives 12 for "十二", 20
    for "二十", 105 for "一百零五" and 3 for "3". *)
Theorem cn2int_left_to_right {UT : UnicodeTables} :
  (forall (s : str) (n : Z),
      isdigit (strip s) = false ->
      cn2int s = Ret (Some n) ->
      n = spec_eval (strip s))
  /\ (forall s : str,
      strip s <> [] ->
      isdigit (strip s) = false ->
      existsb unrecognized (strip s) = false ->
      cn2int s = Ret (Some (spec_eval (strip s))))
  /\ cn2int (u8 "十二") = Ret (Some 12%Z)
  /\ cn2int (u8 "二十") = Ret (Some 20%Z)
  /\ cn2int (u8 "一百零五") = Ret (Some 105%Z)
  /\ cn2int (u8 "3") = Ret (Some 3%Z).
Proof.
  split; [|split; [|repeat split; reflexivity]].
  - intros s n Hd H.
    destruct (strip s) as [|c t] eqn:E.
    + rewrite (cn2int_empty s E) in H. discriminate.
    + rewrite cn2int_numerals in H by (rewrite E; congruence).
      rewrite E, cn2int_loop_eval in H. unfold spec_eval.
      remember (fold_left spec_step (c :: t) (0%Z, 0%Z)) as r eqn:Er. clear Er.
      destruct (existsb unrecognized (c :: t)); [discriminate|].
      destruct r as [p tot]. now injection H as <-.
  - intros s Hne Hd Hu.
    rewrite (cn2int_numerals s Hne Hd), cn2int_loop_eval, Hu. unfold spec_eval.
    now destruct (fold_left spec_step (strip s) (0%Z, 0%Z)).
Qed.

Lemma cn2int_left_to_right_witness :
  isdigit (UT := fragment_only) (strip (u8 "一百零五")) = false
  /\ cn2int (UT := fragment_only) (u8 "一百零五") = Ret (Some 105%Z)
  /\ 105%Z = spec_eval (strip (u8 "一百零五")).
Proof.
  split; [reflexivity|]. split; [reflexivity|].
  apply (proj1 (cn2int_left_to_right (UT := fragment_only))); reflexivity.
Defined.

(** The superscript two is a digit for [str.isdigit] and an invalid literal
    for [int]. *)
Example cn2int_superscript_two :
  cn2int (UT := with_superscript_two) [178] = Raise ValueError.
Proof. now apply cn2int_digit_without_value. Qed.






(** C8: [sanitize_component] replaces every illegal character by a hyphen,
    collapses every run of white space to one space, strips the white space
    and connectors at both ends, then the trailing spaces and periods
    ([sanitize_spec]); it is total, and the empty text gives the empty
    text. *)
Theorem sanitize_component_steps {UT : UnicodeTables} :
  (forall text : str, sanitize_component text = sanitize_spec text)
  /\ sanitize_component [] = []
  /\ sanitize_component (u8 "bad<name>/x. ") = u8 "bad-name--x".
Proof.
  split; [exact sanitize_steps|]. split; reflexivity.
Qed.

(** ** The group index *)

Section GroupFacts.
Context {UT : UnicodeTables}.

Lemma first_longest_cons (k : str) (v : str * str) (tbl : dict (str * str)) :
  first_longest ((k, v) :: tbl) =
  if (List.length k <? longest tbl)%nat then
    find (fun x => (List.length (fst x) =? longest tbl)%nat) tbl
  else Some (k, v).
Proof.
  unfold first_longest. cbn [longest fold_right find fst]. fold (longest tbl).
  destruct (Nat.ltb_spec (List.length k) (longest tbl)) as [L|L].
  - rewrite (Nat.max_r _ _ (Nat.lt_le_incl _ _ L)).
    apply Nat.lt_neq, Nat.eqb_neq in L. now rewrite L.
  - rewrite (Nat.max_l _ _ L). now rewrite Nat.eqb_refl.
Qed.

(** The scan keeps the candidate it has unless a strictly longer matching
    alias follows, and then takes the first of the longest. *)
Lemma scan_aliases_spec (key : str) (tbl : dict (str * str))
  (best : option (str * str * nat)) :
  scan_aliases key tbl best =
  match best with
  | None => scanned (matching_entries key tbl)
  | Some b =>
      if (snd b <? longest (matching_entries key tbl))%nat
      then scanned (matching_entries key tbl)
      else Some b
  end.
Proof.
  revert best. induction tbl as [|[k [g a]] tbl IH]; intros best.
  - now destruct best.
  - cbn [scan_aliases matching_entries filter fst].
    fold (contains_either key k). fold (matching_entries key tbl).
    destruct (contains_either key k); [|apply IH].
    unfold scanned at 1 2. rewrite first_longest_cons.
    fold (first_longest (matching_entries key tbl)).
    fold (scanned (matching_entries key tbl)).
    cbn [longest fold_right fst]. fold (longest (matching_entries key tbl)).
    set (L := longest (matching_entries key tbl)).
    destruct best as [b|].
    + cbn [snd]. destruct (Nat.ltb_spec (snd b) (List.length k)) as [B|B].
      * rewrite IH. cbn [snd].
        replace (snd b <? Nat.max (List.length k) L)%nat with true
          by (symmetry; apply Nat.ltb_lt; lia).
        fold L. now destruct (List.length k <? L)%nat.
      * rewrite IH. fold L.
        destruct (Nat.ltb_spec (snd b) L) as [C|C].
        -- replace (snd b <? Nat.max (List.length k) L)%nat with true
             by (symmetry; apply Nat.ltb_lt; lia).
           replace (List.length k <? L)%nat with true
             by (symmetry; apply Nat.ltb_lt; lia).
           reflexivity.
        -- replace (snd b <? Nat.max (List.length k) L)%nat with false
             by (symmetry; apply Nat.ltb_ge; lia).
           reflexivity.
    + rewrite IH. cbn [snd]. fold L. now destruct (List.length k <? L)%nat.
Qed.

Lemma find_group_is_resolve (G : index) (model_text : str) :
  find_group_for_model G model_text = resolve_spec G model_text.
Proof.
  unfold find_group_for_model, resolve_spec.
  rewrite normalize_is_filter.
  destruct (dict_get _ _) as [[g a]|]; [reflexivity|].
  rewrite scan_aliases_spec. unfold scanned.
  now destruct (first_longest _) as [[k [g a]]|].
Qed.

Lemma matching_empty_key (tbl : dict (str * str)) : matching_entries [] tbl = tbl.
Proof.
  unfold matching_entries. induction tbl as [|e tbl IH]; [reflexivity|].
  cbn [filter]. unfold contains_either at 1.
  rewrite (str_in_nil_l (fst e)), orb_true_r. now rewrite IH.
Qed.
End GroupFacts.

(** C3: [find_group_for_model] returns the entry of the normalised key when
    the key is in the normalised map; otherwise, among the entries whose
    normalised alias is contained in the key or contains it, the one with the
    longest normalised alias, the first of that length in the order of the
    map; and [(None, None)] when no entry qualifies ([resolve_spec]).  With
    "x8" and "findx8pro" in two groups, a text containing "findx8pro"
    resolves to the group of "findx8pro"; of two aliases of the same length
    the first one wins. *)
Theorem find_group_for_model_resolves {UT : UnicodeTables} :
  (forall (G : index) (model_text : str),
      find_group_for_model G model_text = resolve_spec G model_text)
  /\ find_group_for_model
       (init_group_index [(u8 "A", [u8 "x8"]); (u8 "B", [u8 "findx8pro"])]
                         (Index [] [] []))
       (u8 "oppo findx8pro max")
     = (Some (u8 "B"), Some (u8 "findx8pro"))
  /\ find_group_for_model
       (init_group_index [(u8 "A", [u8 "ab1"]); (u8 "B", [u8 "ab2"])]
                         (Index [] [] []))
       (u8 "ab")
     = (Some (u8 "A"), Some (u8 "ab1")).
Proof.
  split; [exact find_group_is_resolve|]. split; vm_compute; reflexivity.
Qed.

(** C9: two model texts with the same normalisation (lowercase, then every
    white space, hyphen, dash and underscore removed) get the same answer
    from [find_group_for_model]; "oppofindx8pro" and "OPPO Find-X8 Pro"
    normalise to the same key and resolve to group 1-3. *)
Theorem find_group_insensitive {UT : UnicodeTables} :
  (forall (G : index) (s1 s2 : str),
      normalize_spec s1 = normalize_spec s2 ->
      find_group_for_model G s1 = find_group_for_model G s2)
  /\ (forall s : str, normalize_model_key s = normalize_spec s)
  /\ normalize_spec (u8 "oppofindx8pro") = normalize_spec (u8 "OPPO Find-X8 Pro")
  /\ find_group_for_model loaded (u8 "oppofindx8pro")
     = (Some (u8 "1-3"), Some (u8 "oppofindx8pro"))
  /\ find_group_for_model loaded (u8 "OPPO Find-X8 Pro")
     = (Some (u8 "1-3"), Some (u8 "oppofindx8pro")).
Proof.
  split; [|split; [exact normalize_is_filter|];
           split; [|split]; vm_compute; reflexivity].
  intros G s1 s2 H. unfold find_group_for_model.
  now rewrite !normalize_is_filter, H.
Qed.

Lemma find_group_insensitive_witness :
  normalize_spec (UT := fragment_only) (u8 "vivo_X200-pro")
  = normalize_spec (UT := fragment_only) (u8 "Vivo x200 PRO")
  /\ find_group_for_model (UT := fragment_only) (loaded (UT := fragment_only)) (u8 "vivo_X200-pro")
     = find_group_for_model (UT := fragment_only) (loaded (UT := fragment_only)) (u8 "Vivo x200 PRO").
Proof.
  split; [vm_compute; reflexivity|].
  apply (proj1 (find_group_insensitive (UT := fragment_only))).
  vm_compute; reflexivity.
Defined.

(** C10: when the normalisation of the input is empty, the key occurs in
    every normalised alias, so the scan keeps the first of the longest
    aliases of the whole map (unless the empty key itself is in the map);
    with the table of the program the answer is never [(None, None)]: it is
    group 4-5, whose alias "huaweinova14ultra" is the longest of the map. *)
Theorem find_group_empty_key {UT : UnicodeTables} :
  (forall (G : index) (s : str),
      normalize_model_key s = [] ->
      dict_get [] (NORMALIZED_MODEL_TO_GROUP G) = None ->
      find_group_for_model G s =
      match first_longest (NORMALIZED_MODEL_TO_GROUP G) with
      | Some (_, (g, a)) => (Some g, Some a)
      | None => (None, None)
      end)
  /\ (forall s : str,
      normalize_model_key s = [] ->
      find_group_for_model loaded s
      = (Some (u8 "4-5"), Some (u8 "huaweinova14ultra")))
  /\ (forall (k : str) (v : str * str),
      In (k, v) (NORMALIZED_MODEL_TO_GROUP loaded) ->
      str_in [] k = true
      /\ (List.length k <= List.length (u8 "huaweinova14ultra"))%nat).
Proof.
  assert (A : forall (G : index) (s : str),
      normalize_model_key s = [] ->
      dict_get [] (NORMALIZED_MODEL_TO_GROUP G) = None ->
      find_group_for_model G s =
      match first_longest (NORMALIZED_MODEL_TO_GROUP G) with
      | Some (_, (g, a)) => (Some g, Some a)
      | None => (None, None)
      end).
  { intros G s Hs Hk. unfold find_group_for_model. rewrite Hs, Hk.
    rewrite scan_aliases_spec, matching_empty_key. unfold scanned.
    now destruct (first_longest _) as [[k [g a]]|]. }
  split; [exact A|]. split.
  - intros s Hs. rewrite (A loaded s Hs); vm_compute; reflexivity.
  - intros k v Hin. split; [apply str_in_nil_l|].
    assert (F : forallb (fun e : str * (str * str) =>
                           (List.length (fst e) <=? 17)%nat)
                        (NORMALIZED_MODEL_TO_GROUP loaded) = true)
      by (vm_compute; reflexivity).
    rewrite forallb_forall in F. specialize (F _ Hin).
    apply Nat.leb_le in F. exact F.
Qed.

Lemma find_group_empty_key_witness :
  normalize_model_key (UT := fragment_only) (u8 " -_—") = []
  /\ find_group_for_model (UT := fragment_only) (loaded (UT := fragment_only)) (u8 " -_—")
     = (Some (u8 "4-5"), Some (u8 "huaweinova14ultra")).
Proof.
  split; [vm_compute; reflexivity|].
  apply (proj1 (proj2 (find_group_empty_key (UT := fragment_only)))).
  vm_compute; reflexivity.
Defined.

(** ** The pattern extractor *)

Lemma lstrip_id (p : char -> bool) (s : str) :
  forallb (fun c => negb (p c)) s = true -> lstrip_with p s = s.
Proof.
  destruct s as [|c t]; [reflexivity|]. cbn [forallb lstrip_with].
  intros H. apply andb_prop in H. destruct H as [H _].
  now destruct (p c).
Qed.

Lemma strip_id (s : str) :
  forallb (fun c => negb (isspace c)) s = true -> strip s = s.
Proof.
  intros H. unfold strip, rstrip_with. rewrite (lstrip_id _ _ H).
  rewrite lstrip_id; [apply rev_involutive|].
  rewrite forallb_forall in H |- *. intros c Hc. apply H.
  now apply (proj2 (in_rev _ _)).
Qed.

Lemma mem_In (c : char) (l : str) : mem c l = true -> In c l.
Proof.
  unfold mem. rewrite existsb_exists. intros (x & Hx & E).
  apply N.eqb_eq in E. now subst.
Qed.

Section ExtractorFacts.
Context {UT : UnicodeTables}.

(** No decimal digit is white space. *)
Lemma decimal_not_space (c : char) :
  cls_mem CDigit c = true -> isspace c = false /\ char_isdigit c = true.
Proof.
  cbn [cls_mem]. unfold char_isdigit. destruct (decimal c) as [d|] eqn:E;
    [intros _ | discriminate].
  split; [|reflexivity].
  destruct (isspace c) eqn:S; [|reflexivity]. exfalso.
  unfold decimal, plain in E. rewrite S, orb_true_r in E. cbn [orb] in E.
  destruct (ascii_digit c) eqn:D; [|discriminate].
  unfold ascii_digit in D. apply andb_prop in D. destruct D as [D1 D2].
  apply N.leb_le in D1, D2.
  assert (H : c = 48 \/ c = 49 \/ c = 50 \/ c = 51 \/ c = 52 \/ c = 53
              \/ c = 54 \/ c = 55 \/ c = 56 \/ c = 57) by lia.
  repeat (destruct H as [-> | H]; [discriminate|]). subst c. discriminate.
Qed.

(** The numeral glyphs of the pattern are the keys of the two tables; none
    is white space or a digit. *)
Lemma numeral_glyph_facts (c : char) :
  cls_mem (CSet numeral_glyphs) c = true ->
  isspace c = false /\ char_isdigit c = false /\ unrecognized c = false.
Proof.
  cbn [cls_mem]. intros H. apply mem_In in H. vm_compute in H.
  repeat (destruct H as [<- | H]; [split; [|split]; vm_compute; reflexivity|]).
  destruct H.
Qed.

Lemma int_digits_returns (s : str) (acc : Z) :
  forallb (cls_mem CDigit) s = true -> exists n, int_digits s acc = Ret n.
Proof.
  revert acc. induction s as [|c s IH]; intros acc H; cbn [int_digits].
  - now exists acc.
  - cbn [forallb cls_mem] in H. apply andb_prop in H. destruct H as [Hc Hs].
    destruct (decimal c); [apply IH, Hs | discriminate].
Qed.

(** What the digits of a string amount to, when every decimal value is one
    of 0 to 9. *)
Lemma int_digits_bound (s : str) (acc : Z) :
  (forall c d, tbl_decimal c = Some d -> (0 <= d <= 9)%Z) ->
  forallb (cls_mem CDigit) s = true -> (0 <= acc)%Z ->
  exists n, int_digits s acc = Ret n
            /\ (0 <= n < (acc + 1) * 10 ^ Z.of_nat (List.length s))%Z.
Proof.
  intros Htbl. revert acc. induction s as [|c s IH]; intros acc H Ha;
    cbn [int_digits List.length].
  - exists acc. split; [reflexivity|]. cbn. lia.
  - cbn [forallb cls_mem] in H. apply andb_prop in H. destruct H as [Hc Hs].
    destruct (decimal c) as [d|] eqn:Ed; [|discriminate].
    assert (Hd : (0 <= d <= 9)%Z).
    { unfold decimal in Ed. destruct (plain c).
      - destruct (ascii_digit c) eqn:D; [|discriminate]. injection Ed as <-.
        unfold ascii_digit in D. apply andb_prop in D. destruct D as [D1 D2].
        apply N.leb_le in D1, D2. lia.
      - now apply Htbl in Ed. }
    destruct (IH (10 * acc + d)%Z Hs) as (n & -> & Hn); [lia|].
    exists n. split; [reflexivity|].
    rewrite Nat2Z.inj_succ, Z.pow_succ_r by lia.
    assert (P : (0 < 10 ^ Z.of_nat (List.length s))%Z)
      by (apply Z.pow_pos_nonneg; lia).
    nia.
Qed.

(** The integer that the loop of [cn2int] returns is small. *)
Lemma cn2int_loop_bound (s : str) (total current n : Z) :
  (0 <= total)%Z -> (0 <= current <= 9)%Z ->
  cn2int_loop s total current = Some n ->
  (0 <= n <= total + 9 + 9000 * Z.of_nat (List.length s))%Z.
Proof.
  revert total current. induction s as [|c s IH]; intros total current Ht Hc;
    cbn [cn2int_loop List.length].
  - intros [= <-]. lia.
  - rewrite Nat2Z.inj_succ.
    destruct (char_get c NUM_MAP) as [v|] eqn:Ev.
    + intros H. assert (Hv : (0 <= v <= 9)%Z).
      { revert Ev. unfold NUM_MAP. cbn [char_get].
        repeat (destruct (c =? _); [intros [= <-]; lia|]). discriminate. }
      apply IH in H; lia.
    + destruct (char_get c UNIT_MAP) as [u|] eqn:Eu.
      * intros H. assert (Hu : (10 <= u <= 1000)%Z).
        { revert Eu. unfold UNIT_MAP. cbn [char_get].
          repeat (destruct (c =? _); [intros [= <-]; lia|]). discriminate. }
        apply IH in H; [|destruct (current =? 0)%Z; nia | lia].
        destruct (current =? 0)%Z; nia.
      * destruct (isspace c); [|discriminate]. intros H. apply IH in H; lia.
Qed.

(** What the group "num" can hold is never refused: it is converted, unless
    [int] raises on a string of more than 4300 digits. *)
Lemma cn2int_of_num (ng : str) :
  ng <> [] ->
  forallb (cls_mem CDigit) ng = true
  \/ forallb (cls_mem (CSet numeral_glyphs)) ng = true ->
  (exists n, cn2int (strip ng) = Ret (Some n))
  \/ cn2int (strip ng) = Raise ValueError.
Proof.
  intros Hne [H|H].
  - assert (Hs : forallb (fun c => negb (isspace c)) ng = true).
    { rewrite forallb_forall in H |- *. intros c Hc.
      destruct (decimal_not_space c (H c Hc)) as [-> _]. reflexivity. }
    assert (Hd : isdigit ng = true).
    { unfold isdigit. destruct ng as [|c0 t0]; [congruence|].
      rewrite forallb_forall in H |- *. intros c Hc.
      now destruct (decimal_not_space c (H c Hc)). }
    assert (E : strip (strip ng) = ng) by now rewrite !(strip_id ng Hs).
    rewrite cn2int_digits by now rewrite E.
    rewrite E. unfold builtin_int.
    destruct (int_max_str_digits <? _); [now right|].
    destruct (int_digits_returns ng 0 H) as (n & ->). left. now exists n.
  - assert (Hs : forallb (fun c => negb (isspace c)) ng = true).
    { rewrite forallb_forall in H |- *. intros c Hc.
      destruct (numeral_glyph_facts c (H c Hc)) as [-> _]. reflexivity. }
    assert (Hd : isdigit ng = false).
    { unfold isdigit. destruct ng as [|c t]; [congruence|].
      rewrite forallb_forall in H. cbn [forallb].
      destruct (numeral_glyph_facts c (H c (or_introl eq_refl))) as (_ & -> & _).
      reflexivity. }
    assert (Hu : existsb unrecognized ng = false).
    { apply not_true_is_false. rewrite existsb_exists. intros (c & Hc & U).
      rewrite forallb_forall in H.
      destruct (numeral_glyph_facts c (H c Hc)) as (_ & _ & U'). congruence. }
    assert (E : strip (strip ng) = ng) by now rewrite !(strip_id ng Hs).
    rewrite cn2int_numerals by now rewrite E.
    rewrite E, cn2int_loop_eval, Hu. left. eexists. reflexivity.
Qed.

(** A num group of at most 4300 characters is converted to an integer that
    [str] converts back, when every decimal value of the database is one of
    0 to 9. *)
Lemma cn2int_of_num_bounded (ng : str) :
  (forall c d, tbl_decimal c = Some d -> (0 <= d <= 9)%Z) ->
  N.of_nat (List.length ng) <= int_max_str_digits ->
  ng <> [] ->
  forallb (cls_mem CDigit) ng = true
  \/ forallb (cls_mem (CSet numeral_glyphs)) ng = true ->
  exists n, cn2int (strip ng) = Ret (Some n) /\ (0 <= n < int_str_limit)%Z.
Proof.
  intros Htbl Hlen Hne [H|H].
  - assert (Hs : forallb (fun c => negb (isspace c)) ng = true).
    { rewrite forallb_forall in H |- *. intros c Hc.
      destruct (decimal_not_space c (H c Hc)) as [-> _]. reflexivity. }
    assert (Hd : isdigit ng = true).
    { unfold isdigit. destruct ng as [|c0 t0]; [congruence|].
      rewrite forallb_forall in H |- *. intros c Hc.
      now destruct (decimal_not_space c (H c Hc)). }
    assert (E : strip (strip ng) = ng) by now rewrite !(strip_id ng Hs).
    rewrite cn2int_digits by now rewrite E.
    rewrite E. unfold builtin_int.
    replace (int_max_str_digits <? N.of_nat (List.length ng)) with false
      by (symmetry; apply N.ltb_ge; exact Hlen).
    destruct (int_digits_bound ng 0 Htbl H (Z.le_refl 0)) as (n & -> & Hn).
    exists n. split; [reflexivity|]. split; [lia|].
    apply Z.lt_le_trans with (10 ^ Z.of_nat (List.length ng))%Z; [lia|].
    unfold int_str_limit. apply Z.pow_le_mono_r; lia.
  - assert (Hs : forallb (fun c => negb (isspace c)) ng = true).
    { rewrite forallb_forall in H |- *. intros c Hc.
      destruct (numeral_glyph_facts c (H c Hc)) as [-> _]. reflexivity. }
    assert (Hd : isdigit ng = false).
    { unfold isdigit. destruct ng as [|c t]; [congruence|].
      rewrite forallb_forall in H. cbn [forallb].
      destruct (numeral_glyph_facts c (H c (or_introl eq_refl))) as (_ & -> & _).
      reflexivity. }
    assert (E : strip (strip ng) = ng) by now rewrite !(strip_id ng Hs).
    destruct (cn2int_of_num ng Hne (or_intror H)) as [(n & En)|En].
    + exists n. split; [exact En|].
      rewrite cn2int_numerals in En by now rewrite E.
      rewrite E in En. assert (L : cn2int_loop ng 0 0 = Some n) by congruence.
      apply cn2int_loop_bound in L; [|lia|lia].
      pose proof int_str_limit_large as B.
      assert (Z.of_nat (List.length ng) <= 4300)%Z
        by (unfold int_max_str_digits in Hlen; lia).
      lia.
    + rewrite cn2int_numerals in En by now rewrite E. discriminate En.
Qed.

(** A match of the pattern sets both named groups, and the group "num" is a
    run of decimal digits or a run of numeral glyphs, no longer than the
    text. *)
Lemma PATTERN_groups (text : str) (m : mstate) :
  re_search PATTERN text = Some m ->
  exists mg ng,
    group "model" (groups m) = Some mg
    /\ group "num" (groups m) = Some ng
    /\ mg <> [] /\ ng <> []
    /\ (forallb (cls_mem CDigit) ng = true
        \/ forallb (cls_mem (CSet numeral_glyphs)) ng = true)
    /\ (List.length ng <= List.length text)%nat.
Proof.
  intros H. unfold re_search in H.
  apply (search_from_prefix PATTERN (start text) m text eq_refl) in H.
  destruct H as (st & d0 & H & Hd0).
  unfold PATTERN in H. cbn [matched] in H.
  destruct H as (s1 & Hpre & s2 & Hmodel & s3 & Hmark & s4 & Hnum
                 & s5 & Hpoint & Hrest).
  destruct (matched_consumed _ _ _ Hpre) as (w0 & Hw0).
  destruct (matched_consumed _ _ _ Hmodel) as (w1 & Hw1).
  destruct (matched_consumed _ _ _ Hmark) as (w2 & Hw2).
  apply matched_no_groups in Hmark; [|reflexivity].
  apply matched_no_groups in Hpoint; [|reflexivity].
  apply matched_no_groups in Hrest; [|reflexivity].
  unfold PATTERN_model in Hmodel. cbn [matched] in Hmodel.
  destruct Hmodel as (a & (w & Hlw & _ & Hrw & Hgw) & ->).
  unfold PATTERN_num in Hnum. cbn [matched] in Hnum.
  destruct Hnum as (b & (b' & Halt & ->) & ->).
  assert (exists v, (1 <= List.length v)%nat
                    /\ rest s3 = v ++ rest b' /\ groups b' = groups s3
                    /\ (forallb (cls_mem CDigit) v = true
                        \/ forallb (cls_mem (CSet numeral_glyphs)) v = true))
    as (v & Hlv & Hrv & Hgv & Hv).
  { destruct Halt as [(v & Hl & Hv & Hr & Hg) | (v & Hl & Hv & Hr & Hg)];
      exists v; repeat split; auto. }
  exists w, v. rewrite Hrest, Hpoint. unfold capture. cbn [groups rest].
  unfold capture in Hmark. cbn [groups] in Hmark.
  rewrite (taken_app s1 a w Hrw) in Hmark.
  assert (Tv : taken s3 (MState (at_start b') (rest b')
                  (set_group "2" (taken s3 b') (groups b'))) = v)
    by (apply taken_app; exact Hrv).
  rewrite Tv. split.
  - rewrite group_set_other by reflexivity.
    rewrite group_set_other by reflexivity.
    rewrite Hgv, Hmark. apply group_set_same.
  - split; [apply group_set_same|]. split; [|split; [|split; [exact Hv|]]].
    + intros ->. cbn in Hlw. lia.
    + intros ->. cbn in Hlv. lia.
    + rewrite Hd0, Hw0, Hw1, Hw2, Hrv, !length_app. lia.
Qed.
End ExtractorFacts.

(** ** The name builder *)

Lemma dict_get_In {V} (k : str) (d : dict V) (v : V) :
  dict_get k d = Some v -> In (k, v) d.
Proof.
  induction d as [|[k' v'] d IH]; cbn [dict_get]; [discriminate|].
  destruct (str_eqb k k') eqn:E.
  - apply str_eqb_eq in E. intros [= ->]. subst k'. now left.
  - intros H. right. now apply IH.
Qed.

Section BuilderFacts.
Context {UT : UnicodeTables}.

(** Whatever [find_group_for_model] answers is a group of the index. *)
Lemma find_group_in_index (G : index) (s g : str) :
  fst (find_group_for_model G s) = Some g ->
  In g (map (fun e => fst (snd e)) (NORMALIZED_MODEL_TO_GROUP G)).
Proof.
  rewrite find_group_is_resolve. unfold resolve_spec.
  destruct (dict_get _ _) as [[g' a]|] eqn:E.
  - intros [= ->]. apply dict_get_In in E.
    now apply (in_map (fun e => fst (snd e))) in E.
  - destruct (first_longest _) as [[k [g' a]]|] eqn:F; [|discriminate].
    intros [= ->]. unfold first_longest in F. apply find_some in F.
    destruct F as [F _]. unfold matching_entries in F. apply filter_In in F.
    destruct F as [F _]. now apply (in_map (fun e => fst (snd e))) in F.
Qed.

Lemma loaded_groups_ok :
  forallb (group_ok loaded)
          (map (fun e => fst (snd e)) (NORMALIZED_MODEL_TO_GROUP loaded)) = true.
Proof. vm_compute. reflexivity. Qed.

Lemma find_group_loaded_ok (s g : str) :
  fst (find_group_for_model loaded s) = Some g -> group_ok loaded g = true.
Proof.
  intros H. apply find_group_in_index in H.
  pose proof loaded_groups_ok as F. rewrite forallb_forall in F. exact (F g H).
Qed.

(** The composition of [build_new_name] once the pattern has matched, the
    model is not empty and both conversions have returned. *)
Lemma build_new_name_compose (stem : str) (m : mstate) (mg ng num_cn : str) (n : Z) :
  re_search PATTERN stem = Some m ->
  group "model" (groups m) = Some mg ->
  group "num" (groups m) = Some ng ->
  sanitize_component (strip mg) <> [] ->
  cn2int (strip ng) = Ret (Some n) ->
  int2cn n = Ret num_cn ->
  build_new_name loaded stem =
  Ret (Some
         (match fst (find_group_for_model loaded (sanitize_component (strip mg))) with
          | Some g => (g ++ u8 "_") ++ canonical_model loaded g
          | None => sanitize_component (strip mg)
          end ++ u8 "_第" ++ num_cn ++ u8 "个点")).
Proof.
  intros Hm Hmg Hng Hmodel Hn Hcn.
  unfold build_new_name, m_group. rewrite Hm, Hmg. cbn [bind].
  destruct (sanitize_component (strip mg)) as [|c model] eqn:Em; [congruence|].
  rewrite Hng. cbn [bind]. rewrite Hn. cbn [bind]. rewrite Hcn. cbn [bind].
  pose proof (find_group_loaded_ok (c :: model)) as Hok.
  destruct (find_group_for_model loaded (c :: model)) as [[g|] alias];
    cbn [fst] in *; [|reflexivity].
  specialize (Hok g eq_refl). unfold group_ok in Hok. unfold canonical_model.
  destruct g as [|g0 g]; [discriminate|].
  destruct (dict_get (g0 :: g) (GROUP_TO_CANONICAL_MODEL loaded))
    as [[|c0 canonical]|]; try discriminate.
  destruct (sanitize_component (c0 :: canonical)); [discriminate|].
  now rewrite <- !app_assoc.
Qed.

(** The builder returns or raises [ValueError]: the pattern sets both
    groups, and what the group "num" holds is never refused, so that the
    [None] of [cn2int] is never seen; only the conversions of an integer of
    more than 4300 digits raise. *)
Lemma build_new_name_outcome (G : index) (basename : str) :
  (exists r, build_new_name G basename = Ret r)
  \/ build_new_name G basename = Raise ValueError.
Proof.
  unfold build_new_name.
  destruct (re_search PATTERN basename) as [m|] eqn:E; [|left; now exists None].
  destruct (PATTERN_groups _ _ E) as (mg & ng & Hmg & Hng & _ & Hne & Hv & _).
  unfold m_group. rewrite Hmg, Hng. cbn [bind].
  destruct (sanitize_component (strip mg)) as [|c model]; [left; now exists None|].
  destruct (cn2int_of_num ng Hne Hv) as [(n & ->)| ->]; cbn [bind]; [|now right].
  rewrite int2cn_spec. destruct (_ <? _)%Z; cbn [bind]; [|now right].
  destruct (find_group_for_model G (c :: model)). left. eexists. reflexivity.
Qed.

(** On a stem of at most 4300 characters the builder returns, when every
    decimal value of the database is one of 0 to 9. *)
Lemma build_new_name_returns (G : index) (basename : str) :
  (forall c d, tbl_decimal c = Some d -> (0 <= d <= 9)%Z) ->
  N.of_nat (List.length basename) <= int_max_str_digits ->
  exists r, build_new_name G basename = Ret r.
Proof.
  intros Htbl Hlen. unfold build_new_name.
  destruct (re_search PATTERN basename) as [m|] eqn:E; [|now exists None].
  destruct (PATTERN_groups _ _ E) as (mg & ng & Hmg & Hng & _ & Hne & Hv & Hl).
  unfold m_group. rewrite Hmg, Hng. cbn [bind].
  destruct (sanitize_component (strip mg)) as [|c model]; [now exists None|].
  destruct (cn2int_of_num_bounded ng Htbl) as (n & -> & Hn);
    [lia | exact Hne | exact Hv |].
  cbn [bind]. rewrite int2cn_within by lia. cbn [bind].
  destruct (find_group_for_model G (c :: model)). eexists. reflexivity.
Qed.
End BuilderFacts.

(** C1: when the pattern matches, the sanitised model is not empty and the
    numeral conversions return, [build_new_name] returns the group identifier
    and "_" if a group was found, then the final model, "_第", the numeral
    text and "个点"; the final model is the sanitised canonical model of the
    group that matched, and else the sanitised model of the file name.  The
    stem "IMG_乱码---小米15第三个点(1)" becomes "1-1_小米15_第三个点" and
    "未知机型第2个点" becomes "未知机型_第二个点".  On every stem of at most
    4300 characters the builder returns, a new name or [None], when every
    decimal value of the Unicode database is one of 0 to 9. *)
Theorem build_new_name_composes {UT : UnicodeTables} :
  (forall (stem : str) (m : mstate) (mg ng num_cn : str) (n : Z),
      re_search PATTERN stem = Some m ->
      group "model" (groups m) = Some mg ->
      group "num" (groups m) = Some ng ->
      sanitize_component (strip mg) <> [] ->
      cn2int (strip ng) = Ret (Some n) ->
      int2cn n = Ret num_cn ->
      build_new_name loaded stem =
      Ret (Some
             (match fst (find_group_for_model loaded
                           (sanitize_component (strip mg))) with
              | Some g => (g ++ u8 "_") ++ canonical_model loaded g
              | None => sanitize_component (strip mg)
              end ++ u8 "_第" ++ num_cn ++ u8 "个点")))
  /\ build_new_name loaded (u8 "IMG_乱码---小米15第三个点(1)")
     = Ret (Some (u8 "1-1_小米15_第三个点"))
  /\ build_new_name loaded (u8 "未知机型第2个点")
     = Ret (Some (u8 "未知机型_第二个点"))
  /\ ((forall c d, tbl_decimal c = Some d -> (0 <= d <= 9)%Z) ->
      forall stem : str,
        N.of_nat (List.length stem) <= int_max_str_digits ->
        exists r, build_new_name loaded stem = Ret r).
Proof.
  split; [exact build_new_name_compose|].
  split; [vm_compute; reflexivity|]. split; [vm_compute; reflexivity|].
  intros Htbl stem. exact (build_new_name_returns loaded stem Htbl).
Qed.

Lemma build_new_name_composes_witness :
  exists (m : mstate),
    re_search (UT := fragment_only) PATTERN (u8 "a--Find X8 第 拾贰 点位") = Some m
    /\ group "model" (groups m) = Some (u8 "Find X8")
    /\ group "num" (groups m) = Some (u8 "拾贰")
    /\ sanitize_component (UT := fragment_only) (strip (u8 "Find X8")) <> []
    /\ cn2int (UT := fragment_only) (strip (u8 "拾贰")) = Ret (Some 12%Z)
    /\ int2cn 12 = Ret (u8 "十二")
    /\ build_new_name (UT := fragment_only) (loaded (UT := fragment_only))
         (u8 "a--Find X8 第 拾贰 点位")
       = Ret (Some (u8 "1-3_oppo find x8_第十二个点")).
Proof.
  eexists. split; [vm_compute; reflexivity|].
  split; [vm_compute; reflexivity|]. split; [vm_compute; reflexivity|].
  split; [vm_compute; discriminate|].
  split; [vm_compute; reflexivity|]. split; [vm_compute; reflexivity|].
  erewrite (proj1 (build_new_name_composes (UT := fragment_only))
              (u8 "a--Find X8 第 拾贰 点位") _ (u8 "Find X8") (u8 "拾贰")
              (u8 "十二") 12%Z);
    [vm_compute; reflexivity | vm_compute; reflexivity | vm_compute; reflexivity
    | vm_compute; reflexivity | vm_compute; discriminate
    | vm_compute; reflexivity | vm_compute; reflexivity].
Defined.

(** ** What a new name is made of *)

Lemma mem_app (c : char) (a b : str) : mem c (a ++ b) = mem c a || mem c b.
Proof. apply existsb_app. Qed.

Lemma In_mem (c : char) (l : str) : In c l -> mem c l = true.
Proof.
  intros H. unfold mem. apply existsb_exists. exists c. split; [exact H|].
  apply N.eqb_refl.
Qed.


Lemma rstrip_In (p : char -> bool) (s : str) (c : char) :
  In c (rstrip_with p s) -> In c s.
Proof.
  unfold rstrip_with. intros H.
  apply (proj2 (in_rev _ _)), lstrip_In in H. now apply (proj2 (in_rev _ _)).
Qed.

Lemma collapse_spaces_In (b : bool) (s : str) (c : char) :
  In c (collapse_spaces b s) -> c = ch " " \/ In c s.
Proof.
  revert b. induction s as [|d s IH]; intros b; cbn [collapse_spaces];
    [intros []|].
  destruct (isspace d).
  - destruct b; cbn [In].
    + intros H. destruct (IH _ H); auto.
    + intros [<-|H]; [now left|]. destruct (IH _ H); auto.
  - cbn [In]. intros [<-|H]; [auto|]. destruct (IH _ H); auto.
Qed.

Lemma replace_illegal_legal (s : str) (c : char) :
  In c (replace_illegal s) -> illegal c = false.
Proof.
  unfold replace_illegal. rewrite in_map_iff. intros (x & <- & _).
  destruct (illegal x) eqn:E; [reflexivity | exact E].
Qed.

(** The sanitizer leaves no illegal character, and so no path separator. *)
Lemma sanitize_spec_legal (text : str) (c : char) :
  In c (sanitize_spec text) -> illegal c = false.
Proof.
  unfold sanitize_spec, strip_trailing, strip_ends. intros H.
  apply rstrip_In, rstrip_In, lstrip_In, collapse_spaces_In in H.
  destruct H as [->|H]; [reflexivity|]. now apply replace_illegal_legal in H.
Qed.

Lemma sanitize_no_slash {UT : UnicodeTables} (text : str) :
  mem 47 (sanitize_component text) = false.
Proof.
  rewrite sanitize_steps. destruct (mem 47 (sanitize_spec text)) eqn:E;
    [|reflexivity].
  apply mem_In, sanitize_spec_legal in E. discriminate.
Qed.

Lemma uint_chars_no_slash (d : Decimal.uint) : mem 47 (uint_chars d) = false.
Proof. induction d; cbn [uint_chars]; [reflexivity | exact IHd ..]. Qed.

Lemma str_of_int_no_slash (n : Z) : mem 47 (str_of_int n) = false.
Proof.
  unfold str_of_int. destruct (Z.to_int n); [apply uint_chars_no_slash|].
  change (mem 47 (45 :: uint_chars d)) with (mem 47 (uint_chars d)).
  apply uint_chars_no_slash.
Qed.

Lemma glyph_no_slash (d : Z) : mem 47 (glyph d) = false.
Proof.
  unfold glyph, INT_TO_CN. cbn [int_get].
  repeat (destruct (_ =? _)%Z; [reflexivity|]). reflexivity.
Qed.

Lemma tens_text_no_slash (n : Z) : mem 47 (tens_text n) = false.
Proof.
  unfold tens_text. rewrite !mem_app.
  destruct (_ =? 1)%Z; destruct (_ =? 0)%Z; rewrite ?glyph_no_slash; reflexivity.
Qed.

(** No numeral text holds a path separator. *)
Lemma numeral_spec_no_slash (n : Z) : mem 47 (numeral_spec n) = false.
Proof.
  unfold numeral_spec.
  destruct (n =? 0)%Z; [reflexivity|].
  destruct (_ && _); [apply glyph_no_slash|].
  destruct (_ && _); [apply tens_text_no_slash|].
  destruct (_ && _); [|apply str_of_int_no_slash].
  rewrite !mem_app, glyph_no_slash.
  destruct (_ =? 0)%Z; [reflexivity|].
  destruct (_ <=? 9)%Z;
    rewrite ?mem_app, ?glyph_no_slash, ?tens_text_no_slash; reflexivity.
Qed.

Lemma Ret_Some_inj {A} (a b : A) :
  Ret (Some a) = Ret (Some b) :> outcome (option A) -> a = b.
Proof. congruence. Qed.

Section NewNameFacts.
Context {UT : UnicodeTables}.

(** A new name has at least two characters and no path separator. *)
Lemma build_new_name_clean (basename nb : str) :
  build_new_name loaded basename = Ret (Some nb) ->
  mem 47 nb = false /\ (2 <= List.length nb)%nat.
Proof.
  unfold build_new_name, m_group.
  destruct (re_search PATTERN basename) as [m|]; [|discriminate].
  destruct (group "model" (groups m)) as [mg|]; cbn [bind]; [|discriminate].
  pose proof (sanitize_no_slash (strip mg)) as Hm.
  destruct (sanitize_component (strip mg)) as [|c model]; [discriminate|].
  destruct (group "num" (groups m)) as [ng|]; cbn [bind]; [|discriminate].
  destruct (cn2int (strip ng)) as [[n|]| |]; cbn [bind]; try discriminate.
  rewrite int2cn_spec. destruct (_ <? _)%Z; cbn [bind]; [|discriminate].
  pose proof (numeral_spec_no_slash n) as Hn.
  pose proof (find_group_loaded_ok (c :: model)) as Hok.
  destruct (find_group_for_model loaded (c :: model)) as [[g|] alias];
    cbn [fst] in Hok.
  - specialize (Hok g eq_refl). unfold group_ok in Hok.
    destruct g as [|g0 g]; [discriminate|].
    destruct (dict_get (g0 :: g) (GROUP_TO_CANONICAL_MODEL loaded))
      as [[|c0 canonical]|]; try discriminate.
    pose proof (sanitize_no_slash (c0 :: canonical)) as Hc.
    destruct (sanitize_component (c0 :: canonical)) as [|x xs]; [discriminate|].
    apply negb_true_iff in Hok.
    intros H. apply Ret_Some_inj in H. subst nb. split.
    + rewrite !mem_app, Hok, Hc, Hn. reflexivity.
    + rewrite !length_app. change (List.length (u8 "_第")) with 2%nat. lia.
  - intros H. apply Ret_Some_inj in H. subst nb. split.
    + rewrite !mem_app, Hm, Hn. reflexivity.
    + rewrite !length_app. change (List.length (u8 "_第")) with 2%nat. lia.
Qed.
End NewNameFacts.

(** ** The planner *)



(** Decimal strings tell integers apart. *)
Lemma uint_chars_inj (d d' : Decimal.uint) :
  uint_chars d = uint_chars d' -> d = d'.
Proof.
  revert d'. induction d; intros d' H; destruct d'; cbn in H;
    try discriminate; try reflexivity;
    injection H as H; f_equal; now apply IHd.
Qed.

Lemma uint_chars_no_minus (d : Decimal.uint) (t : str) :
  uint_chars d <> 45 :: t.
Proof. destruct d; cbn; discriminate. Qed.

Lemma str_of_int_inj (i j : Z) : str_of_int i = str_of_int j -> i = j.
Proof.
  unfold str_of_int. intros H. apply DecimalZ.to_int_inj.
  destruct (Z.to_int i) as [d|d], (Z.to_int j) as [d'|d'].
  - f_equal. now apply uint_chars_inj.
  - now apply uint_chars_no_minus in H.
  - symmetry in H. now apply uint_chars_no_minus in H.
  - injection H as H. f_equal. now apply uint_chars_inj.
Qed.

(** A candidate is the target under another name, unless the counter has
    more digits than are converted. *)
Lemma candidate_unfold (target : path) (i : Z) :
  candidate target i =
  if (Z.abs i <? int_str_limit)%Z
  then with_name target
         (stem target ++ u8 " (" ++ str_of_int i ++ u8 ")" ++ suffix target)
  else Raise ValueError.
Proof. unfold candidate, builtin_str. now destruct (_ <? _)%Z. Qed.





(** What the loop returns does not exist, and every candidate before it
    does. *)
Lemma ensure_unique_loop_ret (fs : filesystem) (target c : path)
  (fuel : nat) (i : Z) :
  ensure_unique_loop fuel fs target i = Ret c ->
  fs_exists fs c = false
  /\ exists j, (i <= j)%Z /\ candidate target j = Ret c
       /\ forall k, (i <= k < j)%Z ->
            exists c', candidate target k = Ret c' /\ fs_exists fs c' = true.
Proof.
  revert i. induction fuel as [|fuel IH]; intros i H; [discriminate|].
  cbn [ensure_unique_loop] in H.
  destruct (candidate target i) as [c0| |] eqn:Ec; cbn [bind] in H;
    try discriminate.
  destruct (fs_exists fs c0) eqn:Ex; cbn [negb] in H.
  - destruct (IH _ H) as (Hc & j & Hj & Ej & Hbefore).
    split; [exact Hc|]. exists j. split; [lia|]. split; [exact Ej|].
    intros k Hk. destruct (Z.eq_dec k i) as [->|Hne].
    + now exists c0.
    + apply Hbefore. lia.
  - injection H as <-. split; [exact Ex|]. exists i. split; [lia|].
    split; [exact Ec|]. intros k Hk. lia.
Qed.










Section PlannerFacts.
Context {UT : UnicodeTables}.







End PlannerFacts.




(** What [exists()] does not see can have the name of a destination: in
    [linked_photos] the photograph is planned onto the name of the dangling
    link, which the directory lists. *)
Example plan_destination_dangling_link :
  plan_changes (UT := fragment_only) linked_photos [u8 "photos"] false
  = Ret [(photo "小米15第1个点.jpg", photo "1-1_小米15_第一个点.jpg")]
  /\ In (photo "1-1_小米15_第一个点.jpg") (iterdir linked_photos [u8 "photos"])
  /\ fs_exists linked_photos (photo "1-1_小米15_第一个点.jpg") = false.
Proof.
  split; [vm_compute; reflexivity|]. split; [|vm_compute; reflexivity].
  vm_compute. right. left. reflexivity.
Qed.

(** * Further properties *)

(** ** Decimal strings and the numeral converter *)

Section DecimalFacts.
Context {UT : UnicodeTables}.

Lemma ascii_digit_facts (c : char) :
  ascii_digit c = true ->
  cls_mem CDigit c = true /\ decimal c = Some (Z.of_N (c - 48)).
Proof.
  intros H. assert (P : plain c = true).
  { unfold ascii_digit in H. apply andb_prop in H. destruct H as [_ H].
    apply N.leb_le in H. unfold plain.
    replace (c <? 128) with true by (symmetry; apply N.ltb_lt; lia).
    reflexivity. }
  cbn [cls_mem]. unfold decimal. now rewrite P, H.
Qed.

Lemma uint_chars_digits (d : Decimal.uint) :
  forallb ascii_digit (uint_chars d) = true.
Proof. induction d; cbn [uint_chars forallb]; [reflexivity | exact IHd ..]. Qed.

Lemma int_digits_acc (d : Decimal.uint) (acc : positive) :
  int_digits (uint_chars d) (Z.pos acc) = Ret (Z.pos (Pos.of_uint_acc d acc)).
Proof.
  revert acc. induction d; intros acc; cbn [uint_chars int_digits Pos.of_uint_acc];
    [reflexivity|..];
    match goal with
    | |- context [decimal ?c] =>
        destruct (ascii_digit_facts c eq_refl) as [_ ->]
    end;
    rewrite <- IHd; f_equal; lia.
Qed.

Lemma int_digits_of_uint (d : Decimal.uint) :
  int_digits (uint_chars d) 0 = Ret (Z.of_N (Pos.of_uint d)).
Proof.
  induction d; cbn [uint_chars int_digits Pos.of_uint]; [reflexivity|..];
    match goal with
    | |- context [decimal ?c] =>
        destruct (ascii_digit_facts c eq_refl) as [_ ->]
    end;
    [exact IHd | apply int_digits_acc ..].
Qed.

(** The digits read after [acc] leave [acc] in front. *)
Lemma int_digits_lower (s : str) (acc n : Z) :
  forallb ascii_digit s = true -> (0 <= acc)%Z ->
  int_digits s acc = Ret n ->
  (acc * 10 ^ Z.of_nat (List.length s) <= n)%Z.
Proof.
  revert acc. induction s as [|c s IH]; intros acc H Ha;
    cbn [int_digits List.length].
  - intros [= <-]. cbn. lia.
  - cbn [forallb] in H. apply andb_prop in H. destruct H as [Hc Hs].
    destruct (ascii_digit_facts c Hc) as [_ ->].
    intros E. apply IH in E; [|exact Hs|lia].
    rewrite Nat2Z.inj_succ, Z.pow_succ_r by lia.
    assert (P : (0 < 10 ^ Z.of_nat (List.length s))%Z)
      by (apply Z.pow_pos_nonneg; lia).
    nia.
Qed.

(** The decimal form of a positive number has a first digit, which is not
    zero. *)
Lemma to_uint_canonical (p : positive) :
  match Pos.to_uint p with
  | Decimal.Nil | Decimal.D0 _ => False
  | _ => True
  end.
Proof.
  pose proof (DecimalPos.Unsigned.to_of (Pos.to_uint p)) as E.
  rewrite DecimalPos.Unsigned.of_to in E. cbn [N.to_uint] in E.
  pose proof (DecimalPos.Unsigned.to_uint_nonzero p) as Z.
  pose proof (DecimalPos.Unsigned.to_uint_nonnil p) as N.
  destruct (Pos.to_uint p) as [|d| | | | | | | | |]; try exact I; [congruence|].
  rewrite DecimalFacts.unorm_D0 in E. unfold Decimal.unorm in E.
  pose proof (DecimalFacts.nzhead_nonzero d d) as NZ.
  destruct (Decimal.nzhead d); congruence.
Qed.

(** An integer below the limit has at most 4300 digits. *)
Lemma str_of_int_length (n : Z) :
  (0 <= n < int_str_limit)%Z ->
  N.of_nat (List.length (str_of_int n)) <= int_max_str_digits.
Proof.
  intros [Hn Hl]. destruct n as [|p|p]; [discriminate| |lia].
  unfold str_of_int. cbn [Z.to_int].
  pose proof (DecimalPos.Unsigned.of_to p) as E.
  pose proof (to_uint_canonical p) as C.
  assert (G : forall (d : Decimal.uint) (k : positive),
             Pos.of_uint_acc d k = p ->
             N.of_nat (S (List.length (uint_chars d))) <= int_max_str_digits).
  { intros d k Ek. pose proof (int_digits_acc d k) as I. rewrite Ek in I.
    apply int_digits_lower in I; [|apply uint_chars_digits|lia].
    assert (B : (10 ^ Z.of_nat (List.length (uint_chars d))
                 < 10 ^ Z.of_N int_max_str_digits)%Z).
    { unfold int_str_limit in Hl.
      assert (P : (0 < 10 ^ Z.of_nat (List.length (uint_chars d)))%Z)
        by (apply Z.pow_pos_nonneg; lia).
      nia. }
    apply Z.pow_lt_mono_r_iff in B; lia. }
  destruct (Pos.to_uint p) as [|d|d|d|d|d|d|d|d|d|d]; try contradiction;
    cbn [Pos.of_uint] in E; injection E as E;
    cbn [uint_chars]; exact (G d _ E).
Qed.

(** A string of ASCII digits is read by [cn2int] as [int] reads it. *)
Lemma cn2int_uint_chars (d : Decimal.uint) :
  uint_chars d <> [] ->
  N.of_nat (List.length (uint_chars d)) <= int_max_str_digits ->
  cn2int (uint_chars d) = Ret (Some (Z.of_N (Pos.of_uint d))).
Proof.
  intros Hne Hlen.
  assert (D : forallb (cls_mem CDigit) (uint_chars d) = true).
  { pose proof (uint_chars_digits d) as H. rewrite forallb_forall in H |- *.
    intros c Hc. now apply ascii_digit_facts, H. }
  assert (S : forallb (fun c => negb (isspace c)) (uint_chars d) = true).
  { rewrite forallb_forall in D |- *. intros c Hc.
    destruct (decimal_not_space c (D c Hc)) as [-> _]. reflexivity. }
  assert (I : isdigit (uint_chars d) = true).
  { unfold isdigit. destruct (uint_chars d) as [|c0 t0]; [congruence|].
    rewrite forallb_forall in D |- *. intros c Hc.
    now destruct (decimal_not_space c (D c Hc)). }
  rewrite cn2int_digits; rewrite (strip_id _ S); [|exact Hne|exact I].
  unfold builtin_int.
  replace (int_max_str_digits <? N.of_nat (List.length (uint_chars d)))
    with false by (symmetry; apply N.ltb_ge; exact Hlen).
  now rewrite int_digits_of_uint.
Qed.

Lemma cn2int_str_of_int (n : Z) :
  (0 <= n < int_str_limit)%Z -> cn2int (str_of_int n) = Ret (Some n).
Proof.
  intros Hn. pose proof (str_of_int_length n Hn) as L. revert L.
  unfold str_of_int.
  pose proof (DecimalZ.of_to n) as E.
  destruct (Z.to_int n) as [d|d] eqn:T.
  - intros L. rewrite cn2int_uint_chars.
    + cbn [Z.of_int] in E. unfold Z.of_uint in E. now rewrite E.
    + intros Hnil. destruct d; cbn [uint_chars] in Hnil; try discriminate.
      cbn in E. subst n. discriminate.
    + exact L.
  - exfalso. cbn [Z.of_int] in E. unfold Z.of_uint in E.
    assert (Z : n = 0%Z) by lia. rewrite Z in T. discriminate T.
Qed.

(** The decimal string of a negative integer is not a numeral text. *)
Lemma cn2int_str_of_int_neg (n : Z) :
  (n < 0)%Z -> cn2int (str_of_int n) = Ret None.
Proof.
  intros Hn. unfold str_of_int. destruct n as [|p|p]; try lia.
  cbn [Z.to_int].
  set (t := uint_chars (Pos.to_uint p)).
  assert (S : forallb (fun c => negb (isspace c)) (45 :: t) = true).
  { cbn [forallb]. change (negb (isspace 45)) with true. cbn [andb].
    pose proof (uint_chars_digits (Pos.to_uint p)) as H. fold t in H.
    rewrite forallb_forall in H |- *. intros c Hc.
    destruct (decimal_not_space c (proj1 (ascii_digit_facts c (H c Hc))))
      as [-> _]. reflexivity. }
  rewrite cn2int_numerals; rewrite (strip_id _ S); try discriminate; try reflexivity.
Qed.
End DecimalFacts.

(** What [cn2int] reads in the text that [int2cn] writes. *)
Lemma cn2int_numeral_spec {UT : UnicodeTables} (n : Z) :
  (Z.abs n < int_str_limit)%Z ->
  cn2int (numeral_spec n) = Ret (if (0 <=? n)%Z then Some n else None).
Proof.
  intros B. destruct (Z.leb_spec 0 n) as [Hn|Hn].
  - destruct (Z.ltb_spec n 1000) as [Small|Big].
    + pose proof (forallb_range round_trips 1000 round_trips_below_1000 n
                    (conj Hn Small)) as R.
      unfold round_trips in R. rewrite (int2cn_within n B) in R.
      destruct (cn2int (numeral_spec n)) as [[m|]| |]; try discriminate.
      apply Z.eqb_eq in R. now subst m.
    + rewrite numeral_spec_fallback by lia. apply cn2int_str_of_int. lia.
  - rewrite numeral_spec_fallback by lia. now apply cn2int_str_of_int_neg.
Qed.

(** The texts of the negative integers are their decimal forms. *)
Lemma numeral_spec_neg (n : Z) : (n < 0)%Z -> numeral_spec n = str_of_int n.
Proof.
  intros Hn. unfold numeral_spec.
  replace (n =? 0)%Z with false by (symmetry; apply Z.eqb_neq; lia).
  replace (1 <=? n)%Z with false by (symmetry; apply Z.leb_gt; lia).
  replace (10 <=? n)%Z with false by (symmetry; apply Z.leb_gt; lia).
  replace (100 <=? n)%Z with false by (symmetry; apply Z.leb_gt; lia).
  reflexivity.
Qed.

(** X1: [cn2int] reads back whatever text [int2cn] returns: the integer
    itself when it is 0 or more, the decimal fallback included, and [None]
    for the text of a negative integer.  [int2cn] returns a text for every
    integer of at most 4300 digits, and raises [ValueError] for the
    others. *)
Theorem int2cn_cn2int_all {UT : UnicodeTables} :
  (forall (n : Z) (t : str),
      int2cn n = Ret t ->
      cn2int t = Ret (if (0 <=? n)%Z then Some n else None))
  /\ (forall n : Z, (Z.abs n < int_str_limit)%Z -> exists t, int2cn n = Ret t)
  /\ (forall n : Z, (int_str_limit <= Z.abs n)%Z -> int2cn n = Raise ValueError).
Proof.
  split; [|split].
  - intros n t H. apply int2cn_ret in H. destruct H as [-> B].
    now apply cn2int_numeral_spec.
  - intros n B. exists (numeral_spec n). now apply int2cn_within.
  - intros n B. rewrite int2cn_spec.
    replace (Z.abs n <? int_str_limit)%Z with false; [reflexivity|].
    symmetry. now apply Z.ltb_ge.
Qed.

Lemma int2cn_cn2int_all_witness :
  int2cn 2024 = Ret (u8 "2024")
  /\ cn2int (UT := fragment_only) (u8 "2024") = Ret (Some 2024%Z).
Proof.
  assert (H : int2cn 2024 = Ret (u8 "2024")) by (vm_compute; reflexivity).
  split; [exact H|].
  exact (proj1 (int2cn_cn2int_all (UT := fragment_only)) 2024%Z (u8 "2024") H).
Defined.

(** X2: [int2cn] never gives two integers the same text. *)
Theorem int2cn_injective (a b : Z) (t : str) :
  int2cn a = Ret t -> int2cn b = Ret t -> a = b.
Proof.
  intros Ha Hb. apply int2cn_ret in Ha, Hb.
  destruct Ha as [Ea Ba]. destruct Hb as [Eb Bb].
  assert (E : numeral_spec a = numeral_spec b) by congruence.
  pose proof (cn2int_numeral_spec (UT := fragment_only) a Ba) as Ca.
  pose proof (cn2int_numeral_spec (UT := fragment_only) b Bb) as Cb.
  rewrite E in Ca. rewrite Ca in Cb.
  destruct (Z.leb_spec 0 a) as [Pa|Pa], (Z.leb_spec 0 b) as [Pb|Pb];
    try congruence.
  rewrite (numeral_spec_neg a Pa), (numeral_spec_neg b Pb) in E.
  now apply str_of_int_inj.
Qed.

Lemma int2cn_injective_witness :
  int2cn 15 = Ret (u8 "十五") /\ int2cn (10 + 5) = Ret (u8 "十五")
  /\ 15%Z = (10 + 5)%Z.
Proof.
  assert (Ha : int2cn 15 = Ret (u8 "十五")) by (vm_compute; reflexivity).
  assert (Hb : int2cn (10 + 5) = Ret (u8 "十五")) by (vm_compute; reflexivity).
  split; [exact Ha|]. split; [exact Hb|].
  exact (int2cn_injective 15 (10 + 5) (u8 "十五") Ha Hb).
Defined.

Lemma NUM_MAP_values (c : char) (v : Z) :
  char_get c NUM_MAP = Some v -> (0 <= v <= 9)%Z.
Proof.
  unfold NUM_MAP. cbn [char_get].
  repeat (destruct (c =? _); [intros [= <-]; lia|]). discriminate.
Qed.

Lemma UNIT_MAP_values (c : char) (v : Z) :
  char_get c UNIT_MAP = Some v -> (10 <= v <= 1000)%Z.
Proof.
  unfold UNIT_MAP. cbn [char_get].
  repeat (destruct (c =? _); [intros [= <-]; lia|]). discriminate.
Qed.

Lemma cn2int_loop_nonneg (s : str) (total current n : Z) :
  (0 <= total)%Z -> (0 <= current)%Z ->
  cn2int_loop s total current = Some n -> (0 <= n)%Z.
Proof.
  revert total current. induction s as [|c s IH]; intros total current Ht Hc;
    cbn [cn2int_loop].
  - intros [= <-]. lia.
  - destruct (char_get c NUM_MAP) as [v|] eqn:Ev.
    + apply NUM_MAP_values in Ev. apply IH; lia.
    + destruct (char_get c UNIT_MAP) as [u|] eqn:Eu.
      * apply UNIT_MAP_values in Eu. apply IH; [|lia].
        destruct (current =? 0)%Z; nia.
      * destruct (isspace c); [now apply IH | discriminate].
Qed.

(** X3: every integer that [cn2int] returns is at least 0, provided the
    decimal values of the database are. *)
Theorem cn2int_nonneg {UT : UnicodeTables} (s : str) (n : Z) :
  (forall c d, tbl_decimal c = Some d -> (0 <= d)%Z) ->
  cn2int s = Ret (Some n) -> (0 <= n)%Z.
Proof.
  intros Htbl. unfold cn2int. destruct (strip s) as [|c0 t0]; [discriminate|].
  destruct (isdigit (c0 :: t0)).
  - assert (G : forall (t : str) (acc m : Z),
               (0 <= acc)%Z -> int_digits t acc = Ret m -> (0 <= m)%Z).
    { induction t as [|c t IH]; intros acc m Ha; cbn [int_digits].
      - intros [= <-]. exact Ha.
      - destruct (decimal c) as [d|] eqn:Ed; [|discriminate].
        apply IH. unfold decimal in Ed. destruct (plain c).
        + destruct (ascii_digit c); [|discriminate]. injection Ed as <-. lia.
        + apply Htbl in Ed. lia. }
    unfold builtin_int. destruct (int_max_str_digits <? _); [discriminate|].
    destruct (int_digits (c0 :: t0) 0) as [m| |] eqn:E; cbn [bind];
      try discriminate.
    intros [= <-]. apply (G _ _ _ (Z.le_refl 0) E).
  - intros H.
    destruct (cn2int_loop (c0 :: t0) 0 0) as [m|] eqn:E; [|discriminate].
    apply Ret_Some_inj in H. subst m.
    apply (cn2int_loop_nonneg _ _ _ _ (Z.le_refl 0) (Z.le_refl 0) E).
Qed.

Lemma cn2int_nonneg_witness :
  cn2int (UT := fragment_only) (u8 " 贰佰零叁 ") = Ret (Some 203%Z)
  /\ (0 <= 203)%Z.
Proof.
  split; [vm_compute; reflexivity|].
  apply (cn2int_nonneg (UT := fragment_only) (u8 " 贰佰零叁 ") 203);
    [intros c d; discriminate | vm_compute; reflexivity].
Defined.

(** ** What the sanitizer leaves *)

Lemma lstrip_suffix (p : char -> bool) (s : str) :
  exists d, s = d ++ lstrip_with p s.
Proof.
  induction s as [|c s [d IH]]; [now exists []|]. cbn [lstrip_with].
  destruct (p c); [|now exists []].
  exists (c :: d). cbn [app]. now rewrite <- IH.
Qed.

Lemma rstrip_prefix (p : char -> bool) (s : str) :
  exists r, s = rstrip_with p s ++ r.
Proof.
  induction s as [|c s [r IH]]; [now exists []|]. rewrite rstrip_cons.
  destruct (rstrip_with p s) as [|d t].
  - destruct (p c); [now exists (c :: s) | now exists s].
  - exists r. cbn [app] in *. now rewrite <- IH.
Qed.

Lemma rstrip_last (p : char -> bool) (s x : str) (y : char) :
  rstrip_with p s = x ++ [y] -> p y = false.
Proof.
  unfold rstrip_with. intros H. apply (f_equal (@rev char)) in H.
  rewrite rev_involutive, rev_unit in H. now apply lstrip_head in H.
Qed.

Lemma collapse_spaces_space (b : bool) (s : str) (c : char) :
  In c (collapse_spaces b s) -> isspace c = true -> c = ch " ".
Proof.
  revert b. induction s as [|d s IH]; intros b; cbn [collapse_spaces];
    [intros []|].
  destruct (isspace d) eqn:E.
  - destruct b; cbn [In]; [apply IH|]. intros [<-|H]; [reflexivity | now apply (IH true)].
  - cbn [In]. intros [<-|H]; [congruence | now apply (IH false)].
Qed.

(** After the collapse no two spaces are neighbours, and in a run nothing
    starts with a space. *)
Lemma collapse_spaces_single (b : bool) (s a r : str) :
  collapse_spaces b s = a ++ ch " " :: ch " " :: r -> False.
Proof.
  assert (G : forall s b,
             (forall a r, collapse_spaces b s <> a ++ ch " " :: ch " " :: r)
             /\ (b = true -> forall r, collapse_spaces b s <> ch " " :: r)).
  { clear. induction s as [|d s IH]; intros b; cbn [collapse_spaces].
    - split; [intros [|? ?] r; discriminate | discriminate].
    - destruct (isspace d) eqn:E.
      + destruct b.
        * apply IH.
        * split; [|discriminate]. intros [|x a] r; cbn [app].
          -- intros [= H]. now apply (proj2 (IH true) eq_refl) in H.
          -- intros [= _ H]. now apply (proj1 (IH true)) in H.
      + split.
        * intros [|x a] r; cbn [app].
          -- intros [= -> _]. discriminate.
          -- intros [= _ H]. now apply (proj1 (IH false)) in H.
        * intros _ r [= -> _]. discriminate. }
  intros H. now apply (proj1 (G s b)) in H.
Qed.

(** The result of the sanitizer is a run of the text after the collapse. *)
Lemma sanitize_spec_infix (text : str) :
  exists pre post,
    collapse_spaces false (replace_illegal text) = pre ++ sanitize_spec text ++ post.
Proof.
  unfold sanitize_spec, strip_trailing, strip_ends.
  set (x := collapse_spaces false (replace_illegal text)).
  destruct (lstrip_suffix is_connector x) as (d & Hd).
  destruct (rstrip_prefix is_connector (lstrip_with is_connector x)) as (r1 & H1).
  destruct (rstrip_prefix (fun c => (c =? ch " ") || (c =? ch "."))
              (rstrip_with is_connector (lstrip_with is_connector x)))
    as (r2 & H2).
  exists d, (r2 ++ r1). rewrite (app_assoc _ r2 r1), <- H2, <- H1. exact Hd.
Qed.

(** X4: the result of [sanitize_component] holds none of the characters
    that are illegal in a file name, its only white space is the space, and
    no two spaces are neighbours. *)
Theorem sanitize_component_characters {UT : UnicodeTables} (text : str) :
  (forall c, In c (sanitize_component text) ->
             illegal c = false /\ (isspace c = true -> c = ch " "))
  /\ (forall a r, sanitize_component text <> a ++ ch " " :: ch " " :: r).
Proof.
  rewrite sanitize_steps.
  destruct (sanitize_spec_infix text) as (pre & post & E). split.
  - intros c Hc. split; [now apply sanitize_spec_legal in Hc|].
    apply (collapse_spaces_space false (replace_illegal text)).
    rewrite E. apply in_or_app. right. apply in_or_app. now left.
  - intros a r H. rewrite H in E.
    apply (collapse_spaces_single false (replace_illegal text) (pre ++ a) (r ++ post)).
    rewrite E, <- !app_assoc. reflexivity.
Qed.

(** X5: the result of [sanitize_component] does not begin with white space
    or a connector, and does not end with a space or a period. *)
Theorem sanitize_component_ends {UT : UnicodeTables} (text : str) :
  (forall c r, sanitize_component text = c :: r -> is_connector c = false)
  /\ (forall r c, sanitize_component text = r ++ [c] ->
                  c <> ch " " /\ c <> ch ".").
Proof.
  rewrite sanitize_steps. unfold sanitize_spec, strip_trailing, strip_ends. split.
  - intros c r H.
    set (x := lstrip_with is_connector
                (collapse_spaces false (replace_illegal text))) in *.
    destruct (rstrip_prefix is_connector x) as (r1 & H1).
    destruct (rstrip_prefix (fun c => (c =? ch " ") || (c =? ch "."))
                (rstrip_with is_connector x)) as (r2 & H2).
    rewrite H in H2. rewrite H2 in H1. cbn [app] in H1.
    now apply lstrip_head in H1.
  - intros r c H. apply rstrip_last in H. apply orb_false_elim in H.
    destruct H as [H1 H2]. apply N.eqb_neq in H1, H2. now split.
Qed.

(** ** Dictionaries and the group index *)

Lemma dict_set_In {V} (k k0 : str) (v v0 : V) (d : dict V) :
  In (k, v) (dict_set k0 v0 d) -> (k = k0 /\ v = v0) \/ In (k, v) d.
Proof.
  induction d as [|[k' v'] d IH]; cbn [dict_set].
  - intros [[= <- <-]|[]]. now left.
  - destruct (str_eqb k0 k') eqn:E.
    + apply str_eqb_eq in E. subst k'. intros [[= <- <-]|H]; [now left|].
      right. now right.
    + intros [H|H]; [right; now left|]. destruct (IH H); [now left|].
      right. now right.
Qed.

Lemma dict_set_keys {V} (k0 : str) (v0 : V) (d : dict V) (k : str) :
  In k (map fst (dict_set k0 v0 d)) <-> k = k0 \/ In k (map fst d).
Proof.
  induction d as [|[k' v'] d IH]; cbn [dict_set map fst In].
  - intuition.
  - destruct (str_eqb k0 k') eqn:E; cbn [map fst In].
    + apply str_eqb_eq in E. subst k'. intuition.
    + rewrite IH. intuition.
Qed.

Lemma dict_set_NoDup {V} (k0 : str) (v0 : V) (d : dict V) :
  NoDup (map fst d) -> NoDup (map fst (dict_set k0 v0 d)).
Proof.
  induction d as [|[k' v'] d IH]; cbn [dict_set map fst]; intros H.
  - constructor; [intros []|constructor].
  - inversion H as [|x l Hx Hl]; subst.
    destruct (str_eqb k0 k') eqn:E; cbn [map fst].
    + now constructor.
    + constructor; [|now apply IH].
      rewrite dict_set_keys. intros [->|Hin]; [|contradiction].
      now rewrite str_eqb_refl in E.
Qed.

(** Insert then look up. *)
Lemma dict_get_set_same {V} (k : str) (v : V) (d : dict V) :
  dict_get k (dict_set k v d) = Some v.
Proof.
  induction d as [|[k' v'] d IH]; cbn [dict_set dict_get].
  - now rewrite str_eqb_refl.
  - destruct (str_eqb k k') eqn:E; cbn [dict_get]; now rewrite E.
Qed.

Lemma dict_get_set_other {V} (k k0 : str) (v : V) (d : dict V) :
  k <> k0 -> dict_get k (dict_set k0 v d) = dict_get k d.
Proof.
  intros N. induction d as [|[k' v'] d IH]; cbn [dict_set dict_get].
  - destruct (str_eqb k k0) eqn:E; [|reflexivity].
    apply str_eqb_eq in E. contradiction.
  - destruct (str_eqb k0 k') eqn:E; cbn [dict_get].
    + apply str_eqb_eq in E. subst k'.
      destruct (str_eqb k k0) eqn:E'; [|reflexivity].
      apply str_eqb_eq in E'. contradiction.
    + now rewrite IH.
Qed.

Lemma dict_get_In_key {V} (k : str) (d : dict V) :
  In k (map fst d) -> exists v, dict_get k d = Some v.
Proof.
  induction d as [|[k' v'] d IH]; cbn [map fst In dict_get]; [intros []|].
  destruct (str_eqb k k') eqn:E; [now eexists|].
  intros [->|H]; [now rewrite str_eqb_refl in E | now apply IH].
Qed.

Lemma dict_get_NoDup {V} (k : str) (v : V) (d : dict V) :
  NoDup (map fst d) -> In (k, v) d -> dict_get k d = Some v.
Proof.
  induction d as [|[k' v'] d IH]; cbn [map fst In dict_get]; [intros _ []|].
  intros H Hin. inversion H as [|x l Hx Hl]; subst.
  destruct Hin as [[= -> ->]|Hin]; [now rewrite str_eqb_refl|].
  destruct (str_eqb k k') eqn:E; [|now apply IH].
  apply str_eqb_eq in E. subst k'. exfalso. apply Hx.
  now apply (in_map fst) in Hin.
Qed.

Section IndexFacts.
Context {UT : UnicodeTables}.

Lemma index_aliases_canonical (g : str) (aliases : list str) (G : index) :
  GROUP_TO_CANONICAL_MODEL (index_aliases g aliases G) = GROUP_TO_CANONICAL_MODEL G.
Proof.
  revert G. induction aliases as [|alias aliases IH]; intros G;
    cbn [index_aliases]; [reflexivity|].
  destruct (strip alias); [apply IH|]. now rewrite IH.
Qed.

(** The entries after the aliases of one group: the old ones, and one for
    each alias that is not empty. *)
Lemma index_aliases_entries (g : str) (aliases : list str) (G : index)
  (e : str * (str * str)) :
  In e (NORMALIZED_MODEL_TO_GROUP (index_aliases g aliases G)) ->
  In e (NORMALIZED_MODEL_TO_GROUP G)
  \/ exists alias, In alias aliases /\ strip alias <> []
       /\ e = (normalize_model_key (strip alias), (g, strip alias)).
Proof.
  revert G. induction aliases as [|alias aliases IH]; intros G;
    cbn [index_aliases]; [now left|].
  destruct (strip alias) as [|c t] eqn:E.
  - intros H. destruct (IH _ H) as [H'|(x & Hx & Hs & He)]; [now left|].
    right. exists x. split; [now right | now split].
  - intros H. destruct (IH _ H) as [H'|(x & Hx & Hs & He)].
    + cbn [NORMALIZED_MODEL_TO_GROUP] in H'. destruct e as [k v].
      apply dict_set_In in H'. destruct H' as [[-> ->]|H']; [|now left].
      right. exists alias. rewrite E. split; [now left|]. split; [discriminate|reflexivity].
    + right. exists x. split; [now right | now split].
Qed.

Lemma index_aliases_keys (g : str) (aliases : list str) (G : index) (k : str) :
  In k (map fst (NORMALIZED_MODEL_TO_GROUP (index_aliases g aliases G))) <->
  In k (map fst (NORMALIZED_MODEL_TO_GROUP G))
  \/ exists alias, In alias aliases /\ strip alias <> []
       /\ k = normalize_model_key (strip alias).
Proof.
  revert G. induction aliases as [|alias aliases IH]; intros G;
    cbn [index_aliases].
  - split; [now left|]. intros [H|(x & [] & _)]. exact H.
  - destruct (strip alias) as [|c t] eqn:E.
    + rewrite IH. split.
      * intros [H|(x & Hx & Hs & He)]; [now left|].
        right. exists x. split; [now right | now split].
      * intros [H|(x & [<-|Hx] & Hs & He)]; [now left | congruence |].
        right. exists x. now split.
    + rewrite IH. cbn [NORMALIZED_MODEL_TO_GROUP]. rewrite dict_set_keys. split.
      * intros [[->|H]|(x & Hx & Hs & He)].
        -- right. exists alias. rewrite E. split; [now left|]. split; [discriminate|reflexivity].
        -- now left.
        -- right. exists x. split; [now right | now split].
      * intros [H|(x & [<-|Hx] & Hs & He)].
        -- left. now right.
        -- left. left. now rewrite <- E.
        -- right. exists x. now split.
Qed.

Lemma index_aliases_NoDup (g : str) (aliases : list str) (G : index) :
  NoDup (map fst (NORMALIZED_MODEL_TO_GROUP G)) ->
  NoDup (map fst (NORMALIZED_MODEL_TO_GROUP (index_aliases g aliases G))).
Proof.
  revert G. induction aliases as [|alias aliases IH]; intros G H;
    cbn [index_aliases]; [exact H|].
  destruct (strip alias); [now apply IH|].
  apply IH. cbn [NORMALIZED_MODEL_TO_GROUP]. now apply dict_set_NoDup.
Qed.

Lemma index_groups_entries (groups : list (str * list str)) (G : index)
  (e : str * (str * str)) :
  In e (NORMALIZED_MODEL_TO_GROUP (index_groups groups G)) ->
  In e (NORMALIZED_MODEL_TO_GROUP G)
  \/ exists g aliases alias,
       In (g, aliases) groups /\ In alias aliases /\ strip alias <> []
       /\ e = (normalize_model_key (strip alias), (g, strip alias)).
Proof.
  revert G. induction groups as [|[g aliases] groups IH]; intros G;
    cbn [index_groups]; [now left|].
  intros H. destruct (IH _ H) as [H'|(g' & al & x & Hg & Hx & Hs & He)].
  - apply index_aliases_entries in H'.
    destruct H' as [H'|(x & Hx & Hs & He)].
    + left. now destruct aliases.
    + right. exists g, aliases, x. split; [now left | now repeat split].
  - right. exists g', al, x. split; [now right | now repeat split].
Qed.

Lemma index_groups_keys (groups : list (str * list str)) (G : index) (k : str) :
  In k (map fst (NORMALIZED_MODEL_TO_GROUP (index_groups groups G))) <->
  In k (map fst (NORMALIZED_MODEL_TO_GROUP G))
  \/ exists g aliases alias,
       In (g, aliases) groups /\ In alias aliases /\ strip alias <> []
       /\ k = normalize_model_key (strip alias).
Proof.
  revert G. induction groups as [|[g aliases] groups IH]; intros G;
    cbn [index_groups].
  - split; [now left|]. intros [H|(g & al & x & [] & _)]. exact H.
  - rewrite IH, index_aliases_keys. split.
    + intros [[H|(x & Hx & Hs & He)]|(g' & al & x & Hg & Hx & Hs & He)].
      * left. now destruct aliases.
      * right. exists g, aliases, x. split; [now left | now repeat split].
      * right. exists g', al, x. split; [now right | now repeat split].
    + intros [H|(g' & al & x & [[= <- <-]|Hg] & Hx & Hs & He)].
      * left. left. now destruct aliases.
      * left. right. exists x. now repeat split.
      * right. exists g', al, x. now repeat split.
Qed.

Lemma index_groups_NoDup (groups : list (str * list str)) (G : index) :
  NoDup (map fst (NORMALIZED_MODEL_TO_GROUP G)) ->
  NoDup (map fst (NORMALIZED_MODEL_TO_GROUP (index_groups groups G))).
Proof.
  revert G. induction groups as [|[g aliases] groups IH]; intros G H;
    cbn [index_groups]; [exact H|].
  apply IH, index_aliases_NoDup. now destruct aliases.
Qed.

Lemma index_groups_canonical_other (groups : list (str * list str))
  (G : index) (g : str) :
  ~ In g (map fst groups) ->
  dict_get g (GROUP_TO_CANONICAL_MODEL (index_groups groups G))
  = dict_get g (GROUP_TO_CANONICAL_MODEL G).
Proof.
  revert G. induction groups as [|[g' aliases] groups IH]; intros G N;
    cbn [index_groups]; [reflexivity|].
  cbn [map fst In] in N. rewrite IH by tauto.
  rewrite index_aliases_canonical. destruct aliases; [reflexivity|].
  cbn [GROUP_TO_CANONICAL_MODEL]. apply dict_get_set_other. intros ->. tauto.
Qed.

Lemma index_groups_canonical (groups : list (str * list str)) (G : index)
  (g first : str) (others : list str) :
  NoDup (map fst groups) -> In (g, first :: others) groups ->
  dict_get g (GROUP_TO_CANONICAL_MODEL (index_groups groups G))
  = Some (strip first).
Proof.
  revert G. induction groups as [|[g' aliases] groups IH]; intros G N H;
    [destruct H|].
  cbn [map fst] in N. inversion N as [|x l Hx Hl]; subst.
  cbn [index_groups]. destruct H as [[= -> ->]|H].
  - rewrite index_groups_canonical_other by exact Hx.
    rewrite index_aliases_canonical. cbn [GROUP_TO_CANONICAL_MODEL].
    apply dict_get_set_same.
  - now apply IH.
Qed.
End IndexFacts.

(** X6: after [init_group_index] every entry of the normalised map comes
    from the table (its key is the normalisation of its alias, which is the
    stripped, non-empty form of an alias of its group), no key occurs twice,
    and every alias of the table that is not empty has its key in the map,
    with an alias of the same normalisation. *)
Theorem init_group_index_invariant {UT : UnicodeTables}
  (table : list (str * list str)) (G0 : index) :
  (forall e, In e (NORMALIZED_MODEL_TO_GROUP (init_group_index table G0)) ->
             entry_of_table table e)
  /\ NoDup (map fst (NORMALIZED_MODEL_TO_GROUP (init_group_index table G0)))
  /\ (forall g aliases alias,
        In (g, aliases) table -> In alias aliases -> strip alias <> [] ->
        exists g' a',
          dict_get (normalize_model_key (strip alias))
                   (NORMALIZED_MODEL_TO_GROUP (init_group_index table G0))
          = Some (g', a')
          /\ normalize_model_key a' = normalize_model_key (strip alias)).
Proof.
  unfold init_group_index.
  assert (E : forall e,
             In e (NORMALIZED_MODEL_TO_GROUP (index_groups table (Index [] [] []))) ->
             entry_of_table table e).
  { intros e H. apply index_groups_entries in H.
    destruct H as [[]|(g & al & x & Hg & Hx & Hs & ->)].
    unfold entry_of_table. cbn [fst snd]. split; [reflexivity|].
    split; [exact Hs|]. now exists al, x. }
  split; [exact E|]. split; [apply index_groups_NoDup; constructor|].
  intros g aliases alias Hg Ha Hs.
  assert (K : In (normalize_model_key (strip alias))
                 (map fst (NORMALIZED_MODEL_TO_GROUP
                             (index_groups table (Index [] [] []))))).
  { apply index_groups_keys. right. now exists g, aliases, alias. }
  apply dict_get_In_key in K. destruct K as ([g' a'] & K).
  exists g', a'. split; [exact K|].
  apply dict_get_In, E in K. destruct K as [K _]. cbn [fst snd] in K.
  now symmetry.
Qed.

Lemma init_group_index_invariant_witness :
  In (u8 "findx8pro", (u8 "1-3", u8 "findx8pro"))
     (NORMALIZED_MODEL_TO_GROUP
        (init_group_index (UT := fragment_only) PHONE_GROUPS (Index [] [] [])))
  /\ entry_of_table (UT := fragment_only) PHONE_GROUPS
       (u8 "findx8pro", (u8 "1-3", u8 "findx8pro")).
Proof.
  assert (H : In (u8 "findx8pro", (u8 "1-3", u8 "findx8pro"))
                 (NORMALIZED_MODEL_TO_GROUP
                    (init_group_index (UT := fragment_only) PHONE_GROUPS
                       (Index [] [] [])))).
  { vm_compute. do 6 right. left. reflexivity. }
  split; [exact H|].
  apply (proj1 (init_group_index_invariant (UT := fragment_only) PHONE_GROUPS
                  (Index [] [] []))
               (u8 "findx8pro", (u8 "1-3", u8 "findx8pro"))).
  exact H.
Defined.

(** X7: when no group is listed twice, the canonical model that
    [init_group_index] records for a group is its first alias, stripped;
    the last assignment wins in the normalised map, but no later group can
    take a canonical model away. *)
Theorem init_group_index_canonical {UT : UnicodeTables}
  (table : list (str * list str)) (G0 : index)
  (g first : str) (others : list str) :
  NoDup (map fst table) -> In (g, first :: others) table ->
  dict_get g (GROUP_TO_CANONICAL_MODEL (init_group_index table G0))
  = Some (strip first).
Proof.
  intros N H. unfold init_group_index.
  exact (index_groups_canonical table (Index [] [] []) g first others N H).
Qed.

Lemma init_group_index_canonical_witness :
  dict_get (u8 "B")
    (GROUP_TO_CANONICAL_MODEL
       (init_group_index (UT := fragment_only)
          [(u8 "A", [u8 "x8"]); (u8 "B", [u8 " Find X8 "; u8 "x8"])]
          (Index [] [] [])))
  = Some (strip (u8 " Find X8 ")).
Proof.
  apply (init_group_index_canonical (UT := fragment_only)
           [(u8 "A", [u8 "x8"]); (u8 "B", [u8 " Find X8 "; u8 "x8"])]
           (Index [] [] []) (u8 "B") (u8 " Find X8 ") [u8 "x8"]).
  - cbn [map fst]. constructor.
    + intros [H|[]]. vm_compute in H. discriminate H.
    + constructor; [intros []|constructor].
  - right. left. reflexivity.
Defined.

(** ** What [find_group_for_model] answers *)

Lemma prefix_of_refl (a : str) : prefix_of a a = true.
Proof.
  induction a as [|c a IH]; [reflexivity|]. cbn [prefix_of].
  now rewrite N.eqb_refl, IH.
Qed.

Lemma str_in_refl (a : str) : str_in a a = true.
Proof. destruct a; cbn [str_in]; now rewrite prefix_of_refl. Qed.

Lemma longest_bound (tbl : dict (str * str)) (e : str * (str * str)) :
  In e tbl -> (List.length (fst e) <= longest tbl)%nat.
Proof.
  induction tbl as [|x tbl IH]; cbn [In longest fold_right]; [intros []|].
  change (fold_right _ 0%nat tbl) with (longest tbl).
  intros [->|H]; [apply Nat.le_max_l|].
  etransitivity; [exact (IH H) | apply Nat.le_max_r].
Qed.

Lemma longest_attained (tbl : dict (str * str)) :
  tbl <> [] -> exists e, In e tbl /\ List.length (fst e) = longest tbl.
Proof.
  induction tbl as [|x tbl IH]; [congruence|]. intros _.
  cbn [longest fold_right]. change (fold_right _ 0%nat tbl) with (longest tbl).
  destruct (Nat.le_gt_cases (longest tbl) (List.length (fst x))) as [L|L].
  - exists x. split; [now left | symmetry; now apply Nat.max_l].
  - destruct tbl as [|y tbl]; [cbn in L; lia|].
    destruct IH as (e & He & Le); [discriminate|].
    exists e. split; [now right|]. rewrite Le. symmetry. apply Nat.max_r.
    apply Nat.lt_le_incl. exact L.
Qed.

Lemma first_longest_some (tbl : dict (str * str)) (e : str * (str * str)) :
  first_longest tbl = Some e ->
  In e tbl /\ forall x, In x tbl -> (List.length (fst x) <= List.length (fst e))%nat.
Proof.
  unfold first_longest. intros H. apply find_some in H. destruct H as [H L].
  apply Nat.eqb_eq in L. split; [exact H|].
  intros x Hx. etransitivity; [exact (longest_bound tbl x Hx)|].
  apply Nat.eq_le_incl. symmetry. exact L.
Qed.

Lemma first_longest_none (tbl : dict (str * str)) :
  first_longest tbl = None -> tbl = [].
Proof.
  unfold first_longest. intros H. destruct tbl as [|x tbl]; [reflexivity|].
  destruct (longest_attained (x :: tbl)) as (e & He & Le); [discriminate|].
  apply (find_none _ _ H) in He. apply Nat.eqb_neq in He. contradiction.
Qed.

(** X8: what [find_group_for_model] answers is an entry of the normalised
    map whose key contains the key of the text or is contained in it; when
    the key of the text is not itself a key of the map, no entry that
    matches has a longer key; and there is no answer only when no entry
    matches. *)
Theorem find_group_for_model_answer {UT : UnicodeTables} (G : index) (s : str) :
  match find_group_for_model G s with
  | (Some g, Some a) =>
      exists k,
        In (k, (g, a)) (NORMALIZED_MODEL_TO_GROUP G)
        /\ contains_either (normalize_model_key s) k = true
        /\ (k = normalize_model_key s
            \/ forall e, In e (NORMALIZED_MODEL_TO_GROUP G) ->
                 contains_either (normalize_model_key s) (fst e) = true ->
                 (List.length (fst e) <= List.length k)%nat)
  | (None, None) =>
      forall e, In e (NORMALIZED_MODEL_TO_GROUP G) ->
        contains_either (normalize_model_key s) (fst e) = false
  | _ => False
  end.
Proof.
  rewrite find_group_is_resolve. unfold resolve_spec.
  rewrite <- normalize_is_filter. set (key := normalize_model_key s).
  destruct (dict_get key (NORMALIZED_MODEL_TO_GROUP G)) as [[g a]|] eqn:E.
  - exists key. split; [now apply dict_get_In|]. split; [|now left].
    unfold contains_either. now rewrite str_in_refl.
  - destruct (first_longest _) as [[k [g a]]|] eqn:F.
    + apply first_longest_some in F. destruct F as [F M].
      unfold matching_entries in F. apply filter_In in F. cbn [fst] in F.
      destruct F as [F C]. exists k. split; [exact F|]. split; [exact C|].
      right. intros e He Ce. apply (M e). unfold matching_entries.
      apply filter_In. now split.
    + apply first_longest_none in F. intros e He.
      destruct (contains_either key (fst e)) eqn:C; [|reflexivity].
      assert (In e (matching_entries key (NORMALIZED_MODEL_TO_GROUP G)))
        as X by (unfold matching_entries; apply filter_In; now split).
      rewrite F in X. destruct X.
Qed.

(** An answer is an entry of the normalised map that matches the text. *)
Lemma find_group_answer_entry {UT : UnicodeTables} (G : index) (s g a : str) :
  find_group_for_model G s = (Some g, Some a) ->
  exists k,
    In (k, (g, a)) (NORMALIZED_MODEL_TO_GROUP G)
    /\ contains_either (normalize_model_key s) k = true.
Proof.
  rewrite find_group_is_resolve. unfold resolve_spec.
  rewrite <- normalize_is_filter. set (key := normalize_model_key s).
  destruct (dict_get key (NORMALIZED_MODEL_TO_GROUP G)) as [[g' a']|] eqn:E.
  - intros X. assert (g' = g) by congruence. assert (a' = a) by congruence.
    subst g' a'. exists key. split; [now apply dict_get_In|].
    unfold contains_either. now rewrite str_in_refl.
  - destruct (first_longest _) as [[k [g' a']]|] eqn:F; [|discriminate].
    intros X. assert (g' = g) by congruence. assert (a' = a) by congruence.
    subst g' a'. apply first_longest_some in F. destruct F as [F _].
    unfold matching_entries in F. apply filter_In in F. cbn [fst] in F.
    destruct F as [F C]. now exists k.
Qed.

(** X9: with the index built from a table, the answer is a group of the
    table together with one of the aliases listed for it, stripped, and the
    normalised alias contains the normalised text or is contained in it. *)
Theorem find_group_for_model_of_table {UT : UnicodeTables}
  (table : list (str * list str)) (G0 : index) (s g a : str) :
  find_group_for_model (init_group_index table G0) s = (Some g, Some a) ->
  a <> []
  /\ contains_either (normalize_model_key s) (normalize_model_key a) = true
  /\ exists aliases alias,
       In (g, aliases) table /\ In alias aliases /\ a = strip alias.
Proof.
  intros H.
  destruct (find_group_answer_entry _ _ _ _ H) as (k & Hk & C).
  unfold init_group_index in Hk. apply index_groups_entries in Hk.
  destruct Hk as [[]|(g' & al & x & Hg & Hx & Hs & E)].
  assert (k = normalize_model_key (strip x)) by congruence.
  assert (g = g') by congruence. assert (a = strip x) by congruence.
  subst k g' a. split; [exact Hs|]. split; [exact C|]. now exists al, x.
Qed.

Lemma find_group_for_model_of_table_witness :
  u8 "oppofindx8pro" <> []
  /\ contains_either (normalize_model_key (UT := fragment_only) (u8 "OPPO Find-X8 Pro max"))
       (normalize_model_key (UT := fragment_only) (u8 "oppofindx8pro")) = true
  /\ exists aliases alias,
       In (u8 "1-3", aliases) PHONE_GROUPS /\ In alias aliases
       /\ u8 "oppofindx8pro" = strip alias.
Proof.
  apply (find_group_for_model_of_table (UT := fragment_only) PHONE_GROUPS
           (Index [] [] []) (u8 "OPPO Find-X8 Pro max") (u8 "1-3")
           (u8 "oppofindx8pro")).
  vm_compute. reflexivity.
Defined.

(** X10: in the table of the program no alias is shadowed by another
    group: a text that normalises like an alias of a group is answered with
    that group, and with an alias of that group that normalises the same
    way. *)
Theorem PHONE_GROUPS_aliases_resolve {UT : UnicodeTables}
  (g : str) (aliases : list str) (alias s : str) :
  In (g, aliases) PHONE_GROUPS -> In alias aliases ->
  normalize_model_key s = normalize_model_key alias ->
  exists a,
    find_group_for_model loaded s = (Some g, Some a)
    /\ In a aliases
    /\ normalize_model_key a = normalize_model_key s.
Proof.
  intros Hg Ha Hs.
  assert (C : forallb
                (fun ga : str * list str =>
                   forallb
                     (fun x : str =>
                        match dict_get (normalize_model_key x)
                                (NORMALIZED_MODEL_TO_GROUP loaded) with
                        | Some (g', a') =>
                            str_eqb g' (fst ga)
                            && existsb (str_eqb a') (snd ga)
                            && str_eqb (normalize_model_key a')
                                       (normalize_model_key x)
                        | None => false
                        end)
                     (snd ga))
                PHONE_GROUPS = true) by (vm_compute; reflexivity).
  rewrite forallb_forall in C. specialize (C (g, aliases) Hg).
  rewrite forallb_forall in C. specialize (C alias Ha). cbn [fst snd] in C.
  unfold find_group_for_model. rewrite Hs.
  destruct (dict_get (normalize_model_key alias)
              (NORMALIZED_MODEL_TO_GROUP loaded)) as [[g' a']|];
    [|discriminate C].
  apply andb_prop in C. destruct C as [C C3].
  apply andb_prop in C. destruct C as [C1 C2].
  apply str_eqb_eq in C1, C3. subst g'.
  apply existsb_exists in C2. destruct C2 as (y & Hy & E).
  apply str_eqb_eq in E. subst y.
  exists a'. split; [reflexivity|]. split; [exact Hy | exact C3].
Qed.

Lemma PHONE_GROUPS_aliases_resolve_witness :
  exists a,
    find_group_for_model (UT := fragment_only) (loaded (UT := fragment_only))
      (u8 "VIVO_iQOO-13")
    = (Some (u8 "1-4"), Some a)
    /\ In a [u8 "vivo iqoo13"; u8 "vivoiqoo13"; u8 "iqoo13"]
    /\ normalize_model_key (UT := fragment_only) a
       = normalize_model_key (UT := fragment_only) (u8 "VIVO_iQOO-13").
Proof.
  apply (PHONE_GROUPS_aliases_resolve (UT := fragment_only) (u8 "1-4")
           [u8 "vivo iqoo13"; u8 "vivoiqoo13"; u8 "iqoo13"]
           (u8 "vivo iqoo13") (u8 "VIVO_iQOO-13")).
  - vm_compute. do 3 right. left. reflexivity.
  - left. reflexivity.
  - vm_compute. reflexivity.
Defined.

(** ** What the pattern extracts *)

Section ExtractionFacts.
Context {UT : UnicodeTables}.

(** The marker: white space, 第, white space. *)
Lemma PATTERN_marker_pieces (a b : mstate) :
  matched PATTERN_marker a b ->
  exists s1 s2,
    rest a = s1 ++ [ch "第"] ++ s2 ++ rest b
    /\ forallb isspace s1 = true /\ forallb isspace s2 = true
    /\ groups b = groups a.
Proof.
  unfold PATTERN_marker. cbn [matched].
  intros (k1 & (v1 & _ & Hv1 & Hr1 & Hg1) & k2 & Hlit
          & (v2 & _ & Hv2 & Hr2 & Hg2)).
  change (u8 "第") with [ch "第"] in Hlit.
  apply matched_lit in Hlit. destruct Hlit as [Hr Hg].
  exists v1, v2. rewrite Hr1, Hr, Hr2. repeat split; try assumption.
  congruence.
Qed.

(** The point: white space, an optional 个, white space, 点, an optional
    位. *)
Lemma PATTERN_point_pieces (a b : mstate) :
  matched PATTERN_point a b ->
  exists s3 ge s4 wei,
    rest a = s3 ++ ge ++ s4 ++ [ch "点"] ++ wei ++ rest b
    /\ forallb isspace s3 = true /\ forallb isspace s4 = true
    /\ (ge = [] \/ ge = [ch "个"])
    /\ groups b = groups a.
Proof.
  unfold PATTERN_point. cbn [matched].
  intros (p1 & (x1 & _ & Hx1 & Hp1 & Gp1) & p2 & Hge
          & p3 & (x2 & _ & Hx2 & Hp3 & Gp3) & p4 & Hdian & Hwei).
  change (u8 "点") with [ch "点"] in Hdian.
  apply matched_lit in Hdian. destruct Hdian as [Hp4 Gp4].
  assert (exists wei, rest p4 = wei ++ rest b /\ groups b = groups p4)
    as (wei & Hw & Gw).
  { destruct Hwei as [Hwei| ->]; [|now exists []].
    apply matched_lit in Hwei. destruct Hwei as [Hwei G]. eexists.
    split; [exact Hwei | exact G]. }
  assert (exists ge, rest p1 = ge ++ rest p2 /\ groups p2 = groups p1
                     /\ (ge = [] \/ ge = [ch "个"])) as (ge & Hge1 & Gge & Hge2).
  { destruct Hge as [Hge| ->]; [|exists []; repeat split; now left].
    change (u8 "个") with [ch "个"] in Hge.
    apply matched_lit in Hge. destruct Hge as [Hge G].
    exists [ch "个"]. repeat split; [exact Hge | exact G | now right]. }
  exists x1, ge, x2, wei. rewrite Hp1, Hge1, Hp3, Hp4, Hw.
  repeat split; try assumption. congruence.
Qed.

(** A text that the pattern matches holds 第 and 点. *)
Lemma PATTERN_markers (text : str) (m : mstate) :
  re_search PATTERN text = Some m ->
  In (ch "第") text /\ In (ch "点") text.
Proof.
  intros H. unfold re_search in H.
  apply (search_from_prefix PATTERN (start text) m text eq_refl) in H.
  destruct H as (st & d & H & Hd).
  unfold PATTERN in H. cbn [matched] in H.
  destruct H as (s1 & Hpre & s2 & Hmodel & s3 & Hmark & s4 & Hnum
                 & s5 & Hpoint & _).
  apply matched_consumed in Hpre, Hmodel, Hnum.
  destruct Hpre as (w0 & Hw0). destruct Hmodel as (w1 & Hw1).
  destruct Hnum as (w3 & Hw3).
  apply PATTERN_marker_pieces in Hmark.
  destruct Hmark as (v1 & v2 & Hmark & _).
  apply PATTERN_point_pieces in Hpoint.
  destruct Hpoint as (x1 & ge & x2 & wei & Hpoint & _).
  rewrite Hd, Hw0, Hw1, Hmark, Hw3, Hpoint. split.
  - do 4 (apply in_or_app; right). now left.
  - do 10 (apply in_or_app; right). now left.
Qed.
End ExtractionFacts.

(** X11: when the pattern matches, the text is a prefix, the group "model",
    white space, the marker 第, white space, the group "num", white space,
    an optional 个, white space, 点, and a tail.  The model is not empty and
    holds no line feed; the number is a run of decimal digits or a run of
    numeral glyphs. *)
Theorem PATTERN_extraction {UT : UnicodeTables} (text : str) (m : mstate) :
  re_search PATTERN text = Some m ->
  exists pre mg s1 s2 ng s3 ge s4 tail,
    text = pre ++ mg ++ s1 ++ [ch "第"] ++ s2 ++ ng
               ++ s3 ++ ge ++ s4 ++ [ch "点"] ++ tail
    /\ group "model" (groups m) = Some mg
    /\ group "num" (groups m) = Some ng
    /\ mg <> [] /\ ng <> []
    /\ forallb (cls_mem CAny) mg = true
    /\ forallb isspace s1 = true /\ forallb isspace s2 = true
    /\ forallb isspace s3 = true /\ forallb isspace s4 = true
    /\ (ge = [] \/ ge = [ch "个"])
    /\ (forallb (cls_mem CDigit) ng = true
        \/ forallb (cls_mem (CSet numeral_glyphs)) ng = true).
Proof.
  intros H. unfold re_search in H.
  apply (search_from_prefix PATTERN (start text) m text eq_refl) in H.
  destruct H as (st & d & H & Hd).
  unfold PATTERN in H. cbn [matched] in H.
  destruct H as (s1 & Hpre & s2 & Hmodel & s3 & Hmark & s4 & Hnum
                 & s5 & Hpoint & Hrest).
  apply matched_consumed in Hpre. destruct Hpre as (w0 & Hw0).
  pose proof (matched_no_groups PATTERN_rest s5 m eq_refl Hrest) as Grest.
  apply matched_consumed in Hrest. destruct Hrest as (w6 & Hw6).
  unfold PATTERN_model in Hmodel. cbn [matched] in Hmodel.
  destruct Hmodel as (a & (w & Hlw & Hcw & Hrw & Hgw) & ->).
  apply PATTERN_marker_pieces in Hmark.
  destruct Hmark as (v1 & v2 & Hmark & Hv1 & Hv2 & Gmark).
  unfold PATTERN_num in Hnum. cbn [matched] in Hnum.
  destruct Hnum as (b & (b' & Halt & ->) & ->).
  assert (exists v, (1 <= List.length v)%nat
                    /\ rest s3 = v ++ rest b' /\ groups b' = groups s3
                    /\ (forallb (cls_mem CDigit) v = true
                        \/ forallb (cls_mem (CSet numeral_glyphs)) v = true))
    as (v & Hlv & Hrv & Hgv & Hv).
  { destruct Halt as [(v & Hl & Hv & Hr & Hg) | (v & Hl & Hv & Hr & Hg)];
      exists v; repeat split; auto. }
  apply PATTERN_point_pieces in Hpoint.
  destruct Hpoint as (x1 & ge & x2 & wei & Hpoint & Hx1 & Hx2 & Hge & Gpoint).
  exists (d ++ w0), w, v1, v2, v, x1, ge, x2, (wei ++ w6 ++ rest m).
  unfold capture in *. cbn [rest groups at_start] in *.
  split.
  { rewrite Hd, Hw0, Hrw, Hmark, Hrv, Hpoint, Hw6. cbn [app].
    rewrite <- !app_assoc. reflexivity. }
  rewrite (taken_app s1 a w Hrw) in Gmark.
  assert (Tv : taken s3 (MState (at_start b') (rest b')
                  (set_group "2" (taken s3 b') (groups b'))) = v)
    by (apply taken_app; exact Hrv).
  rewrite Tv in Gpoint.
  split.
  { rewrite Grest, Gpoint.
    rewrite group_set_other by reflexivity.
    rewrite group_set_other by reflexivity.
    rewrite Hgv, Gmark. apply group_set_same. }
  split.
  { rewrite Grest, Gpoint. apply group_set_same. }
  split; [intros ->; cbn in Hlw; lia|].
  split; [intros ->; cbn in Hlv; lia|].
  repeat (split; [assumption|]). exact Hv.
Qed.

Lemma PATTERN_extraction_witness :
  exists m,
    re_search (UT := fragment_only) PATTERN (u8 "a--Find X8 第 拾贰 点位") = Some m
    /\ exists pre mg s1 s2 ng s3 ge s4 tail,
         u8 "a--Find X8 第 拾贰 点位"
         = pre ++ mg ++ s1 ++ [ch "第"] ++ s2 ++ ng
               ++ s3 ++ ge ++ s4 ++ [ch "点"] ++ tail
         /\ group "model" (groups m) = Some mg
         /\ group "num" (groups m) = Some ng
         /\ mg <> [] /\ ng <> []
         /\ forallb (cls_mem (UT := fragment_only) CAny) mg = true
         /\ forallb isspace s1 = true /\ forallb isspace s2 = true
         /\ forallb isspace s3 = true /\ forallb isspace s4 = true
         /\ (ge = [] \/ ge = [ch "个"])
         /\ (forallb (cls_mem (UT := fragment_only) CDigit) ng = true
             \/ forallb (cls_mem (UT := fragment_only) (CSet numeral_glyphs)) ng
                = true).
Proof.
  eexists. split; [vm_compute; reflexivity|].
  apply (PATTERN_extraction (UT := fragment_only) (u8 "a--Find X8 第 拾贰 点位")).
  vm_compute. reflexivity.
Defined.

(** X12: a stem without the marker 第, or without 点, gets no new name. *)
Theorem build_new_name_needs_marker {UT : UnicodeTables} (G : index)
  (basename : str) :
  ~ In (ch "第") basename \/ ~ In (ch "点") basename ->
  build_new_name G basename = Ret None.
Proof.
  intros H. unfold build_new_name.
  destruct (re_search PATTERN basename) as [m|] eqn:E; [|reflexivity].
  exfalso. apply PATTERN_markers in E. destruct E as [E1 E2].
  destruct H as [H|H]; apply H; assumption.
Qed.

Lemma build_new_name_needs_marker_witness :
  build_new_name (UT := fragment_only) (loaded (UT := fragment_only))
    (u8 "小米15 12个点") = Ret None.
Proof.
  apply (build_new_name_needs_marker (UT := fragment_only)).
  left. intros H. vm_compute in H.
  repeat (destruct H as [H|H]; [discriminate H|]). exact H.
Defined.

(** X13: the builder gives no name exactly when the pattern does not match
    or the model is empty once sanitised: what the pattern lets through as a
    number is never refused.  The builder returns or raises [ValueError],
    which only the conversion of an integer of more than 4300 digits does;
    on a stem of at most 4300 characters it returns, when every decimal
    value of the Unicode database is one of 0 to 9. *)
Theorem build_new_name_none_iff {UT : UnicodeTables} (G : index)
  (basename : str) :
  (build_new_name G basename = Ret None <->
   re_search PATTERN basename = None
   \/ exists m mg,
        re_search PATTERN basename = Some m
        /\ group "model" (groups m) = Some mg
        /\ sanitize_component (strip mg) = [])
  /\ ((exists r, build_new_name G basename = Ret r)
      \/ build_new_name G basename = Raise ValueError)
  /\ ((forall c d, tbl_decimal c = Some d -> (0 <= d <= 9)%Z) ->
      N.of_nat (List.length basename) <= int_max_str_digits ->
      exists r, build_new_name G basename = Ret r).
Proof.
  split; [|split; [apply build_new_name_outcome|]];
    [|intros Htbl Hlen; now apply build_new_name_returns].
  unfold build_new_name.
  destruct (re_search PATTERN basename) as [m|] eqn:E;
    [|split; [now left | reflexivity]].
  destruct (PATTERN_groups _ _ E) as (mg & ng & Hmg & Hng & _ & Hne & Hv & _).
  unfold m_group. rewrite Hmg, Hng. cbn [bind].
  destruct (sanitize_component (strip mg)) as [|c model] eqn:Em.
  - split; [|reflexivity]. intros _. right. now exists m, mg.
  - assert (X : forall m' mg',
               Some m = Some m' -> group "model" (groups m') = Some mg' ->
               sanitize_component (strip mg') <> []).
    { intros m' mg' X1 X2. assert (m' = m) by congruence. subst m'.
      assert (mg' = mg) by congruence. subst mg'. congruence. }
    split.
    + destruct (cn2int_of_num ng Hne Hv) as [(n & ->)| ->]; cbn [bind];
        [|discriminate].
      rewrite int2cn_spec. destruct (_ <? _)%Z; cbn [bind]; [|discriminate].
      destruct (find_group_for_model G (c :: model)) as [g al]. discriminate.
    + intros [Y|(m' & mg' & X1 & X2 & X3)]; [discriminate Y|].
      now apply (X m' mg' X1 X2) in X3.
Qed.

Lemma build_new_name_none_iff_witness :
  exists r,
    build_new_name (UT := fragment_only) (loaded (UT := fragment_only))
      (u8 "未知机型第2个点") = Ret r.
Proof.
  apply (proj2 (proj2 (build_new_name_none_iff (UT := fragment_only)
                         (loaded (UT := fragment_only)) (u8 "未知机型第2个点")))).
  - intros c d H. discriminate H.
  - vm_compute. discriminate.
Defined.

(** ** The characters of a new name *)

Lemma uint_chars_legal (d : Decimal.uint) :
  forallb (fun c => negb (illegal c)) (uint_chars d) = true.
Proof.
  induction d; cbn [uint_chars forallb];
    [reflexivity | rewrite IHd; vm_compute; reflexivity ..].
Qed.

Lemma str_of_int_legal (n : Z) :
  forallb (fun c => negb (illegal c)) (str_of_int n) = true.
Proof.
  unfold str_of_int. destruct (Z.to_int n); [apply uint_chars_legal|].
  cbn [forallb]. rewrite uint_chars_legal. vm_compute. reflexivity.
Qed.

Lemma glyph_legal (d : Z) : forallb (fun c => negb (illegal c)) (glyph d) = true.
Proof.
  unfold glyph, INT_TO_CN. cbn [int_get].
  repeat (destruct (_ =? _)%Z; [vm_compute; reflexivity|]). reflexivity.
Qed.

Lemma tens_text_legal (n : Z) :
  forallb (fun c => negb (illegal c)) (tens_text n) = true.
Proof.
  unfold tens_text. rewrite !forallb_app.
  destruct (_ =? 1)%Z; destruct (_ =? 0)%Z; rewrite ?glyph_legal;
    vm_compute; reflexivity.
Qed.

Lemma numeral_spec_legal (n : Z) :
  forallb (fun c => negb (illegal c)) (numeral_spec n) = true.
Proof.
  unfold numeral_spec.
  destruct (n =? 0)%Z; [vm_compute; reflexivity|].
  destruct (_ && _); [apply glyph_legal|].
  destruct (_ && _); [apply tens_text_legal|].
  destruct (_ && _); [|apply str_of_int_legal].
  rewrite !forallb_app, glyph_legal.
  destruct (_ =? 0)%Z; [vm_compute; reflexivity|].
  destruct (_ <=? 9)%Z;
    rewrite ?forallb_app, ?glyph_legal, ?tens_text_legal; vm_compute; reflexivity.
Qed.

Lemma sanitize_component_legal {UT : UnicodeTables} (text : str) :
  forallb (fun c => negb (illegal c)) (sanitize_component text) = true.
Proof.
  rewrite sanitize_steps. apply forallb_forall. intros c Hc.
  apply sanitize_spec_legal in Hc. now rewrite Hc.
Qed.

Lemma loaded_groups_legal {UT : UnicodeTables} :
  forallb (fun g : str => forallb (fun c => negb (illegal c)) g)
          (map (fun e => fst (snd e)) (NORMALIZED_MODEL_TO_GROUP loaded)) = true.
Proof. vm_compute. reflexivity. Qed.

(** X14: a new name holds none of the characters that are illegal in a file
    name, whatever the stem it was built from. *)
Theorem build_new_name_legal {UT : UnicodeTables} (basename nb : str) :
  build_new_name loaded basename = Ret (Some nb) ->
  forall c, In c nb -> illegal c = false.
Proof.
  intros H.
  assert (L : forallb (fun c => negb (illegal c)) nb = true).
  { revert H. unfold build_new_name, m_group.
    destruct (re_search PATTERN basename) as [m|]; [|discriminate].
    destruct (group "model" (groups m)) as [mg|]; cbn [bind]; [|discriminate].
    pose proof (sanitize_component_legal (strip mg)) as Hm.
    destruct (sanitize_component (strip mg)) as [|c model]; [discriminate|].
    destruct (group "num" (groups m)) as [ng|]; cbn [bind]; [|discriminate].
    destruct (cn2int (strip ng)) as [[n|]| |]; cbn [bind]; try discriminate.
    rewrite int2cn_spec. destruct (_ <? _)%Z; cbn [bind]; [|discriminate].
    pose proof (numeral_spec_legal n) as Hn.
    pose proof (find_group_in_index loaded (c :: model)) as Hin.
    destruct (find_group_for_model loaded (c :: model)) as [[g|] alias];
      cbn [fst] in Hin.
    - specialize (Hin g eq_refl).
      pose proof loaded_groups_legal as F. rewrite forallb_forall in F.
      pose proof (F g Hin) as Hg. clear F Hin.
      destruct g as [|g0 g].
      + intros H. apply Ret_Some_inj in H. subst nb.
        rewrite !forallb_app, Hm, Hn. vm_compute. reflexivity.
      + destruct (dict_get (g0 :: g) (GROUP_TO_CANONICAL_MODEL loaded))
          as [[|c0 canonical]|].
        * intros H. apply Ret_Some_inj in H. subst nb.
          rewrite !forallb_app, Hg, Hm, Hn. vm_compute. reflexivity.
        * pose proof (sanitize_component_legal (c0 :: canonical)) as Hc.
          destruct (sanitize_component (c0 :: canonical)) as [|x xs];
            intros H; apply Ret_Some_inj in H; subst nb.
          -- rewrite !forallb_app, Hg, Hm, Hn. vm_compute. reflexivity.
          -- rewrite !forallb_app, Hg, Hc, Hn. vm_compute. reflexivity.
        * intros H. apply Ret_Some_inj in H. subst nb.
          rewrite !forallb_app, Hg, Hm, Hn. vm_compute. reflexivity.
    - intros H. apply Ret_Some_inj in H. subst nb.
      rewrite !forallb_app, Hm, Hn. vm_compute. reflexivity. }
  intros c Hc. rewrite forallb_forall in L. specialize (L c Hc).
  now apply negb_true_iff in L.
Qed.

Lemma build_new_name_legal_witness :
  build_new_name (UT := fragment_only) (loaded (UT := fragment_only))
    (u8 "a--my:phone? 第3点") = Ret (Some (u8 "my-phone_第三个点"))
  /\ illegal (ch "-") = false.
Proof.
  assert (H : build_new_name (UT := fragment_only) (loaded (UT := fragment_only))
                (u8 "a--my:phone? 第3点") = Ret (Some (u8 "my-phone_第三个点")))
    by (vm_compute; reflexivity).
  split; [exact H|].
  apply (build_new_name_legal (UT := fragment_only) (u8 "a--my:phone? 第3点")
           (u8 "my-phone_第三个点") H (ch "-")).
  vm_compute. do 2 right. left. reflexivity.
Defined.

(** ** The plan, file by file *)

Section PlanFacts.
Context {UT : UnicodeTables}.

(** The loop adds to the plan what it would plan for each file alone. *)
Lemma plan_loop_by_file (fs : filesystem) (files : list path)
  (plans plan : list (path * path)) :
  plan_loop fs files plans = Ret plan ->
  plan = plans ++ flat_map (fun p => match plan_loop fs [p] [] with
                                     | Ret l => l
                                     | _ => []
                                     end) files.
Proof.
  revert plans. induction files as [|p files IH]; intros plans H.
  - cbn in H. injection H as <-. cbn. now rewrite app_nil_r.
  - cbn [flat_map]. cbn [plan_loop] in *.
    destruct (fs_is_file fs p); cbn [negb] in *; [|now apply IH].
    destruct (build_new_name loaded (stem p)) as [[[|c nb]|]| |];
      cbn [bind] in *; try discriminate; try (now apply IH).
    destruct (str_eqb (c :: nb) (stem p)); [now apply IH|].
    destruct (with_name p _) as [target| |]; cbn [bind] in *; try discriminate.
    destruct (ensure_unique fs target) as [new_path| |];
      cbn [bind] in *; try discriminate.
    destruct (str_eqb _ _); [now apply IH|].
    destruct (path_eqb new_path p); cbn [negb] in *; [now apply IH|].
    apply IH in H. rewrite H. cbn [app]. now rewrite <- app_assoc.
Qed.

(** What the loop plans for one file. *)
Lemma plan_loop_one (fs : filesystem) (p : path) (l : list (path * path)) :
  plan_loop fs [p] [] = Ret l ->
  l = []
  \/ exists nb dst,
       l = [(p, dst)]
       /\ fs_is_file fs p = true
       /\ build_new_name loaded (stem p) = Ret (Some nb)
       /\ nb <> stem p
       /\ ensure_unique fs (Path (parent p) (nb ++ suffix p)) = Ret dst
       /\ casefold (name dst) <> casefold (name p).
Proof.
  cbn [plan_loop].
  destruct (fs_is_file fs p); cbn [negb]; [|intros [= <-]; now left].
  destruct (build_new_name loaded (stem p)) as [[[|c nb]|]| |];
    cbn [bind]; try discriminate; try (intros [= <-]; now left).
  destruct (str_eqb (c :: nb) (stem p)) eqn:Es; [intros [= <-]; now left|].
  unfold with_name. destruct (name p) as [|n0 nm] eqn:En; [discriminate|].
  destruct (valid_name ((c :: nb) ++ suffix p)); cbn [bind]; [|discriminate].
  destruct (ensure_unique fs (Path (parent p) ((c :: nb) ++ suffix p)))
    as [new_path| |] eqn:Eu; cbn [bind]; try discriminate.
  destruct (str_eqb (casefold (name new_path)) (casefold (n0 :: nm))) eqn:Ec;
    [intros [= <-]; now left|].
  destruct (path_eqb new_path p); cbn [negb]; intros [= <-]; [now left|].
  right. exists (c :: nb), new_path. split; [reflexivity|].
  split; [reflexivity|]. split; [reflexivity|].
  split; [intros X; rewrite X, str_eqb_refl in Es; discriminate Es|].
  split; [exact Eu|].
  intros X. rewrite X, str_eqb_refl in Ec. discriminate Ec.
Qed.

(** What an entry of the plan of a listing is. *)
Lemma plan_loop_entry (fs : filesystem) (files : list path)
  (plan : list (path * path)) (src dst : path) :
  plan_loop fs files [] = Ret plan ->
  In (src, dst) plan ->
  In src files
  /\ fs_is_file fs src = true
  /\ casefold (name dst) <> casefold (name src)
  /\ exists nb,
       build_new_name loaded (stem src) = Ret (Some nb)
       /\ nb <> stem src
       /\ ensure_unique fs (Path (parent src) (nb ++ suffix src)) = Ret dst.
Proof.
  intros H Hin. apply plan_loop_by_file in H. cbn [app] in H. rewrite H in Hin.
  apply in_flat_map in Hin. destruct Hin as (p & Hp & Hin).
  destruct (plan_loop fs [p] []) as [l| |] eqn:E; try destruct Hin.
  apply plan_loop_one in E.
  destruct E as [->|(nb & d & -> & Hf & Hb & Hne & Hu & Hc)]; [destruct Hin|].
  destruct Hin as [[= <- <-]|[]].
  split; [exact Hp|]. split; [exact Hf|]. split; [exact Hc|]. now exists nb.
Qed.
End PlanFacts.

Lemma flat_map_filter {A B} (f : A -> bool) (g : A -> list B) (l : list A) :
  (forall x, f x = false -> g x = []) ->
  flat_map g (filter f l) = flat_map g l.
Proof.
  intros H. induction l as [|x l IH]; [reflexivity|]. cbn [filter flat_map].
  destruct (f x) eqn:E; cbn [flat_map]; [now rewrite IH|].
  now rewrite (H x E), IH.
Qed.

Lemma candidate_parent (target c : path) (i : Z) :
  candidate target i = Ret c -> parent c = parent target.
Proof.
  rewrite candidate_unfold. destruct (_ <? _)%Z; [|discriminate].
  unfold with_name. destruct (name target); [discriminate|].
  destruct (valid_name _); [|discriminate]. now intros [= <-].
Qed.

Lemma ensure_unique_parent (fs : filesystem) (target c : path) :
  ensure_unique fs target = Ret c -> parent c = parent target.
Proof.
  unfold ensure_unique. destruct (fs_exists fs target); cbn [negb].
  - intros H. apply ensure_unique_loop_ret in H.
    destruct H as (_ & j & _ & H & _). now apply candidate_parent in H.
  - now intros [= <-].
Qed.

(** X15: each file is planned on its own: the plan is, in the order of the
    listing, what the loop plans for each regular file of [iter_files]
    alone.  Nothing planned for one file changes what is planned for
    another. *)
Theorem plan_changes_by_file {UT : UnicodeTables} (fs : filesystem)
  (root : list str) (recursive : bool) (plan : list (path * path)) :
  plan_changes fs root recursive = Ret plan ->
  plan = flat_map (fun p => match plan_loop fs [p] [] with
                            | Ret l => l
                            | _ => []
                            end) (iter_files fs root recursive).
Proof.
  unfold plan_changes, iter_files. intros H.
  apply plan_loop_by_file in H. cbn [app] in H. rewrite H.
  symmetry. apply flat_map_filter. intros p Hp.
  cbn [plan_loop]. now rewrite Hp.
Qed.

Lemma plan_changes_by_file_witness :
  two_photos_plan
  = flat_map (fun p => match plan_loop (UT := fragment_only) two_photos [p] [] with
                       | Ret l => l
                       | _ => []
                       end) (iter_files two_photos [u8 "photos"] false).
Proof.
  apply (plan_changes_by_file (UT := fragment_only) two_photos [u8 "photos"]
           false two_photos_plan).
  vm_compute. reflexivity.
Defined.

(** X16: what an entry of the plan is.  Its source is a regular file of the
    listing; the builder gives a new name for the stem of the source, other
    than that stem; the destination is what [ensure_unique] returns for the
    new name with the suffix of the source, in the directory of the source;
    and the names of source and destination differ even when case is
    ignored. *)
Theorem plan_changes_entry {UT : UnicodeTables} (fs : filesystem)
  (root : list str) (recursive : bool) (plan : list (path * path))
  (src dst : path) :
  plan_changes fs root recursive = Ret plan ->
  In (src, dst) plan ->
  In src (iter_files fs root recursive)
  /\ parent dst = parent src
  /\ casefold (name dst) <> casefold (name src)
  /\ exists nb,
       build_new_name loaded (stem src) = Ret (Some nb)
       /\ nb <> stem src
       /\ ensure_unique fs (Path (parent src) (nb ++ suffix src)) = Ret dst.
Proof.
  intros H Hin. unfold plan_changes in H.
  destruct (plan_loop_entry fs _ plan src dst H Hin)
    as (Hp & Hf & Hc & nb & Hb & Hne & Hu).
  split; [unfold iter_files; apply filter_In; now split|].
  split; [now apply ensure_unique_parent in Hu|].
  split; [exact Hc|]. now exists nb.
Qed.

Lemma plan_changes_entry_witness :
  In (photo "小米15第1个点.jpg") (iter_files two_photos [u8 "photos"] false)
  /\ parent (photo "1-1_小米15_第一个点.jpg") = parent (photo "小米15第1个点.jpg")
  /\ casefold (UT := fragment_only) (name (photo "1-1_小米15_第一个点.jpg"))
     <> casefold (UT := fragment_only) (name (photo "小米15第1个点.jpg"))
  /\ exists nb,
       build_new_name (UT := fragment_only) (loaded (UT := fragment_only))
         (stem (photo "小米15第1个点.jpg")) = Ret (Some nb)
       /\ nb <> stem (photo "小米15第1个点.jpg")
       /\ ensure_unique two_photos
            (Path (parent (photo "小米15第1个点.jpg"))
                  (nb ++ suffix (photo "小米15第1个点.jpg")))
          = Ret (photo "1-1_小米15_第一个点.jpg").
Proof.
  apply (plan_changes_entry (UT := fragment_only) two_photos [u8 "photos"]
           false two_photos_plan).
  - vm_compute. reflexivity.
  - left. reflexivity.
Defined.

(** ** Stems and suffixes *)

Lemma rfind_dot_none (s : str) (i : nat) (last : option nat) :
  mem 46 s = false -> rfind_dot s i last = last.
Proof.
  revert i last. induction s as [|c s IH]; intros i last; cbn [rfind_dot];
    [reflexivity|].
  unfold mem. cbn [existsb]. intros H. apply orb_false_elim in H.
  destruct H as [H1 H2]. rewrite N.eqb_sym in H1. rewrite H1. now apply IH.
Qed.

Lemma rfind_dot_app (a r : str) (i : nat) (last : option nat) :
  mem 46 r = false ->
  rfind_dot (a ++ 46 :: r) i last = Some (i + List.length a)%nat.
Proof.
  intros Hr. revert i last. induction a as [|c a IH]; intros i last;
    cbn [app rfind_dot List.length].
  - rewrite N.eqb_refl, rfind_dot_none by exact Hr. f_equal. lia.
  - rewrite IH. f_equal. lia.
Qed.

Lemma rfind_dot_some (s : str) (i k : nat) (last : option nat) :
  rfind_dot s i last = Some k ->
  (last = Some k /\ mem 46 s = false)
  \/ exists a r,
       s = a ++ 46 :: r /\ k = (i + List.length a)%nat /\ mem 46 r = false.
Proof.
  revert i last. induction s as [|c s IH]; intros i last; cbn [rfind_dot].
  - intros ->. now left.
  - intros H. apply IH in H.
    destruct H as [[H1 H2] | (a & r & -> & -> & Hr)].
    + destruct (c =? 46) eqn:E.
      * injection H1 as <-. apply N.eqb_eq in E. subst c. right.
        exists [], s. split; [reflexivity|]. split; [cbn; lia | exact H2].
      * left. split; [exact H1|]. unfold mem. cbn [existsb].
        rewrite N.eqb_sym, E. exact H2.
    + right. exists (c :: a), r. split; [reflexivity|].
      split; [cbn; lia | exact Hr].
Qed.

(** The name of a path with a suffix: a stem that is not empty, a dot, and
    an extension that is not empty and holds no dot. *)
Lemma split_at_some (nm : str) (i : nat) :
  split_at nm = Some i ->
  exists a r,
    nm = a ++ 46 :: r /\ i = List.length a
    /\ a <> [] /\ r <> [] /\ mem 46 r = false.
Proof.
  unfold split_at. destruct (rfind_dot nm 0 None) as [k|] eqn:E; [|discriminate].
  destruct (_ && _) eqn:T; [|discriminate]. intros [= <-].
  apply rfind_dot_some in E.
  destruct E as [[E _] | (a & r & -> & -> & Hr)]; [discriminate|].
  apply andb_prop in T. destruct T as [T1 T2].
  apply Nat.ltb_lt in T1, T2. rewrite length_app in T2. cbn [List.length] in T2.
  exists a, r. split; [reflexivity|]. split; [reflexivity|].
  split; [intros ->; cbn in T1; lia|].
  split; [intros ->; cbn in T2; lia | exact Hr].
Qed.

Lemma split_at_app (a r : str) :
  a <> [] -> r <> [] -> mem 46 r = false ->
  split_at (a ++ 46 :: r) = Some (List.length a).
Proof.
  intros Ha Hr Hm. unfold split_at. rewrite rfind_dot_app by exact Hm.
  rewrite length_app. cbn [List.length].
  destruct a as [|x a]; [congruence|]. destruct r as [|y r]; [congruence|].
  cbn [List.length Nat.add].
  replace (_ && _) with true; [reflexivity|]. symmetry.
  apply andb_true_intro. split; apply Nat.ltb_lt; lia.
Qed.

Lemma name_with_suffix (p : path) :
  suffix p <> [] ->
  exists r,
    name p = stem p ++ 46 :: r /\ suffix p = 46 :: r
    /\ stem p <> [] /\ r <> [] /\ mem 46 r = false.
Proof.
  unfold suffix, stem. destruct (split_at (name p)) as [i|] eqn:E; [|congruence].
  intros _. apply split_at_some in E.
  destruct E as (a & r & En & -> & Ha & Hr & Hm). rewrite En.
  rewrite firstn_app, Nat.sub_diag, firstn_all. cbn [firstn]. rewrite app_nil_r.
  rewrite skipn_app, Nat.sub_diag, skipn_all. cbn [skipn app].
  exists r. now repeat split.
Qed.

Lemma suffix_of_name (d : list str) (a r : str) :
  a <> [] -> r <> [] -> mem 46 r = false ->
  stem (Path d (a ++ 46 :: r)) = a /\ suffix (Path d (a ++ 46 :: r)) = 46 :: r.
Proof.
  intros Ha Hr Hm. unfold suffix, stem. cbn [name].
  rewrite (split_at_app a r Ha Hr Hm).
  rewrite firstn_app, Nat.sub_diag, firstn_all. cbn [firstn]. rewrite app_nil_r.
  rewrite skipn_app, Nat.sub_diag, skipn_all. cbn [skipn app]. now split.
Qed.

Lemma candidate_name (target c : path) (i : Z) :
  candidate target i = Ret c ->
  c = Path (parent target)
        (stem target ++ u8 " (" ++ str_of_int i ++ u8 ")" ++ suffix target).
Proof.
  rewrite candidate_unfold. destruct (_ <? _)%Z; [|discriminate].
  unfold with_name. destruct (name target); [discriminate|].
  destruct (valid_name _); [|discriminate]. now intros [= <-].
Qed.

(** The loop of [ensure_unique] stops within its fuel. *)
Lemma ensure_unique_loop_bound (fs : filesystem) (target c : path)
  (fuel : nat) (i : Z) :
  ensure_unique_loop fuel fs target i = Ret c ->
  exists j, (i <= j < i + Z.of_nat fuel)%Z /\ candidate target j = Ret c.
Proof.
  revert i. induction fuel as [|fuel IH]; intros i; cbn [ensure_unique_loop];
    [discriminate|].
  destruct (candidate target i) as [cand| |] eqn:E; cbn [bind]; try discriminate.
  destruct (fs_exists fs cand); cbn [negb].
  - intros H. apply IH in H. destruct H as (j & Hj & H).
    exists j. split; [lia | exact H].
  - intros [= <-]. exists i. split; [lia | exact E].
Qed.

(** A target with an extension keeps it, and its stem is kept or gets the
    counter. *)
Lemma ensure_unique_suffix (fs : filesystem) (target c : path) :
  ensure_unique fs target = Ret c ->
  suffix target <> [] ->
  suffix c = suffix target
  /\ (stem c = stem target
      \/ exists i, (2 <= i)%Z
           /\ stem c = stem target ++ u8 " (" ++ str_of_int i ++ u8 ")").
Proof.
  intros H S. unfold ensure_unique in H.
  destruct (fs_exists fs target); cbn [negb] in H;
    [|injection H as <-; split; [reflexivity | now left]].
  apply ensure_unique_loop_bound in H. destruct H as (j & Hj & H).
  apply candidate_name in H. subst c.
  apply name_with_suffix in S. destruct S as (r & _ & -> & Hs & Hr & Hm).
  rewrite !app_assoc.
  assert (N : ((stem target ++ u8 " (") ++ str_of_int j) ++ u8 ")" <> [])
    by (destruct (stem target); [congruence | discriminate]).
  destruct (suffix_of_name (parent target) _ r N Hr Hm) as [E1 E2].
  split; [exact E2|]. right. exists j. split; [lia|].
  rewrite E1, <- !app_assoc. reflexivity.
Qed.

(** X17: what [ensure_unique] returns is in the directory of the target; it
    is the target, or the target with " (i)" put after its stem, for a
    counter from 2 to the number of entries of the file system plus 2; and
    a target with an extension keeps it. *)
Theorem ensure_unique_shape (fs : filesystem) (target c : path) :
  ensure_unique fs target = Ret c ->
  parent c = parent target
  /\ (c = target
      \/ exists i, (2 <= i <= Z.of_nat (List.length fs) + 2)%Z
           /\ name c = stem target ++ u8 " (" ++ str_of_int i ++ u8 ")"
                         ++ suffix target)
  /\ (suffix target <> [] -> suffix c = suffix target).
Proof.
  intros H. split; [now apply ensure_unique_parent in H|].
  split; [|intros S; now apply (ensure_unique_suffix fs target c H)].
  unfold ensure_unique in H.
  destruct (fs_exists fs target); cbn [negb] in H;
    [|injection H as <-; now left].
  apply ensure_unique_loop_bound in H. destruct H as (j & Hj & H).
  apply candidate_name in H. subst c. cbn [name].
  right. exists j. split; [lia | reflexivity].
Qed.

Lemma ensure_unique_shape_witness :
  parent (photo "小米15第1个点 (2).jpg") = parent (photo "小米15第1个点.jpg")
  /\ (photo "小米15第1个点 (2).jpg" = photo "小米15第1个点.jpg"
      \/ exists i, (2 <= i <= Z.of_nat (List.length two_photos) + 2)%Z
           /\ name (photo "小米15第1个点 (2).jpg")
              = stem (photo "小米15第1个点.jpg") ++ u8 " (" ++ str_of_int i
                  ++ u8 ")" ++ suffix (photo "小米15第1个点.jpg"))
  /\ (suffix (photo "小米15第1个点.jpg") <> [] ->
      suffix (photo "小米15第1个点 (2).jpg") = suffix (photo "小米15第1个点.jpg")).
Proof.
  apply (ensure_unique_shape two_photos (photo "小米15第1个点.jpg")
           (photo "小米15第1个点 (2).jpg")).
  vm_compute. reflexivity.
Defined.

(** X18: renaming keeps the extension.  When the source of an entry of the
    plan has a suffix, the destination has the same suffix, and its stem is
    the new name that the builder gives for the stem of the source, or that
    name followed by " (i)" for a counter from 2 on. *)
Theorem plan_changes_keeps_suffix {UT : UnicodeTables} (fs : filesystem)
  (root : list str) (recursive : bool) (plan : list (path * path))
  (src dst : path) :
  plan_changes fs root recursive = Ret plan ->
  In (src, dst) plan ->
  suffix src <> [] ->
  suffix dst = suffix src
  /\ exists nb,
       build_new_name loaded (stem src) = Ret (Some nb)
       /\ (stem dst = nb
           \/ exists i, (2 <= i)%Z
                /\ stem dst = nb ++ u8 " (" ++ str_of_int i ++ u8 ")").
Proof.
  intros H Hin S. unfold plan_changes in H.
  destruct (plan_loop_entry fs _ plan src dst H Hin)
    as (_ & _ & _ & nb & Hb & _ & Hu).
  apply name_with_suffix in S. destruct S as (r & _ & Es & _ & Hr & Hm).
  rewrite Es in Hu |- *.
  assert (N : nb <> []).
  { apply build_new_name_clean in Hb. destruct Hb as [_ L].
    intros ->. cbn in L. lia. }
  destruct (suffix_of_name (parent src) nb r N Hr Hm) as [E1 E2].
  assert (S : suffix (Path (parent src) (nb ++ 46 :: r)) <> [])
    by (rewrite E2; discriminate).
  destruct (ensure_unique_suffix fs _ dst Hu S) as [X1 X2].
  rewrite E1 in X2. rewrite E2 in X1.
  split; [exact X1|]. exists nb. split; [exact Hb | exact X2].
Qed.

Lemma plan_changes_keeps_suffix_witness :
  suffix (photo "1-1_小米15_第一个点.jpg") = suffix (photo "小米15第1个点.jpg")
  /\ exists nb,
       build_new_name (UT := fragment_only) (loaded (UT := fragment_only))
         (stem (photo "小米15第1个点.jpg")) = Ret (Some nb)
       /\ (stem (photo "1-1_小米15_第一个点.jpg") = nb
           \/ exists i, (2 <= i)%Z
                /\ stem (photo "1-1_小米15_第一个点.jpg")
                   = nb ++ u8 " (" ++ str_of_int i ++ u8 ")").
Proof.
  apply (plan_changes_keeps_suffix (UT := fragment_only) two_photos
           [u8 "photos"] false two_photos_plan).
  - vm_compute. reflexivity.
  - left. reflexivity.
  - vm_compute. discriminate.
Defined.

(** ** Text that the sanitizer leaves as it is *)

Lemma lstrip_id_head (p : char -> bool) (s : str) :
  (forall c r, s = c :: r -> p c = false) -> lstrip_with p s = s.
Proof.
  destruct s as [|c r]; [reflexivity|]. intros H. cbn [lstrip_with].
  now rewrite (H c r eq_refl).
Qed.

Lemma rstrip_id_last (p : char -> bool) (s : str) :
  (forall r c, s = r ++ [c] -> p c = false) -> rstrip_with p s = s.
Proof.
  intros H. unfold rstrip_with. rewrite lstrip_id_head; [apply rev_involutive|].
  intros c r E. apply (H (rev r) c).
  rewrite <- (rev_involutive s), E. reflexivity.
Qed.

Lemma collapse_spaces_id (b : bool) (s : str) :
  (forall c, In c s -> isspace c = true -> c = ch " ") ->
  (forall a r, s <> a ++ ch " " :: ch " " :: r) ->
  (b = true -> forall r, s <> ch " " :: r) ->
  collapse_spaces b s = s.
Proof.
  revert b. induction s as [|d s IH]; intros b H1 H2 H3; [reflexivity|].
  cbn [collapse_spaces].
  assert (H1' : forall c, In c s -> isspace c = true -> c = ch " ")
    by (intros c Hc; apply H1; now right).
  assert (H2' : forall a r, s <> a ++ ch " " :: ch " " :: r)
    by (intros a r E; apply (H2 (d :: a) r); cbn [app]; now rewrite E).
  destruct (isspace d) eqn:E.
  - pose proof (H1 d (or_introl eq_refl) E) as Hd. subst d.
    destruct b; [now destruct (H3 eq_refl s)|].
    rewrite (IH true); [reflexivity | exact H1' | exact H2' |].
    intros _ r Er. apply (H2 [] r). cbn [app]. now rewrite Er.
  - rewrite (IH false); [reflexivity | exact H1' | exact H2' | discriminate].
Qed.

(** X19: a text that is already clean is left as it is by
    [sanitize_component]: no illegal character, no white space but single
    spaces, no connector or white space at either end and no period at the
    end. *)
Theorem sanitize_component_clean {UT : UnicodeTables} (text : str) :
  (forall c, In c text ->
             illegal c = false /\ (isspace c = true -> c = ch " ")) ->
  (forall a r, text <> a ++ ch " " :: ch " " :: r) ->
  (forall c r, text = c :: r -> is_connector c = false) ->
  (forall r c, text = r ++ [c] -> is_connector c = false /\ c <> ch ".") ->
  sanitize_component text = text.
Proof.
  intros H1 H2 H3 H4. rewrite sanitize_steps.
  unfold sanitize_spec, strip_trailing, strip_ends.
  assert (R : replace_illegal text = text).
  { unfold replace_illegal. rewrite <- (map_id text) at 2.
    apply map_ext_in. intros c Hc. now rewrite (proj1 (H1 c Hc)). }
  rewrite R, collapse_spaces_id;
    [| intros c Hc; now apply H1 | exact H2 | discriminate].
  rewrite (lstrip_id_head is_connector text H3).
  rewrite (rstrip_id_last is_connector text) by (intros r c E; now apply (H4 r c)).
  apply rstrip_id_last. intros r c E. destruct (H4 r c E) as [X Y].
  apply orb_false_intro; apply N.eqb_neq; [|exact Y].
  intros ->. discriminate X.
Qed.

Lemma sanitize_component_clean_witness :
  sanitize_component (UT := fragment_only) [70; 105; 110; 100; 32; 88; 56]
  = [70; 105; 110; 100; 32; 88; 56].
Proof.
  apply (sanitize_component_clean (UT := fragment_only)).
  - intros c H. cbn [In] in H.
    repeat (destruct H as [<-|H]; [split; [vm_compute; reflexivity|];
                                   first [discriminate | reflexivity]|]).
    destruct H.
  - intros a r E.
    do 7 (destruct a as [|? a]; cbn [app] in E;
          [discriminate E | injection E as _ E]).
    destruct a; discriminate E.
  - intros c r E. injection E as <- _. vm_compute. reflexivity.
  - intros r c E. apply (f_equal (@rev char)) in E. rewrite rev_unit in E.
    cbn [rev app] in E. injection E as <- _.
    split; [vm_compute; reflexivity | discriminate].
Defined.

(** ** White space in numerals *)

Lemma NUM_MAP_not_space (c : char) (v : Z) :
  char_get c NUM_MAP = Some v -> isspace c = false.
Proof.
  unfold NUM_MAP. cbn [char_get].
  repeat (destruct (c =? _) eqn:E;
          [intros _; apply N.eqb_eq in E; subst c; vm_compute; reflexivity
          |clear E]).
  discriminate.
Qed.

Lemma UNIT_MAP_not_space (c : char) (v : Z) :
  char_get c UNIT_MAP = Some v -> isspace c = false.
Proof.
  unfold UNIT_MAP. cbn [char_get].
  repeat (destruct (c =? _) eqn:E;
          [intros _; apply N.eqb_eq in E; subst c; vm_compute; reflexivity
          |clear E]).
  discriminate.
Qed.

(** The loop of [cn2int] does not see white space. *)
Lemma cn2int_loop_spaces (s : str) (total current : Z) :
  cn2int_loop (filter (fun c => negb (isspace c)) s) total current
  = cn2int_loop s total current.
Proof.
  revert total current. induction s as [|c s IH]; intros total current;
    [reflexivity|].
  cbn [filter]. destruct (isspace c) eqn:E; cbn [negb cn2int_loop].
  - rewrite IH.
    destruct (char_get c NUM_MAP) as [v|] eqn:Ev;
      [apply NUM_MAP_not_space in Ev; congruence|].
    destruct (char_get c UNIT_MAP) as [u|] eqn:Eu;
      [apply UNIT_MAP_not_space in Eu; congruence|].
    now rewrite E.
  - destruct (char_get c NUM_MAP); [apply IH|].
    destruct (char_get c UNIT_MAP); [apply IH|]. now rewrite E.
Qed.

Section SpaceFacts.
Context {UT : UnicodeTables}.

Lemma char_isdigit_not_space (c : char) :
  char_isdigit c = true -> isspace c = false.
Proof.
  intros H. destruct (isspace c) eqn:S; [|reflexivity]. exfalso.
  assert (P : plain c = true) by (unfold plain; now rewrite S, !orb_true_r).
  unfold char_isdigit, decimal in H. rewrite P in H.
  destruct (ascii_digit c) eqn:D; [|discriminate].
  unfold ascii_digit in D. apply andb_prop in D. destruct D as [D1 D2].
  apply N.leb_le in D1, D2.
  assert (X : c = 48 \/ c = 49 \/ c = 50 \/ c = 51 \/ c = 52 \/ c = 53
              \/ c = 54 \/ c = 55 \/ c = 56 \/ c = 57) by lia.
  repeat (destruct X as [-> | X]; [discriminate S|]). subst c. discriminate S.
Qed.

Lemma filter_spaces_strip (s : str) :
  filter (fun c => negb (isspace c)) (strip s)
  = filter (fun c => negb (isspace c)) s.
Proof.
  unfold strip.
  rewrite (filter_rstrip_gen isspace isspace) by auto.
  apply (filter_lstrip_gen isspace isspace). auto.
Qed.

Lemma filter_spaces_id (s : str) :
  forallb (fun c => negb (isspace c)) s = true ->
  filter (fun c => negb (isspace c)) s = s.
Proof.
  induction s as [|c s IH]; [reflexivity|]. cbn [forallb filter].
  intros H. apply andb_prop in H. destruct H as [H1 H2].
  now rewrite H1, (IH H2).
Qed.

Lemma strip_first (s : str) (c : char) (r : str) :
  strip s = c :: r -> isspace c = false.
Proof.
  unfold strip. intros E.
  destruct (rstrip_prefix isspace (lstrip_with isspace s)) as (x & Hx).
  rewrite E in Hx. cbn [app] in Hx. now apply lstrip_head in Hx.
Qed.
End SpaceFacts.

(** X20: [cn2int] reads a numeral whatever white space is put into it: a
    text and the same text without its white space are converted alike,
    unless what is left without the white space is a string of digits. *)
Theorem cn2int_ignores_spaces {UT : UnicodeTables} (s : str) :
  isdigit (filter (fun c => negb (isspace c)) s) = false ->
  cn2int s = cn2int (filter (fun c => negb (isspace c)) s).
Proof.
  intros D. set (t := filter (fun c => negb (isspace c)) s) in *.
  assert (Ft : forallb (fun c => negb (isspace c)) t = true).
  { apply forallb_forall. intros c Hc. unfold t in Hc.
    apply filter_In in Hc. now destruct Hc. }
  assert (St : strip t = t) by now apply strip_id.
  destruct (strip s) as [|c0 r0] eqn:Es.
  - assert (Et : t = []).
    { unfold t. rewrite <- filter_spaces_strip, Es. reflexivity. }
    rewrite (cn2int_empty s Es). rewrite Et. reflexivity.
  - assert (Ht : t <> []).
    { pose proof (strip_first s c0 r0 Es) as H0.
      unfold t. rewrite <- filter_spaces_strip, Es. cbn [filter].
      rewrite H0. discriminate. }
    assert (Ds : isdigit (strip s) = false).
    { destruct (isdigit (strip s)) eqn:X; [|reflexivity].
      assert (Fs : forallb (fun c => negb (isspace c)) (strip s) = true).
      { rewrite Es in X |- *. unfold isdigit in X.
        rewrite forallb_forall in X |- *. intros c Hc.
        now rewrite (char_isdigit_not_space c (X c Hc)). }
      apply filter_spaces_id in Fs. rewrite filter_spaces_strip in Fs.
      fold t in Fs. rewrite Fs in D. congruence. }
    rewrite (cn2int_numerals s); [|rewrite Es; discriminate | exact Ds].
    rewrite (cn2int_numerals t) by (rewrite St; assumption).
    rewrite St. unfold t at 1.
    rewrite <- filter_spaces_strip, cn2int_loop_spaces. reflexivity.
Qed.

Lemma cn2int_ignores_spaces_witness :
  cn2int (UT := fragment_only) (u8 " 二 十 一 ")
  = cn2int (UT := fragment_only)
      (filter (fun c => negb (isspace c)) (u8 " 二 十 一 ")).
Proof.
  apply (cn2int_ignores_spaces (UT := fragment_only)).
  vm_compute. reflexivity.
Defined.

(** ** Listings *)

Lemma is_prefix_refl (a : list str) : is_prefix a a = true.
Proof.
  induction a as [|x a IH]; [reflexivity|]. cbn [is_prefix].
  now rewrite str_eqb_refl, IH.
Qed.

Lemma iterdir_rglob (fs : filesystem) (root : list str) (p : path) :
  In p (iterdir fs root) -> In p (rglob fs root).
Proof.
  unfold iterdir, rglob. rewrite !in_map_iff.
  intros (e & <- & He). exists e. split; [reflexivity|].
  apply filter_In in He. destruct He as [He T]. apply filter_In.
  split; [exact He|].
  destruct (list_eq_dec _ _ _) as [->|]; [apply is_prefix_refl | discriminate].
Qed.

(** X21: the recursive plan holds every entry of the plan that is not
    recursive: what is planned for the files of the directory itself does
    not depend on the files below it. *)
Theorem plan_changes_recursive_extends {UT : UnicodeTables} (fs : filesystem)
  (root : list str) (plan plan_r : list (path * path)) (src dst : path) :
  plan_changes fs root false = Ret plan ->
  plan_changes fs root true = Ret plan_r ->
  In (src, dst) plan -> In (src, dst) plan_r.
Proof.
  unfold plan_changes. intros H Hr Hin.
  apply plan_loop_by_file in H, Hr. cbn [app] in H, Hr. subst plan plan_r.
  apply in_flat_map in Hin. destruct Hin as (p & Hp & Hin).
  apply in_flat_map. exists p. split; [now apply iterdir_rglob | exact Hin].
Qed.

Lemma plan_changes_recursive_extends_witness :
  In (photo "小米15第1个点.jpg", photo "1-1_小米15_第一个点.jpg") two_photos_plan.
Proof.
  apply (plan_changes_recursive_extends (UT := fragment_only) two_photos
           [u8 "photos"] two_photos_plan two_photos_plan).
  - vm_compute. reflexivity.
  - vm_compute. reflexivity.
  - left. reflexivity.
Defined.

(** ** Normalised keys *)

Lemma filter_all {A} (f : A -> bool) (l : list A) :
  (forall x, In x l -> f x = true) -> filter f l = l.
Proof.
  induction l as [|x l IH]; [reflexivity|]. intros H. cbn [filter].
  rewrite (H x (or_introl eq_refl)), IH; [reflexivity|].
  intros y Hy. apply H. now right.
Qed.

Lemma ascii_lower_plain (c : char) :
  plain c = true -> plain (ascii_lower c) = true.
Proof.
  unfold ascii_lower. destruct (_ && _) eqn:E; [intros _ | trivial].
  apply andb_prop in E. destruct E as [_ E]. apply N.leb_le in E.
  unfold plain. replace (c + 32 <? 128) with true; [reflexivity|].
  symmetry. apply N.ltb_lt. lia.
Qed.

Lemma ascii_lower_idem (c : char) : ascii_lower (ascii_lower c) = ascii_lower c.
Proof.
  unfold ascii_lower. destruct ((65 <=? c) && (c <=? 90)) eqn:E; [|now rewrite E].
  apply andb_prop in E. destruct E as [E1 E2]. apply N.leb_le in E1, E2.
  replace (c + 32 <=? 90) with false; [now rewrite andb_false_r|].
  symmetry. apply N.leb_gt. lia.
Qed.

(** X22: a normalised key holds no white space and no connector; and for a
    text of the fragment that is written out, normalising a key again gives
    the same key. *)
Theorem normalize_model_key_canonical {UT : UnicodeTables} (s : str) :
  (forall c, In c (normalize_model_key s) -> is_connector c = false)
  /\ (forallb plain s = true ->
      normalize_model_key (normalize_model_key s) = normalize_model_key s).
Proof.
  rewrite !normalize_is_filter. split.
  - unfold normalize_spec. intros c Hc. apply filter_In in Hc.
    destruct Hc as [_ Hc]. now apply negb_true_iff in Hc.
  - intros P. unfold normalize_spec.
    unfold lower at 2 3. rewrite P. set (z := map ascii_lower s).
    assert (Pz : forallb plain (filter (fun c => negb (is_connector c)) z) = true).
    { apply forallb_forall. intros c Hc. apply filter_In in Hc.
      destruct Hc as [Hc _]. unfold z in Hc. apply in_map_iff in Hc.
      destruct Hc as (x & <- & Hx). apply ascii_lower_plain.
      rewrite forallb_forall in P. now apply P. }
    unfold lower. rewrite Pz.
    assert (M : map ascii_lower (filter (fun c => negb (is_connector c)) z)
                = filter (fun c => negb (is_connector c)) z).
    { rewrite <- (map_id (filter _ z)) at 2. apply map_ext_in.
      intros c Hc. apply filter_In in Hc. destruct Hc as [Hc _].
      unfold z in Hc. apply in_map_iff in Hc. destruct Hc as (x & <- & _).
      apply ascii_lower_idem. }
    rewrite M. apply filter_all. intros c Hc. apply filter_In in Hc.
    now destruct Hc.
Qed.

Lemma normalize_model_key_canonical_witness :
  normalize_model_key (UT := fragment_only)
    (normalize_model_key (UT := fragment_only) (u8 " OPPO Find-X8_Pro "))
  = normalize_model_key (UT := fragment_only) (u8 " OPPO Find-X8_Pro ").
Proof.
  apply (proj2 (normalize_model_key_canonical (UT := fragment_only)
                  (u8 " OPPO Find-X8_Pro "))).
  vm_compute. reflexivity.
Defined.
